(** * remuxer: a verification development for L-SMASH's [remuxer.c]

    The program merges the tracks of several input movies into one output
    movie.  This file embeds the parts of [remuxer.c] that decide how the
    output is built -- the brand selection of [set_movie_parameters], the
    track option parser [parse_track_option], the command line handling of
    [parse_cli_option] and [main], and the sample interleaving loop of
    [main] -- and proves properties of them.

    Conventions.  C integers are [Z] with the wrap-around of their width
    written out; [double] is IEEE binary64 as specified by [SpecFloat];
    C arrays are lists read with [array_get] and written with stdpp's
    list insert; C strings are [string]s without the terminating NUL. *)

From Stdlib Require Import ZArith Lia Bool Ascii String SpecFloat.
From stdpp Require Import base tactics option list gmap.

Local Open Scope Z_scope.

(** * Machine integers *)

Definition uint8  (x : Z) : Z := x mod 2 ^ 8.
Definition uint16 (x : Z) : Z := x mod 2 ^ 16.
Definition uint32 (x : Z) : Z := x mod 2 ^ 32.
Definition uint64 (x : Z) : Z := x mod 2 ^ 64.

(** Conversion to a signed type keeps the low bits (two's complement). *)
Definition int16 (x : Z) : Z :=
  let y := x mod 2 ^ 16 in if y <? 2 ^ 15 then y else y - 2 ^ 16.
Definition int32 (x : Z) : Z :=
  let y := x mod 2 ^ 32 in if y <? 2 ^ 31 then y else y - 2 ^ 32.

(** [a[i]] for an array held in a list; [None] is an access outside the
    array, which the C program does not check for. *)
Definition array_get {A : Type} (a : list A) (i : Z) : option A :=
  if i <? 0 then None else a !! Z.to_nat i.

(** [a[i] = x] for an index inside the array. *)
Definition array_set {A : Type} (a : list A) (i : Z) (x : A) : list A :=
  if i <? 0 then a else <[Z.to_nat i := x]> a.

(** * [double] *)

Definition double : Type := spec_float.

Definition double_of_Z (n : Z) : double := binary_normalize 53 1024 n 0 false.
Definition double_div (x y : double) : double := SFdiv 53 1024 x y.
Definition double_le (x y : double) : bool := SFleb x y.
Definition double_gt (x y : double) : bool := SFltb y x.
Definition double_zero : double := S754_zero false.
Definition double_is_nan (x : double) : bool :=
  match x with S754_nan => true | _ => false end.

(** [#define LSMASH_MAX( a, b ) ((a) > (b) ? (a) : (b))] at type [double]. *)
Definition LSMASH_MAX (a b : double) : double := if double_gt a b then a else b.

(** * The container library, as far as the remuxer uses it *)

(** Modelled from the spec: the media timeline that the library keeps for a
    track ([lsmash.h] is not part of the sources).  A timeline is the finite
    list of the track's samples, numbered from 1.  Every sample has a decode
    timestamp in the track's timescale and a length in bytes.  The three
    flags say whether the library call that concerns the sample succeeds:
    [get_decode_timestamp], [fetch_sample] and [append_sample] of the spec
    each return a value or an error. *)
Record media_sample := {
  sample_dts : Z;
  sample_length : Z;
  dts_readable : bool;
  fetchable : bool;
  appendable : bool
}.

(** Modelled from the spec: an opened movie, seen from the remuxer, maps a
    track_ID to the timeline constructed for it. *)
Definition lsmash_root_t : Type := gmap Z (list media_sample).

Definition media_timeline (root : option lsmash_root_t) (track_ID : Z)
  : list media_sample :=
  match root with
  | Some r => default [] (r !! track_ID)
  | None => []
  end.

Definition timeline_entry (root : option lsmash_root_t) (track_ID : Z)
    (sample_number : Z) : option media_sample :=
  if sample_number <? 1 then None
  else media_timeline root track_ID !! Z.to_nat (sample_number - 1).

(** Modelled from the spec: [get_decode_timestamp]; [Some dts] is the C
    function returning 0 and storing the timestamp. *)
Definition lsmash_get_dts_from_media_timeline (root : option lsmash_root_t)
    (track_ID sample_number : Z) : option Z :=
  match timeline_entry root track_ID sample_number with
  | Some e => if dts_readable e then Some (uint64 (sample_dts e)) else None
  | None => None
  end.

(** Modelled from the spec: tells "no such sample" from a failed query. *)
Definition lsmash_check_sample_existence_in_media_timeline
    (root : option lsmash_root_t) (track_ID sample_number : Z) : bool :=
  match timeline_entry root track_ID sample_number with
  | Some _ => true
  | None => false
  end.

(** Modelled from the spec: [fetch_sample]; [None] is the NULL result. *)
Definition lsmash_get_sample_from_media_timeline (root : option lsmash_root_t)
    (track_ID sample_number : Z) : option media_sample :=
  match timeline_entry root track_ID sample_number with
  | Some e => if fetchable e then Some e else None
  | None => None
  end.

(** * Data of the remuxer *)

Record lsmash_track_parameters_t := {
  tp_track_ID : Z;
  alternate_group : Z
}.

Record lsmash_media_parameters_t := {
  handler_type : Z;
  timescale : Z;
  ISO_language : Z
}.

Record lsmash_movie_parameters_t := {
  major_brand : Z;
  minor_version : Z;
  number_of_brands : Z;
  brands : list Z;
  number_of_tracks : Z
}.

Record track_t := {
  track_ID : Z;
  last_sample_delta : Z;
  current_sample_number : Z;
  reach_end_of_media_timeline : bool;
  track_param : lsmash_track_parameters_t;
  media_param : lsmash_media_parameters_t
}.

Record movie_t := {
  root : option lsmash_root_t;
  itunes_meta_list : option Z;
  track : list track_t;
  movie_param : lsmash_movie_parameters_t;
  num_tracks : Z;
  current_track_number : Z
}.

Definition set_current_sample_number (t : track_t) (n : Z) : track_t :=
  {| track_ID := track_ID t; last_sample_delta := last_sample_delta t;
     current_sample_number := n;
     reach_end_of_media_timeline := reach_end_of_media_timeline t;
     track_param := track_param t; media_param := media_param t |}.

Definition set_reach_end_of_media_timeline (t : track_t) (b : bool) : track_t :=
  {| track_ID := track_ID t; last_sample_delta := last_sample_delta t;
     current_sample_number := current_sample_number t;
     reach_end_of_media_timeline := b;
     track_param := track_param t; media_param := media_param t |}.

Definition set_track (m : movie_t) (ts : list track_t) : movie_t :=
  {| root := root m; itunes_meta_list := itunes_meta_list m; track := ts;
     movie_param := movie_param m; num_tracks := num_tracks m;
     current_track_number := current_track_number m |}.

Definition set_current_track_number (m : movie_t) (n : Z) : movie_t :=
  {| root := root m; itunes_meta_list := itunes_meta_list m; track := track m;
     movie_param := movie_param m; num_tracks := num_tracks m;
     current_track_number := n |}.

(** * The sample interleaving loop of [main] *)

(** What [lsmash_append_sample] received: the output track (its number in
    [output.track] and its track_ID), and where the sample came from. *)
Record appended_sample := {
  to_track_number : Z;
  to_track_ID : Z;
  from_movie_number : Z;
  from_track_number : Z;
  from_sample_number : Z;
  appended_dts : Z;
  appended_length : Z
}.

(** The variables that are live in the [while( 1 )] loop of [main], and the
    samples appended to the output so far (oldest first). *)
Record mux_state := {
  input : list movie_t;
  output : movie_t;
  num_input : Z;
  largest_dts : double;
  input_movie_number : Z;
  num_consecutive_sample_skip : Z;
  num_active_input_tracks : Z;
  total_media_size : Z;
  sample_count : Z;
  appended : list appended_sample
}.

(** The messages that the program prints to stderr when it gives up, named
    after their text; [%s] and [%d] arguments are kept as they are. *)
Inductive remuxer_error :=
  (* get_movie *)
  | Standard_input_not_supported
  | Failed_to_open_input_file
  | Failed_to_alloc_input_tracks
  | Failed_to_get_track_ID
  | Failed_to_get_iTunes_metadata
  | Failed_to_get_track_parameters
  | Failed_to_get_media_parameters
  | Failed_to_construct_timeline
  | Failed_to_get_the_last_sample_delta
  (* parse_track_option *)
  | Track_number_is_not_specified_in (raw : string)
  | Multiple_colons_inside_one_track_option_in (raw : string)
  | Is_an_invalid_track_number_s (token : option string)
  | Is_an_invalid_track_number_d (track_number : Z)
  | Multiple_equal_signs_inside_one_track_option_in (track_option : string)
  | Unknown_track_option (track_option : string)
  (* parse_cli_option *)
  | Input_requires_an_argument
  | Failed_to_get_input_movie
  | Could_not_allocate_memory
  | Output_requires_an_argument
  | Unkown_option_found (arg : string)
  | More_track_options_specified_than_tracks (num_tracks : Z)
  | Failed_to_parse_track_options
  (* main *)
  | No_input_file_specified
  | Failed_to_parse_command_line_options
  | Failed_to_open_output_movie
  | Failed_to_set_output_movie_parameters
  | Failed_to_set_iTunes_metadata
  | Failed_to_alloc_output_tracks
  | Failed_to_create_a_track
  | Failed_to_set_track_parameters
  | Failed_to_set_media_parameters
  | Failed_to_copy_a_Decoder_Specific_Info
  | Failed_to_get_the_DTS
  | Failed_to_get_sample
  | Failed_to_append_a_sample
  | Failed_to_flush_samples
  | Failed_to_copy_a_timeline_map
  | Failed_to_finish_output_movie.

(** One turn of the loop either goes round again, leaves the loop through
    [break], returns through [REMUXER_ERR], or reads outside an array. *)
Inductive turn :=
  | Continue (s : mux_state)
  | Break (s : mux_state)
  | Abort (e : remuxer_error)
  | Fault.

(** "Move the next track": lines 482-493. *)
Definition move_the_next_track (s : mux_state) (movie : movie_t) : mux_state :=
  let movie1 := set_current_track_number movie (uint32 (current_track_number movie + 1)) in
  let out1 := set_current_track_number (output s)
                (uint32 (current_track_number (output s) + 1)) in
  let wrapped := num_tracks movie1 <? current_track_number movie1 in
  let movie2 := if wrapped then set_current_track_number movie1 1 else movie1 in
  let imn1 := if wrapped then uint32 (input_movie_number s + 1) else input_movie_number s in
  let imn2 := if uint32 (num_input s) <? imn1 then 1 else imn1 in
  let out2 := if num_tracks out1 <? current_track_number out1
              then set_current_track_number out1 1 else out1 in
  {| input := array_set (input s) (uint32 (input_movie_number s - 1)) movie2;
     output := out2;
     num_input := num_input s;
     largest_dts := largest_dts s;
     input_movie_number := imn2;
     num_consecutive_sample_skip := num_consecutive_sample_skip s;
     num_active_input_tracks := num_active_input_tracks s;
     total_media_size := total_media_size s;
     sample_count := sample_count s;
     appended := appended s |}.

(** The state after the in-place updates of one turn, before the cursor
    moves: the current input track, the current output track and the
    scalars that the turn assigned. *)
Definition store_turn (s : mux_state) (movie : movie_t) (in_track out_track : track_t)
    (largest : double) (skip active size count : Z)
    (log : list appended_sample) : mux_state * movie_t :=
  let movie' := set_track movie
      (array_set (track movie) (uint32 (current_track_number movie - 1)) in_track) in
  let output' := set_track (output s)
      (array_set (track (output s)) (uint32 (current_track_number (output s) - 1)) out_track) in
  ({| input := array_set (input s) (uint32 (input_movie_number s - 1)) movie';
      output := output';
      num_input := num_input s;
      largest_dts := largest;
      input_movie_number := input_movie_number s;
      num_consecutive_sample_skip := skip;
      num_active_input_tracks := active;
      total_media_size := size;
      sample_count := count;
      appended := log |}, movie').

(** The body of [while( 1 )]: lines 432-493. *)
Definition mux_turn (s : mux_state) : turn :=
  match array_get (input s) (uint32 (input_movie_number s - 1)) with
  | None => Fault
  | Some movie =>
    match array_get (track movie) (uint32 (current_track_number movie - 1)) with
    | None => Fault
    | Some in_track =>
      if negb (reach_end_of_media_timeline in_track) then
        match array_get (track (output s)) (uint32 (current_track_number (output s) - 1)) with
        | None => Fault
        | Some out_track =>
          let in_track_ID := track_ID in_track in
          let out_track_ID := track_ID out_track in
          let input_media_timescale := timescale (media_param in_track) in
          match lsmash_get_dts_from_media_timeline (root movie) in_track_ID
                  (current_sample_number in_track) with
          | None =>
            if lsmash_check_sample_existence_in_media_timeline (root movie) in_track_ID
                 (current_sample_number in_track)
            then Abort Failed_to_get_the_DTS
            else
              let active := uint32 (num_active_input_tracks s - 1) in
              let '(s1, movie1) :=
                store_turn s movie (set_reach_end_of_media_timeline in_track true) out_track
                  (largest_dts s) (num_consecutive_sample_skip s) active
                  (total_media_size s) (sample_count s) (appended s) in
              if active =? 0 then Break s1
              else Continue (move_the_next_track s1 movie1)
          | Some dts =>
            let seconds := double_div (double_of_Z dts) (double_of_Z input_media_timescale) in
            if double_le seconds (largest_dts s)
               || (num_consecutive_sample_skip s =? num_active_input_tracks s)
            then
              match lsmash_get_sample_from_media_timeline (root movie) in_track_ID
                      (current_sample_number in_track) with
              | None => Abort Failed_to_get_sample
              | Some sample =>
                let sample_size := uint64 (sample_length sample) in
                if negb (appendable sample) then Abort Failed_to_append_a_sample
                else
                  let entry :=
                    {| to_track_number := current_track_number (output s);
                       to_track_ID := out_track_ID;
                       from_movie_number := input_movie_number s;
                       from_track_number := current_track_number movie;
                       from_sample_number := current_sample_number in_track;
                       appended_dts := dts;
                       appended_length := sample_size |} in
                  let '(s1, movie1) :=
                    store_turn s movie
                      (set_current_sample_number in_track
                         (uint32 (current_sample_number in_track + 1)))
                      (set_current_sample_number out_track
                         (uint32 (current_sample_number out_track + 1)))
                      (LSMASH_MAX (largest_dts s) seconds) 0
                      (num_active_input_tracks s)
                      (uint64 (total_media_size s + sample_size))
                      (uint8 (sample_count s + 1))
                      (appended s ++ [entry]) in
                  Continue (move_the_next_track s1 movie1)
              end
            else
              let '(s1, movie1) :=
                store_turn s movie in_track out_track (largest_dts s)
                  (uint32 (num_consecutive_sample_skip s + 1))
                  (num_active_input_tracks s)
                  (total_media_size s) (sample_count s) (appended s) in
              Continue (move_the_next_track s1 movie1)
          end
        end
      else Continue (move_the_next_track s movie)
    end
  end.

(** How a run of the loop ends; [Running] is a run cut short by the bound
    on the number of turns. *)
Inductive run_end :=
  | Finished (s : mux_state)
  | Aborted (e : remuxer_error)
  | Faulted
  | Running (s : mux_state).

Fixpoint mux_run (turns : nat) (s : mux_state) : run_end :=
  match turns with
  | O => Running s
  | S n =>
    match mux_turn s with
    | Continue s' => mux_run n s'
    | Break s' => Finished s'
    | Abort e => Aborted e
    | Fault => Faulted
    end
  end.

(** The state at "Start muxing" (lines 422-429) for input movies as
    [get_movie] leaves them and an output movie whose tracks were created. *)
Definition start_muxing (inputs : list movie_t) (out : movie_t) (n_input : Z) : mux_state :=
  {| input := inputs;
     output := set_current_track_number out 1;
     num_input := n_input;
     largest_dts := double_zero;
     input_movie_number := 1;
     num_consecutive_sample_skip := 0;
     num_active_input_tracks := num_tracks out;
     total_media_size := 0;
     sample_count := 0;
     appended := [] |}.

(** ** The loop seen as a queue of tracks

    The cursor of the loop ([input_movie_number], the movies'
    [current_track_number] and [output.current_track_number]) walks round
    the tracks of all input movies.  For the proofs the tracks are laid out
    as a queue whose head is the track under the cursor; a turn rewrites the
    head and moves it to the back.  [mux_turn_view] below relates the two. *)

Record slot := {
  slot_number : Z;
  slot_movie : Z;
  slot_track : Z;
  slot_root : option lsmash_root_t;
  slot_in : track_t;
  slot_out : track_t
}.

Definition set_slot_tracks (sl : slot) (in_track out_track : track_t) : slot :=
  {| slot_number := slot_number sl;
     slot_movie := slot_movie sl; slot_track := slot_track sl;
     slot_root := slot_root sl; slot_in := in_track; slot_out := out_track |}.

Record rr_state := {
  queue : list slot;
  rr_largest : double;
  rr_skip : Z;
  rr_active : Z;
  rr_size : Z;
  rr_count : Z;
  rr_log : list appended_sample
}.

Inductive rr_turn_result :=
  | RContinue (q : rr_state)
  | RBreak (q : rr_state)
  | RAbort (e : remuxer_error)
  | RFault.

Definition rr_turn (q : rr_state) : rr_turn_result :=
  match queue q with
  | [] => RFault
  | sl :: rest =>
    let in_track := slot_in sl in
    let out_track := slot_out sl in
    if negb (reach_end_of_media_timeline in_track) then
      match lsmash_get_dts_from_media_timeline (slot_root sl) (track_ID in_track)
              (current_sample_number in_track) with
      | None =>
        if lsmash_check_sample_existence_in_media_timeline (slot_root sl)
             (track_ID in_track) (current_sample_number in_track)
        then RAbort Failed_to_get_the_DTS
        else
          let active := uint32 (rr_active q - 1) in
          let sl' := set_slot_tracks sl
                       (set_reach_end_of_media_timeline in_track true) out_track in
          if active =? 0
          then RBreak {| queue := sl' :: rest; rr_largest := rr_largest q;
                         rr_skip := rr_skip q; rr_active := active;
                         rr_size := rr_size q; rr_count := rr_count q;
                         rr_log := rr_log q |}
          else RContinue {| queue := rest ++ [sl']; rr_largest := rr_largest q;
                            rr_skip := rr_skip q; rr_active := active;
                            rr_size := rr_size q; rr_count := rr_count q;
                            rr_log := rr_log q |}
      | Some dts =>
        let seconds :=
          double_div (double_of_Z dts) (double_of_Z (timescale (media_param in_track))) in
        if double_le seconds (rr_largest q) || (rr_skip q =? rr_active q)
        then
          match lsmash_get_sample_from_media_timeline (slot_root sl) (track_ID in_track)
                  (current_sample_number in_track) with
          | None => RAbort Failed_to_get_sample
          | Some sample =>
            let sample_size := uint64 (sample_length sample) in
            if negb (appendable sample) then RAbort Failed_to_append_a_sample
            else
              let entry :=
                {| to_track_number := slot_number sl;
                   to_track_ID := track_ID out_track;
                   from_movie_number := slot_movie sl;
                   from_track_number := slot_track sl;
                   from_sample_number := current_sample_number in_track;
                   appended_dts := dts;
                   appended_length := sample_size |} in
              let sl' := set_slot_tracks sl
                           (set_current_sample_number in_track
                              (uint32 (current_sample_number in_track + 1)))
                           (set_current_sample_number out_track
                              (uint32 (current_sample_number out_track + 1))) in
              RContinue {| queue := rest ++ [sl'];
                           rr_largest := LSMASH_MAX (rr_largest q) seconds;
                           rr_skip := 0; rr_active := rr_active q;
                           rr_size := uint64 (rr_size q + sample_size);
                           rr_count := uint8 (rr_count q + 1);
                           rr_log := rr_log q ++ [entry] |}
          end
        else
          RContinue {| queue := rest ++ [sl]; rr_largest := rr_largest q;
                       rr_skip := uint32 (rr_skip q + 1); rr_active := rr_active q;
                       rr_size := rr_size q; rr_count := rr_count q;
                       rr_log := rr_log q |}
      end
    else
      RContinue {| queue := rest ++ [sl]; rr_largest := rr_largest q;
                   rr_skip := rr_skip q; rr_active := rr_active q;
                   rr_size := rr_size q; rr_count := rr_count q;
                   rr_log := rr_log q |}
  end.

(** The tracks of the input movies in the order of the cursor, each with
    the numbers under which the loop knows it. *)
Fixpoint slots_of_tracks (movie_number track_number : Z) (r : option lsmash_root_t)
    (ts : list track_t) : list (Z * Z * option lsmash_root_t * track_t) :=
  match ts with
  | [] => []
  | t :: ts' =>
    (movie_number, track_number, r, t)
      :: slots_of_tracks movie_number (track_number + 1) r ts'
  end.

Fixpoint slots_of_movies (movie_number : Z) (ms : list movie_t)
  : list (Z * Z * option lsmash_root_t * track_t) :=
  match ms with
  | [] => []
  | m :: ms' =>
    slots_of_tracks movie_number 1 (root m) (track m)
      ++ slots_of_movies (movie_number + 1) ms'
  end.

Fixpoint number_slots (number : Z) (outs : list track_t)
    (ins : list (Z * Z * option lsmash_root_t * track_t)) : list slot :=
  match outs, ins with
  | o :: outs', (mn, tn, r, t) :: ins' =>
    {| slot_number := number; slot_movie := mn; slot_track := tn;
       slot_root := r; slot_in := t; slot_out := o |}
      :: number_slots (number + 1) outs' ins'
  | _, _ => []
  end.

Definition slots (s : mux_state) : list slot :=
  number_slots 1 (track (output s)) (slots_of_movies 1 (input s)).

Definition cursor (s : mux_state) : nat :=
  Z.to_nat (current_track_number (output s) - 1).

Definition view (s : mux_state) : rr_state :=
  {| queue := drop (cursor s) (slots s) ++ take (cursor s) (slots s);
     rr_largest := largest_dts s;
     rr_skip := num_consecutive_sample_skip s;
     rr_active := num_active_input_tracks s;
     rr_size := total_media_size s;
     rr_count := sample_count s;
     rr_log := appended s |}.

(** Number of tracks of the movies before position [k]. *)
Definition tracks_before (ms : list movie_t) (k : nat) : nat :=
  sum_list_with (fun m => length (track m)) (take k ms).

(** The cursor is coherent: the counters are in range, only the current
    movie is in the middle of its tracks, and the output cursor points at
    the output track made for the current input track. *)
Record cursor_ok (s : mux_state) : Prop := {
  ok_num_input : num_input s = Z.of_nat (length (input s));
  ok_movies : Forall (fun m => num_tracks m = Z.of_nat (length (track m))
                               /\ 1 <= num_tracks m) (input s);
  ok_out_tracks : num_tracks (output s) = Z.of_nat (length (track (output s)));
  ok_total : length (track (output s)) = length (slots_of_movies 1 (input s));
  ok_size : num_tracks (output s) + 1 < 2 ^ 32;
  ok_movie_number : 1 <= input_movie_number s <= num_input s;
  ok_others : forall k m, input s !! k = Some m ->
                Z.of_nat k <> input_movie_number s - 1 -> current_track_number m = 1;
  ok_current : forall m, input s !! Z.to_nat (input_movie_number s - 1) = Some m ->
                 1 <= current_track_number m <= num_tracks m;
  ok_cursor : forall m, input s !! Z.to_nat (input_movie_number s - 1) = Some m ->
                current_track_number (output s)
                = Z.of_nat (tracks_before (input s) (Z.to_nat (input_movie_number s - 1)))
                  + current_track_number m
}.

(** * [set_movie_parameters]: the brands of the output movie *)

(** [a[i]] where the program is known to stay inside the array. *)
Definition array_read (a : list Z) (i : Z) : Z := default 0 (array_get a i).

(** The three parallel arrays [major_brand], [minor_version] and
    [major_brand_count] with the running [num_major_brand]. *)
Record major_brands := {
  mb_major_brand : list Z;
  mb_minor_version : list Z;
  mb_major_brand_count : list Z;
  num_major_brand : Z
}.

(** Lines 178-191: [for( int j = 0; j < num_input; j++ )], with [todo]
    the movies [input[j]], [input[j+1]], ... still to be compared. *)
Fixpoint count_major_brand (i j : Z) (todo : list movie_t) (mb : major_brands)
  : major_brands :=
  match todo with
  | [] => mb
  | input_j :: todo' =>
    let n := num_major_brand mb in
    if (array_read (mb_major_brand mb) n =? major_brand (movie_param input_j))
       && (array_read (mb_minor_version mb) n =? minor_version (movie_param input_j))
    then
      if i <=? j then
        count_major_brand i (j + 1) todo'
          {| mb_major_brand := mb_major_brand mb;
             mb_minor_version := mb_minor_version mb;
             mb_major_brand_count :=
               array_set (mb_major_brand_count mb) n
                 (uint32 (array_read (mb_major_brand_count mb) n + 1));
             num_major_brand := n |}
      else
        (* This major_brand already exists. Skip this. *)
        {| mb_major_brand := mb_major_brand mb;
           mb_minor_version := mb_minor_version mb;
           mb_major_brand_count := array_set (mb_major_brand_count mb) n 0;
           num_major_brand := uint32 (n - 1) |}
    else count_major_brand i (j + 1) todo' mb
  end.

(** Lines 173-193: [for( int i = 0; i < num_input; i++ )], with [todo] the
    movies [input[i]], [input[i+1]], ... still to be visited. *)
Fixpoint pick_major_brands (input : list movie_t) (i : Z) (todo : list movie_t)
    (mb : major_brands) : major_brands :=
  match todo with
  | [] => mb
  | input_i :: todo' =>
    let n := num_major_brand mb in
    let mb1 :=
      {| mb_major_brand := array_set (mb_major_brand mb) n (major_brand (movie_param input_i));
         mb_minor_version :=
           array_set (mb_minor_version mb) n (minor_version (movie_param input_i));
         mb_major_brand_count := array_set (mb_major_brand_count mb) n 0;
         num_major_brand := n |} in
    let mb2 := count_major_brand i 0 input mb1 in
    pick_major_brands input (i + 1) todo'
      {| mb_major_brand := mb_major_brand mb2;
         mb_minor_version := mb_minor_version mb2;
         mb_major_brand_count := mb_major_brand_count mb2;
         num_major_brand := uint32 (num_major_brand mb2 + 1) |}
  end.

(** Lines 194-201: the first entry with the largest count wins.  The
    result is [most_used_count] and the brand and version stored in the
    output's movie parameters. *)
Fixpoint most_used_major_brand (mb : major_brands) (i : Z) (turns : nat)
    (most_used_count out_major_brand out_minor_version : Z) : Z * Z * Z :=
  match turns with
  | O => (most_used_count, out_major_brand, out_minor_version)
  | S turns' =>
    if most_used_count <? array_read (mb_major_brand_count mb) i
    then most_used_major_brand mb (i + 1) turns'
           (array_read (mb_major_brand_count mb) i)
           (array_read (mb_major_brand mb) i)
           (array_read (mb_minor_version mb) i)
    else most_used_major_brand mb (i + 1) turns'
           most_used_count out_major_brand out_minor_version
  end.

(** Lines 203-210: the compatible brands of all inputs, one after the
    other; [brands[j]] is read for [j < number_of_brands]. *)
Definition input_brands_of (input : list movie_t) : list Z :=
  concat (map (fun m => take (Z.to_nat (number_of_brands (movie_param m)))
                             (brands (movie_param m))) input).

(** Lines 218-224: is [output_brands[n]] among the first [n] entries?
    [j] counts up to [n]. *)
Fixpoint brand_exists (output_brands : list Z) (n j : Z) (turns : nat) : bool :=
  match turns with
  | O => false
  | S turns' =>
    if array_read output_brands n =? array_read output_brands j then true
    else brand_exists output_brands n (j + 1) turns'
  end.

(** Lines 213-226: [todo] holds [input_brands[i]], [input_brands[i+1]], ...;
    the result is [output_brands] and [num_output_brands]. *)
Fixpoint deduplicate_brands (todo : list Z) (output_brands : list Z)
    (num_output_brands : Z) : list Z * Z :=
  match todo with
  | [] => (output_brands, num_output_brands)
  | brand :: todo' =>
    if brand =? 0 then deduplicate_brands todo' output_brands num_output_brands
    else
      let output_brands1 := array_set output_brands num_output_brands brand in
      let n1 :=
        if brand_exists output_brands1 num_output_brands 0 (Z.to_nat num_output_brands)
        then uint32 (num_output_brands - 1)   (* This brand already exists. Skip this. *)
        else num_output_brands in
      deduplicate_brands todo' output_brands1 (uint32 (n1 + 1))
  end.

(** The movie parameters that [set_movie_parameters] hands to
    [lsmash_set_movie_parameters]; [initial] is what
    [lsmash_initialize_movie_parameters] left in [output->movie_param]. *)
Definition output_movie_parameters (initial : lsmash_movie_parameters_t)
    (input : list movie_t) : lsmash_movie_parameters_t :=
  let num_input := length input in
  let mb := pick_major_brands input 0 input
              {| mb_major_brand := replicate num_input 0;
                 mb_minor_version := replicate num_input 0;
                 mb_major_brand_count := replicate num_input 0;
                 num_major_brand := 0 |} in
  let '(_, out_major, out_minor) :=
    most_used_major_brand mb 0 (Z.to_nat (num_major_brand mb)) 0
      (major_brand initial) (minor_version initial) in
  let num_input_brands :=
    foldl (fun n m => uint32 (n + number_of_brands (movie_param m))) 0 input in
  let input_brands := input_brands_of input in
  let '(output_brands, num_output_brands) :=
    deduplicate_brands input_brands (replicate (Z.to_nat num_input_brands) 0) 0 in
  {| major_brand := out_major;
     minor_version := out_minor;
     number_of_brands := num_output_brands;
     brands := take (Z.to_nat num_output_brands) output_brands;
     number_of_tracks := number_of_tracks initial |}.

(** * C strings *)

(** [strchr] and [strrchr] give the offset of the character they find;
    [None] is the NULL pointer. *)
Fixpoint strchr (s : string) (c : ascii) : option nat :=
  match s with
  | EmptyString => None
  | String a s' => if Ascii.eqb a c then Some 0%nat else S <$> strchr s' c
  end.

Fixpoint strrchr (s : string) (c : ascii) : option nat :=
  match s with
  | EmptyString => None
  | String a s' =>
    match strrchr s' c with
    | Some n => Some (S n)
    | None => if Ascii.eqb a c then Some 0%nat else None
    end
  end.

Fixpoint strstr (haystack needle : string) : option nat :=
  if String.prefix needle haystack then Some 0%nat
  else match haystack with
       | EmptyString => None
       | String _ haystack' => S <$> strstr haystack' needle
       end.

(** [s + n] for a pointer into a string. *)
Fixpoint string_from (n : nat) (s : string) : string :=
  match n, s with
  | O, _ => s
  | S n', String _ s' => string_from n' s'
  | S _, EmptyString => EmptyString
  end.

Definition is_delimiter (delim : string) (c : ascii) : bool :=
  match strchr delim c with Some _ => true | None => false end.

(** [s + strspn( s, delim )] *)
Fixpoint skip_delimiters (delim s : string) : string :=
  match s with
  | EmptyString => EmptyString
  | String c s' => if is_delimiter delim c then skip_delimiters delim s' else s
  end.

(** The token at the start of [s] and what follows the delimiter that ends
    it; no delimiter: the token runs up to the end of [s]. *)
Fixpoint split_token (delim s : string) : string * string :=
  match s with
  | EmptyString => (EmptyString, EmptyString)
  | String c s' =>
    if is_delimiter delim c then (EmptyString, s')
    else let '(token, rest) := split_token delim s' in (String c token, rest)
  end.

(** [strtok( str, delim )].  [olds] is the pointer that [strtok] keeps
    between calls; the result is the token (or NULL) and the new [olds]. *)
Definition strtok (str : option string) (delim : string) (olds : option string)
  : option string * option string :=
  match (match str with Some s => Some s | None => olds end) with
  | None => (None, None)
  | Some s =>
    match skip_delimiters delim s with
    | EmptyString => (None, Some EmptyString)
    | s1 => let '(token, rest) := split_token delim s1 in (Some token, Some rest)
    end
  end.

Definition isspace (c : ascii) : bool :=
  let n := nat_of_ascii c in (n =? 32)%nat || ((9 <=? n)%nat && (n <=? 13)%nat).

Definition digit_value (c : ascii) : option Z :=
  let n := nat_of_ascii c in
  if (48 <=? n)%nat && (n <=? 57)%nat then Some (Z.of_nat n - 48) else None.

Fixpoint skip_spaces (s : string) : string :=
  match s with
  | String c s' => if isspace c then skip_spaces s' else s
  | EmptyString => EmptyString
  end.

Fixpoint digits_value (s : string) (acc : Z) : Z :=
  match s with
  | String c s' =>
    match digit_value c with
    | Some d => digits_value s' (10 * acc + d)
    | None => acc
    end
  | EmptyString => acc
  end.

Definition LONG_MAX : Z := 2 ^ 63 - 1.
Definition LONG_MIN : Z := - 2 ^ 63.

(** [strtol( nptr, NULL, 10 )]: optional white space, an optional sign,
    then decimal digits; a value outside [long] (64 bits) is replaced by
    [LONG_MAX] or [LONG_MIN]. *)
Definition strtol (s : string) : Z :=
  match skip_spaces s with
  | String "-" s' => Z.max LONG_MIN (- digits_value s' 0)
  | String "+" s' => Z.min LONG_MAX (digits_value s' 0)
  | s' => Z.min LONG_MAX (digits_value s' 0)
  end.

(** [atoi( nptr )] is [(int) strtol( nptr, NULL, 10 )] in the C library
    that the program is built with: the [long] is cut to [int] after
    [strtol] has kept it within [long]. *)
Definition atoi (s : string) : Z := int32 (strtol s).

Definition tolower (c : ascii) : ascii :=
  let n := nat_of_ascii c in
  if (65 <=? n)%nat && (n <=? 90)%nat then ascii_of_nat (n + 32) else c.

Fixpoint string_tolower (s : string) : string :=
  match s with
  | EmptyString => EmptyString
  | String c s' => String (tolower c) (string_tolower s')
  end.

(** [!strcasecmp( a, b )] *)
Definition strcasecmp_eq (a b : string) : bool :=
  String.eqb (string_tolower a) (string_tolower b).

Fixpoint count_char (c : ascii) (s : string) : Z :=
  match s with
  | EmptyString => 0
  | String a s' => (if Ascii.eqb a c then 1 else 0) + count_char c s'
  end.

(** * Results of the fallible functions *)

(** A function returns normally, or returns -1 after messages were printed
    (oldest first), or goes outside the memory it owns. *)
Inductive result (A : Type) :=
  | Ok (a : A)
  | Failed (messages : list remuxer_error)
  | Crashed.
Arguments Ok {A} a.
Arguments Failed {A} messages.
Arguments Crashed {A}.

Global Instance result_bind : MBind result := fun A B f r =>
  match r with
  | Ok a => f a
  | Failed m => Failed m
  | Crashed => Crashed
  end.

(** [if( f( ... ) ) return ERROR_MSG( message )]: a failure of the callee
    prints one more message. *)
Definition or_fail {A : Type} (r : result A) (message : remuxer_error) : result A :=
  match r with
  | Failed m => Failed (m ++ [message])
  | _ => r
  end.

(** * [parse_track_option] *)

Record track_media_option := {
  raw_track_option : option string;
  opt_alternate_group : Z;
  opt_ISO_language : Z
}.

Definition set_opt_alternate_group (o : track_media_option) (n : Z) : track_media_option :=
  {| raw_track_option := raw_track_option o; opt_alternate_group := n;
     opt_ISO_language := opt_ISO_language o |}.

Definition set_opt_ISO_language (o : track_media_option) (n : Z) : track_media_option :=
  {| raw_track_option := raw_track_option o;
     opt_alternate_group := opt_alternate_group o; opt_ISO_language := n |}.

Definition set_raw_track_option (o : track_media_option) (raw : option string)
  : track_media_option :=
  {| raw_track_option := raw; opt_alternate_group := opt_alternate_group o;
     opt_ISO_language := opt_ISO_language o |}.

(** An update of [a[i]] through a pointer: outside the array it is a
    write to foreign memory. *)
Definition array_update {A : Type} (a : list A) (i : Z) (f : A -> A) : result (list A) :=
  match array_get a i with
  | Some x => Ok (array_set a i (f x))
  | None => Crashed
  end.

Section track_options.
(** [lsmash_pack_iso_language] belongs to the library. *)
Variable lsmash_pack_iso_language : string -> Z.

(** Lines 260-273: what one option does to [track[i]]. *)
Definition apply_track_option (track_i : list track_media_option) (track_number : Z)
    (track_option : string) : result (list track_media_option) :=
  if negb (bool_decide (strchr track_option "=" = strrchr track_option "="))
  then Failed [Multiple_equal_signs_inside_one_track_option_in track_option]
  else
    match strstr track_option "alternate-group=" with
    | Some _ =>
      match strchr track_option "=" with
      | Some eq =>
        let track_parameter := string_from (S eq) track_option in
        array_update track_i (uint32 (track_number - 1))
          (fun o => set_opt_alternate_group o (int16 (atoi track_parameter)))
      | None => Crashed
      end
    | None =>
      match strstr track_option "language=" with
      | Some _ =>
        match strchr track_option "=" with
        | Some eq =>
          let track_parameter := string_from (S eq) track_option in
          array_update track_i (uint32 (track_number - 1))
            (fun o => set_opt_ISO_language o
                        (uint16 (lsmash_pack_iso_language track_parameter)))
        | None => Crashed
        end
      | None => Failed [Unknown_track_option track_option]
      end
    end.

(** Lines 258-274: [while( (track_option = strtok( NULL, "," )) != NULL )].
    Every turn takes at least one character from [olds], so the length
    of [olds] bounds the number of turns. *)
Fixpoint apply_track_options (turns : nat) (olds : option string)
    (track_i : list track_media_option) (track_number : Z)
  : result (list track_media_option * option string) :=
  match strtok None "," olds with
  | (None, olds') => Ok (track_i, olds')
  | (Some track_option, olds') =>
    match turns with
    | O => Crashed
    | S turns' =>
      track_i' ← apply_track_option track_i track_number track_option;
      apply_track_options turns' olds' track_i' track_number
    end
  end.

(** Lines 247-274: the option string [raw] of the slot [track[i][j]].
    [strtok] ends the token that it returns in place, so from line 252
    on the string that the slot points to is the text before the colon. *)
Definition parse_raw_track_option (num_tracks : Z) (j : Z) (raw : string)
    (track_i : list track_media_option) (olds : option string)
  : result (list track_media_option * option string) :=
  match strchr raw ":" with
  | None | Some O => Failed [Track_number_is_not_specified_in raw]
  | Some (S _) =>
    if negb (bool_decide (strchr raw ":" = strrchr raw ":"))
    then Failed [Multiple_colons_inside_one_track_option_in raw]
    else
      match strtok (Some raw) ":" olds with
      | (None, _) => Crashed
      | (Some token, olds1) =>
        let track_number := uint32 (atoi token) in
        if track_number =? 0
        then Failed [Is_an_invalid_track_number_s (fst (strtok (Some token) ":" olds1))]
        else if num_tracks <? track_number
        then Failed [Is_an_invalid_track_number_d track_number]
        else
          track_i1 ← array_update track_i j
                       (fun o => set_raw_track_option o (Some token));
          apply_track_options (String.length (default EmptyString olds1)) olds1
            track_i1 track_number
      end
  end.

(** Lines 242-275: [for( uint32_t j = 0; j < io->input[i].num_tracks; j++ )] *)
Fixpoint parse_track_option_tracks (turns : nat) (j : Z) (num_tracks : Z)
    (track_i : list track_media_option) (olds : option string)
  : result (list track_media_option * option string) :=
  match turns with
  | O => Ok (track_i, olds)
  | S turns' =>
    match array_get track_i j with
    | None => Crashed
    | Some current_track_opt =>
      match raw_track_option current_track_opt with
      | None => Ok (track_i, olds)      (* break *)
      | Some raw =>
        '(track_i', olds') ← parse_raw_track_option num_tracks j raw track_i olds;
        parse_track_option_tracks turns' (j + 1) num_tracks track_i' olds'
      end
    end
  end.

(** Lines 241-276: [for( int i = 0; i < io->num_input; i++ )], with
    [todo] the movies [input[i]], ... and [done] the option arrays
    [track[0]], ..., [track[i-1]] as they are when the loop gets to [i]. *)
Fixpoint parse_track_option_movies (todo : list movie_t)
    (track : list (list track_media_option)) (olds : option string)
  : result (list (list track_media_option) * option string) :=
  match todo, track with
  | [], _ => Ok (track, olds)
  | input_i :: todo', track_i :: track' =>
    '(track_i', olds') ←
      parse_track_option_tracks (Z.to_nat (num_tracks input_i)) 0 (num_tracks input_i)
        track_i olds;
    '(track'', olds'') ← parse_track_option_movies todo' track' olds';
    Ok (track_i' :: track'', olds'')
  | _ :: _, [] => Crashed
  end.

Definition parse_track_option (input : list movie_t)
    (track_option : list (list track_media_option)) (olds : option string)
  : result (list (list track_media_option) * option string) :=
  parse_track_option_movies input track_option olds.
End track_options.

(** * The library and the system, seen from [main] *)

(** Modelled from the spec: what the library reports about one track of a
    file opened for reading.  A field is [None] (the track_ID is 0) when the
    library call that asks for it fails. *)
Record source_track := {
  src_track_ID : Z;
  src_track_param : option lsmash_track_parameters_t;
  src_media_param : option lsmash_media_parameters_t;
  src_timeline : option (list media_sample);
  src_last_sample_delta : option Z
}.

(** Modelled from the spec: a file that [open_source] can open. *)
Record source_movie := {
  src_movie_param : lsmash_movie_parameters_t;
  src_tracks : list source_track;
  src_itunes_metadata : option Z
}.

(** The calls on the output movie whose failure [main] checks for; the
    argument is the number of the input movie or of the output track. *)
Inductive lsmash_call :=
  | Set_movie_parameters
  | Import_itunes_metadata (input_number : Z)
  | Create_track (track_number : Z)
  | Set_track_parameters (track_number : Z)
  | Set_media_parameters (track_number : Z)
  | Copy_decoder_specific_info (track_number : Z)
  | Flush_pooled_samples (track_number : Z)
  | Copy_timeline_map (track_number : Z)
  | Finish_movie.

(** Modelled from the spec: the collaborators of section 6, and [malloc]. *)
Record lsmash := {
  lsmash_open_movie_read : string -> option source_movie;
  lsmash_open_movie_write : string -> bool;
  lsmash_initial_movie_parameters : lsmash_movie_parameters_t;
  lsmash_pack_iso_language : string -> Z;
  lsmash_succeeds : lsmash_call -> bool;
  malloc_succeeds : Z -> bool
}.

Definition lsmash_get_track_ID (src : source_movie) (track_number : Z) : Z :=
  match array_get (src_tracks src) (track_number - 1) with
  | Some t => src_track_ID t
  | None => 0
  end.

Definition source_track_of (src : source_movie) (id : Z) : option source_track :=
  List.find (fun t => src_track_ID t =? id) (src_tracks src).

(** The timelines that [lsmash_construct_timeline] builds, by track_ID. *)
Definition root_of (src : source_movie) : lsmash_root_t :=
  list_to_map (map (fun t => (src_track_ID t, default [] (src_timeline t))) (src_tracks src)).

Definition zero_track_parameters : lsmash_track_parameters_t :=
  {| tp_track_ID := 0; alternate_group := 0 |}.
Definition zero_media_parameters : lsmash_media_parameters_t :=
  {| handler_type := 0; timescale := 0; ISO_language := 0 |}.
Definition zero_movie_parameters : lsmash_movie_parameters_t :=
  {| major_brand := 0; minor_version := 0; number_of_brands := 0; brands := [];
     number_of_tracks := 0 |}.

(** [memset( ..., 0, ... )] of a [movie_t]. *)
Definition zero_movie : movie_t :=
  {| root := None; itunes_meta_list := None; track := [];
     movie_param := zero_movie_parameters; num_tracks := 0; current_track_number := 0 |}.

(** * [get_movie] *)

(** Lines 135-140: the track_IDs, for [i] counting up from [i]. *)
Fixpoint get_track_IDs (src : source_movie) (i : Z) (turns : nat) : result (list Z) :=
  match turns with
  | O => Ok []
  | S turns' =>
    let id := lsmash_get_track_ID src (i + 1) in
    if id =? 0 then Failed [Failed_to_get_track_ID]
    else ids ← get_track_IDs src (i + 1) turns'; Ok (id :: ids)
  end.

(** Lines 141-157: one turn fills one [track_t]. *)
Definition get_track (src : source_movie) (id : Z) : result track_t :=
  match src_itunes_metadata src with
  | None => Failed [Failed_to_get_iTunes_metadata]
  | Some _ =>
    match source_track_of src id ≫= src_track_param with
    | None => Failed [Failed_to_get_track_parameters]
    | Some tp =>
      match source_track_of src id ≫= src_media_param with
      | None => Failed [Failed_to_get_media_parameters]
      | Some mp =>
        match source_track_of src id ≫= src_timeline with
        | None => Failed [Failed_to_construct_timeline]
        | Some _ =>
          match source_track_of src id ≫= src_last_sample_delta with
          | None => Failed [Failed_to_get_the_last_sample_delta]
          | Some delta =>
            Ok {| track_ID := id; last_sample_delta := delta;
                  current_sample_number := 1;
                  reach_end_of_media_timeline := false;
                  track_param := tp; media_param := mp |}
          end
        end
      end
    end
  end.

Fixpoint get_tracks (src : source_movie) (ids : list Z) : result (list track_t) :=
  match ids with
  | [] => Ok []
  | id :: ids' =>
    t ← get_track src id; ts ← get_tracks src ids'; Ok (t :: ts)
  end.

Definition get_movie (L : lsmash) (input_name : option string) : result movie_t :=
  match input_name with
  | None => Crashed
  | Some name =>
    if String.eqb name "-" then Failed [Standard_input_not_supported]
    else
      match lsmash_open_movie_read L name with
      | None => Failed [Failed_to_open_input_file]
      | Some src =>
        let n := number_of_tracks (src_movie_param src) in
        if negb (malloc_succeeds L n) then Failed [Failed_to_alloc_input_tracks]
        else
          ids ← get_track_IDs src 0 (Z.to_nat n);
          ts ← get_tracks src ids;
          Ok {| root := Some (root_of src);
                itunes_meta_list := if 0 <? n then src_itunes_metadata src else None;
                track := ts;
                movie_param := src_movie_param src;
                num_tracks := n;
                current_track_number := 1 |}
      end
  end.

(** * [parse_cli_option] *)

Record file_option := {
  whole_track_option : option string;
  num_track_delimiter : Z
}.

(** What [parse_cli_option] works on: the parts of [io], its local
    [input_file_option] (an entry is [None] until it is assigned), its
    counter, and the pointer kept by [strtok]. *)
Record cli_state := {
  cli_input : list movie_t;
  cli_track_option : list (list track_media_option);
  cli_output_root : option lsmash_root_t;
  cli_file_option : list (option file_option);
  cli_input_movie_number : Z;
  cli_olds : option string
}.

Definition is_input_flag (arg : string) : bool :=
  strcasecmp_eq arg "-i" || strcasecmp_eq arg "--input".
Definition is_output_flag (arg : string) : bool :=
  strcasecmp_eq arg "-o" || strcasecmp_eq arg "--output".

(** [memset( track_option[...], 0, ... )] *)
Definition zero_track_option : track_media_option :=
  {| raw_track_option := None; opt_alternate_group := 0; opt_ISO_language := 0 |}.

(** Lines 285-315: [for( int i = 1; i < argc ; i++ )], with [args] the
    arguments [argv[i]], [argv[i+1]], ... *)
Fixpoint parse_cli_arguments (L : lsmash) (args : list string) (st : cli_state)
  : result cli_state :=
  match args with
  | [] => Ok st
  | arg :: rest =>
    if is_input_flag arg then
      match rest with
      | [] => Failed [Input_requires_an_argument]
      | name :: rest' =>
        let n := cli_input_movie_number st in
        let delimiters := count_char "?" name in
        let '(token, olds1) := strtok (Some name) "?" (cli_olds st) in
        movie ← or_fail (get_movie L token) Failed_to_get_input_movie;
        if negb (malloc_succeeds L (num_tracks movie))
        then Failed [Could_not_allocate_memory]
        else
          let '(whole, olds2) := strtok None EmptyString olds1 in
          parse_cli_arguments L rest'
            {| cli_input := array_set (cli_input st) n movie;
               cli_track_option :=
                 array_set (cli_track_option st) n
                   (replicate (Z.to_nat (num_tracks movie)) zero_track_option);
               cli_output_root := cli_output_root st;
               cli_file_option :=
                 array_set (cli_file_option st) n
                   (Some {| whole_track_option := whole;
                            num_track_delimiter := delimiters |});
               cli_input_movie_number := n + 1;
               cli_olds := olds2 |}
      end
    else if is_output_flag arg then
      match rest with
      | [] => Failed [Output_requires_an_argument]
      | name :: rest' =>
        parse_cli_arguments L rest'
          {| cli_input := cli_input st;
             cli_track_option := cli_track_option st;
             cli_output_root :=
               if lsmash_open_movie_write L name then Some ∅ else None;
             cli_file_option := cli_file_option st;
             cli_input_movie_number := cli_input_movie_number st;
             cli_olds := cli_olds st |}
      end
    else Failed [Unkown_option_found arg]
  end.

(** Lines 318-324: the options start from the parameters of the inputs. *)
Definition default_track_options (movie : movie_t) (track_i : list track_media_option)
  : list track_media_option :=
  zip_with (fun in_track o =>
              {| raw_track_option := raw_track_option o;
                 opt_alternate_group := int16 (alternate_group (track_param in_track));
                 opt_ISO_language := uint16 (ISO_language (media_param in_track)) |})
    (track movie) track_i.

(** Lines 333-334: [for( int j = 1; j < num_track_delimiter; j++ )] *)
Fixpoint assign_raw_track_options (turns : nat) (j : Z)
    (track_i : list track_media_option) (olds : option string)
  : result (list track_media_option * option string) :=
  match turns with
  | O => Ok (track_i, olds)
  | S turns' =>
    let '(token, olds') := strtok None "?" olds in
    track_i' ← array_update track_i j (fun o => set_raw_track_option o token);
    assign_raw_track_options turns' (j + 1) track_i' olds'
  end.

(** Lines 326-336, for the input in position [i]. *)
Definition split_track_options (movie : movie_t) (fo : option file_option)
    (track_i : list track_media_option) (olds : option string)
  : result (list track_media_option * option string) :=
  match fo with
  | None => Crashed
  | Some fo =>
    if num_tracks movie <? uint32 (num_track_delimiter fo)
    then Failed [More_track_options_specified_than_tracks (num_tracks movie)]
    else if num_track_delimiter fo =? 0 then Ok (track_i, olds)
    else
      let '(token, olds1) := strtok (whole_track_option fo) "?" olds in
      track_i1 ← array_update track_i 0 (fun o => set_raw_track_option o token);
      assign_raw_track_options (Z.to_nat (num_track_delimiter fo - 1)) 1 track_i1 olds1
  end.

Fixpoint split_all_track_options (input : list movie_t)
    (file_options : list (option file_option))
    (track_option : list (list track_media_option)) (olds : option string)
  : result (list (list track_media_option) * option string) :=
  match input, file_options, track_option with
  | [], _, _ => Ok ([], olds)
  | movie :: input', fo :: file_options', track_i :: track_option' =>
    '(track_i', olds') ← split_track_options movie fo track_i olds;
    '(rest, olds'') ← split_all_track_options input' file_options' track_option' olds';
    Ok (track_i' :: rest, olds'')
  | _, _, _ => Crashed
  end.

Definition parse_cli_option (L : lsmash) (argv : list string) (num_input : Z)
  : result cli_state :=
  st ← parse_cli_arguments L (tail argv)
         {| cli_input := replicate (Z.to_nat num_input) zero_movie;
            cli_track_option := replicate (Z.to_nat num_input) [];
            cli_output_root := None;
            cli_file_option := replicate (Z.to_nat num_input) None;
            cli_input_movie_number := 0;
            cli_olds := None |};
  let defaults := zip_with default_track_options (cli_input st) (cli_track_option st) in
  '(raws, olds) ← split_all_track_options (cli_input st) (cli_file_option st)
                     defaults (cli_olds st);
  '(options, olds') ← or_fail (parse_track_option (lsmash_pack_iso_language L)
                                 (cli_input st) raws olds)
                         Failed_to_parse_track_options;
  Ok {| cli_input := cli_input st;
        cli_track_option := options;
        cli_output_root := cli_output_root st;
        cli_file_option := cli_file_option st;
        cli_input_movie_number := cli_input_movie_number st;
        cli_olds := olds' |}.

(** * [main] up to "Start muxing" *)

(** Lines 393-418 for one input track: the output track made for it.
    [n] is [output.current_track_number]; the library numbers the tracks it
    creates from 1 (modelled from the spec: a fresh identifier). *)
Definition create_output_track (L : lsmash) (n : Z) (in_track : track_t)
    (option : track_media_option) : result track_t :=
  let out_track_ID := if lsmash_succeeds L (Create_track n) then n else 0 in
  if out_track_ID =? 0 then Failed [Failed_to_create_a_track]
  else if negb (lsmash_succeeds L (Set_track_parameters n))
  then Failed [Failed_to_set_track_parameters]
  else if negb (lsmash_succeeds L (Set_media_parameters n))
  then Failed [Failed_to_set_media_parameters]
  else if negb (lsmash_succeeds L (Copy_decoder_specific_info n))
  then Failed [Failed_to_copy_a_Decoder_Specific_Info]
  else
    Ok {| track_ID := out_track_ID;
          last_sample_delta := last_sample_delta in_track;
          current_sample_number := 1;
          reach_end_of_media_timeline := false;
          track_param :=
            {| tp_track_ID := out_track_ID;
               alternate_group := opt_alternate_group option |};
          media_param :=
            {| handler_type := handler_type (media_param in_track);
               timescale := timescale (media_param in_track);
               ISO_language := opt_ISO_language option |} |}.

(** Lines 393-418: [for( uint32_t j = 0; j < input[i].num_tracks; j++ )],
    with [outs] the output tracks created so far. *)
Fixpoint create_output_tracks_of (L : lsmash) (in_tracks : list track_t)
    (options : list track_media_option) (outs : list track_t) : result (list track_t) :=
  match in_tracks with
  | [] => Ok outs
  | in_track :: in_tracks' =>
    match options with
    | [] => Crashed
    | option :: options' =>
      out_track ← create_output_track L (Z.of_nat (length outs) + 1) in_track option;
      create_output_tracks_of L in_tracks' options' (outs ++ [out_track])
    end
  end.

(** Lines 391-421: [for( int i = 0; i < num_input; i++ )] *)
Fixpoint create_output_tracks (L : lsmash) (input : list movie_t)
    (track_option : list (list track_media_option)) (outs : list track_t)
  : result (list track_t) :=
  match input with
  | [] => Ok outs
  | movie :: input' =>
    outs' ← create_output_tracks_of L (track movie) (default [] (head track_option)) outs;
    create_output_tracks L input' (tail track_option) outs'
  end.

(** Lines 381-383: the iTunes metadata of every input goes to the output. *)
Fixpoint import_itunes_metadata (L : lsmash) (i : Z) (turns : nat) : bool :=
  match turns with
  | O => true
  | S turns' =>
    lsmash_succeeds L (Import_itunes_metadata i) && import_itunes_metadata L (i + 1) turns'
  end.

(** How the part of [main] before the loop ends: the process exits with a
    status after printing messages, or the loop starts, or the program
    went outside its memory. *)
Inductive setup :=
  | Exit (status : Z) (messages : list remuxer_error)
  | Start_muxing (s : mux_state)
  | Setup_crashed.

(** [REMUXER_ERR( message )] after a callee printed [messages]. *)
Definition REMUXER_ERR (messages : list remuxer_error) (message : remuxer_error) : setup :=
  Exit (-1) (messages ++ [message]).

(** Lines 354-429. *)
Definition main_setup (L : lsmash) (argv : list string) : setup :=
  let argc := Z.of_nat (length argv) in
  if (argc <? 5)
     || strcasecmp_eq (default EmptyString (argv !! 1%nat)) "-h"
     || strcasecmp_eq (default EmptyString (argv !! 1%nat)) "--help"
  then Exit (if argc <? 5 then -1 else 0) []
  else
    let num_input := Z.of_nat (length (filter (fun a => is_input_flag a = true) (tail argv))) in
    if num_input =? 0 then REMUXER_ERR [] No_input_file_specified
    else
      match parse_cli_option L argv num_input with
      | Crashed => Setup_crashed
      | Failed messages => REMUXER_ERR messages Failed_to_parse_command_line_options
      | Ok io =>
        match cli_output_root io with
        | None => REMUXER_ERR [] Failed_to_open_output_movie
        | Some output_root =>
          let input := cli_input io in
          let out_param :=
            output_movie_parameters (lsmash_initial_movie_parameters L) input in
          if negb (lsmash_succeeds L Set_movie_parameters)
          then REMUXER_ERR [] Failed_to_set_output_movie_parameters
          else if negb (import_itunes_metadata L 0 (Z.to_nat num_input))
          then REMUXER_ERR [] Failed_to_set_iTunes_metadata
          else
            let out_num_tracks := foldl (fun n m => uint32 (n + num_tracks m)) 0 input in
            if negb (malloc_succeeds L out_num_tracks)
            then REMUXER_ERR [] Failed_to_alloc_output_tracks
            else
              match create_output_tracks L input (cli_track_option io) [] with
              | Crashed => Setup_crashed
              | Failed messages => Exit (-1) messages
              | Ok outs =>
                Start_muxing
                  (start_muxing input
                     {| root := Some output_root; itunes_meta_list := None;
                        track := outs; movie_param := out_param;
                        num_tracks := out_num_tracks;
                        current_track_number := Z.of_nat (length outs) + 1 |}
                     num_input)
              end
        end
      end.

(** * [main] after the loop *)

(** Lines 495-506: flush every output track, then copy the timeline maps. *)
Fixpoint all_succeed (L : lsmash) (call : Z -> lsmash_call) (n : Z) (turns : nat) : bool :=
  match turns with
  | O => true
  | S turns' => lsmash_succeeds L (call n) && all_succeed L call (n + 1) turns'
  end.

(** Lines 495-519: the exit status of a run whose loop was left. *)
Definition finish_muxing (L : lsmash) (s : mux_state) : Z * list remuxer_error :=
  let n := Z.to_nat (num_tracks (output s)) in
  if negb (all_succeed L Flush_pooled_samples 1 n) then (-1, [Failed_to_flush_samples])
  else if negb (all_succeed L Copy_timeline_map 1 n) then (-1, [Failed_to_copy_a_timeline_map])
  else if negb (lsmash_succeeds L Finish_movie) then (-1, [Failed_to_finish_output_movie])
  else (0, []).

(** How a run of [main] ends; [Still_muxing] is a run cut short by the
    bound on the number of turns of the loop. *)
Inductive run_of_main :=
  | Exited (status : Z) (messages : list remuxer_error)
  | Main_crashed
  | Still_muxing (s : mux_state).

Definition main (L : lsmash) (turns : nat) (argv : list string) : run_of_main :=
  match main_setup L argv with
  | Exit status messages => Exited status messages
  | Setup_crashed => Main_crashed
  | Start_muxing s =>
    match mux_run turns s with
    | Finished s' => let '(status, messages) := finish_muxing L s' in Exited status messages
    | Aborted e => Exited (-1) [e]
    | Faulted => Main_crashed
    | Running s' => Still_muxing s'
    end
  end.

(** * The queue of tracks: what is left to do *)

Definition live (sl : slot) : bool :=
  negb (reach_end_of_media_timeline (slot_in sl)).

Definition slot_timeline (sl : slot) : list media_sample :=
  media_timeline (slot_root sl) (track_ID (slot_in sl)).

Definition slot_entry (sl : slot) : option media_sample :=
  timeline_entry (slot_root sl) (track_ID (slot_in sl))
    (current_sample_number (slot_in sl)).

(** A settled track is one that the loop will not mark as ended when it
    visits it next: it is marked already, or it has a sample to offer. *)
Definition settled (sl : slot) : bool :=
  negb (live sl) || match slot_entry sl with Some _ => true | None => false end.

Fixpoint count_live (l : list slot) : nat :=
  match l with
  | [] => 0%nat
  | sl :: l' => ((if live sl then 1 else 0) + count_live l')%nat
  end.

(** The tracks in [win], at the back of the queue, are those visited since
    the last append; the skip counter counts the live ones among them. *)
Record window_ok (q : rr_state) (pre win : list slot) : Prop := {
  win_queue : queue q = pre ++ win;
  win_settled : Forall (fun sl => settled sl = true) win;
  win_skip : rr_skip q = Z.of_nat (count_live win);
  win_active : rr_active q = Z.of_nat (count_live (queue q));
  win_size : Z.of_nat (length (queue q)) < 2 ^ 32;
  win_timelines : Forall (fun sl => Z.of_nat (length (slot_timeline sl)) + 1 < 2 ^ 32) (queue q)
}.

(** Samples of a track still to be appended. *)
Definition remaining (sl : slot) : nat :=
  Z.to_nat (Z.of_nat (length (slot_timeline sl)) + 1 - current_sample_number (slot_in sl)).

Fixpoint work (l : list slot) : nat :=
  match l with
  | [] => 0%nat
  | sl :: l' => (remaining sl + (if live sl then 1 else 0) + work l')%nat
  end.

Fixpoint idle_prefix (l : list slot) : nat :=
  match l with
  | [] => 0%nat
  | sl :: l' => if live sl then 0%nat else S (idle_prefix l')
  end.

Definition idle (q : rr_state) (pre : list slot) : nat :=
  match pre with
  | [] => idle_prefix (queue q)
  | _ => (length pre + length (queue q))%nat
  end.

Definition measure (q : rr_state) (pre : list slot) : nat :=
  (work (queue q) * (2 * length (queue q) + 1) + idle q pre)%nat.

(** * The cursor *)

(** What the cursor points at. *)
Record at_cursor (s : mux_state) (movie : movie_t) (in_track out_track : track_t) : Prop := {
  cur_movie : input s !! Z.to_nat (input_movie_number s - 1) = Some movie;
  cur_in : track movie !! Z.to_nat (current_track_number movie - 1) = Some in_track;
  cur_out : track (output s) !! cursor s = Some out_track;
  cur_pos : cursor s
            = (tracks_before (input s) (Z.to_nat (input_movie_number s - 1))
               + Z.to_nat (current_track_number movie - 1))%nat;
  cur_track_range : 1 <= current_track_number movie <= num_tracks movie;
  cur_tracks : num_tracks movie = Z.of_nat (length (track movie));
  cur_fits : (tracks_before (input s) (Z.to_nat (input_movie_number s - 1))
              + length (track movie) <= length (track (output s)))%nat;
  cur_movies_fit : (length (input s) <= length (track (output s)))%nat
}.

(** The slot of the queue that the cursor points at. *)
Definition slot_at (s : mux_state) (movie : movie_t) (in_track out_track : track_t) : slot :=
  {| slot_number := current_track_number (output s);
     slot_movie := input_movie_number s;
     slot_track := current_track_number movie;
     slot_root := root movie;
     slot_in := in_track;
     slot_out := out_track |}.

(** * The log of appended samples and the start of the loop *)

(** The sample numbers appended to one output track, in the order of
    appending. *)
Definition samples_to (number : Z) (log : list appended_sample) : list Z :=
  from_sample_number <$> filter (fun a => to_track_number a = number) log.

(** An appended sample that came from the track in slot [sl]: it went to
    the slot's output track and carries what the timeline has under its
    sample number. *)
Definition entry_from (sl : slot) (a : appended_sample) : Prop :=
  to_track_ID a = track_ID (slot_out sl)
  /\ from_movie_number a = slot_movie sl
  /\ from_track_number a = slot_track sl
  /\ exists e, timeline_entry (slot_root sl) (track_ID (slot_in sl)) (from_sample_number a)
               = Some e
               /\ appended_dts a = uint64 (sample_dts e)
               /\ appended_length a = uint64 (sample_length e).

Record slot_log_ok (log : list appended_sample) (sl : slot) : Prop := {
  sl_samples : samples_to (slot_number sl) log
               = seqZ 1 (current_sample_number (slot_in sl) - 1);
  sl_range : 1 <= current_sample_number (slot_in sl)
             <= Z.of_nat (length (slot_timeline sl)) + 1;
  sl_out : current_sample_number (slot_out sl) = current_sample_number (slot_in sl);
  sl_ended : reach_end_of_media_timeline (slot_in sl) = true ->
             current_sample_number (slot_in sl) = Z.of_nat (length (slot_timeline sl)) + 1;
  sl_entries : Forall (fun a => to_track_number a = slot_number sl -> entry_from sl a) log
}.

Record log_ok (l : list slot) (log : list appended_sample) : Prop := {
  log_numbers : NoDup (slot_number <$> l);
  log_slots : Forall (slot_log_ok log) l;
  log_known : Forall (fun a => to_track_number a ∈ slot_number <$> l) log
}.

(** ** The state at "Start muxing" *)

Definition fresh_track (r : option lsmash_root_t) (t : track_t) : bool :=
  (current_sample_number t =? 1)
  && negb (reach_end_of_media_timeline t)
  && (Z.of_nat (length (media_timeline r (track_ID t))) + 1 <? 2 ^ 32).

Definition fresh_movie (m : movie_t) : bool :=
  (num_tracks m =? Z.of_nat (length (track m)))
  && (1 <=? num_tracks m)
  && (current_track_number m =? 1)
  && forallb (fresh_track (root m)) (track m).

Definition total_tracks (ms : list movie_t) : Z :=
  foldr (fun m n => num_tracks m + n) 0 ms.

(** The loop starts from input movies as [get_movie] leaves them (every
    cursor at 1, no track ended), each with at least one track, and an
    output movie with one fresh track per input track; the counters have
    the values of lines 422-429.  The sizes fit their C types: fewer than
    2^32 - 1 tracks in all and fewer than 2^32 - 1 samples per track. *)
Definition at_start_muxing (s : mux_state) : bool :=
  (num_input s =? Z.of_nat (length (input s)))
  && (1 <=? num_input s)
  && forallb fresh_movie (input s)
  && (num_tracks (output s) =? Z.of_nat (length (track (output s))))
  && (num_tracks (output s) =? total_tracks (input s))
  && (num_tracks (output s) + 1 <? 2 ^ 32)
  && forallb (fun o => current_sample_number o =? 1) (track (output s))
  && (current_track_number (output s) =? 1)
  && (input_movie_number s =? 1)
  && (num_consecutive_sample_skip s =? 0)
  && (num_active_input_tracks s =? num_tracks (output s))
  && match largest_dts s with S754_zero false => true | _ => false end
  && match appended s with [] => true | _ => false end.

(** What holds in every state of a run. *)
Record mux_inv (s : mux_state) : Prop := {
  inv_cursor : cursor_ok s;
  inv_window : exists pre win, window_ok (view s) pre win;
  inv_log : log_ok (queue (view s)) (appended s)
}.

(** * Runs of the loop *)

(** The states in which the loop goes round: the start and every state
    that a turn leaves through "Move the next track". *)
Inductive mux_running (s0 : mux_state) : mux_state -> Prop :=
  | running_start : mux_running s0 s0
  | running_turn s s' :
      mux_running s0 s -> mux_turn s = Continue s' -> mux_running s0 s'.

(** The states of a run: those in which the loop goes round, and the state
    in which it is left through [break]. *)
Definition mux_reach (s0 s : mux_state) : Prop :=
  mux_running s0 s \/ exists s1, mux_running s0 s1 /\ mux_turn s1 = Break s.

(** Every library call on the samples of the input movies succeeds. *)
Definition sample_ok (e : media_sample) : bool :=
  dts_readable e && fetchable e && appendable e.

Definition library_ok (s : mux_state) : bool :=
  forallb (fun m => forallb (fun t => forallb sample_ok (media_timeline (root m) (track_ID t)))
                      (track m)) (input s).

(** * Observations of a run *)

(** ** Runs as sequences of states *)


(** The state in which a run is after [turns] turns, or in which it left
    the loop before; [s] itself if the run was given up. *)
Definition state_after (turns : nat) (s : mux_state) : mux_state :=
  match mux_run turns s with
  | Running s' | Finished s' => s'
  | _ => s
  end.




(** ** Two sources with one track each *)

Definition sample_at (dts : Z) : media_sample :=
  {| sample_dts := dts; sample_length := 1; dts_readable := true; fetchable := true;
     appendable := true |}.

Definition one_track (id ts : Z) : track_t :=
  {| track_ID := id; last_sample_delta := 1; current_sample_number := 1;
     reach_end_of_media_timeline := false;
     track_param := {| tp_track_ID := id; alternate_group := 0 |};
     media_param := {| handler_type := 0; timescale := ts; ISO_language := 0 |} |}.

Definition one_track_movie (ts : Z) (dts : list Z) : movie_t :=
  {| root := Some {[ 1 := sample_at <$> dts ]}; itunes_meta_list := Some 0;
     track := [one_track 1 ts]; movie_param := zero_movie_parameters;
     num_tracks := 1; current_track_number := 1 |}.

(** The loop at "Start muxing" for two sources of one track each, with the
    same timescale and the given decode timestamps. *)
Definition two_sources (ts : Z) (dts1 dts2 : list Z) : mux_state :=
  start_muxing [one_track_movie ts dts1; one_track_movie ts dts2]
    {| root := Some ∅; itunes_meta_list := None;
       track := [one_track 1 ts; one_track 2 ts];
       movie_param := zero_movie_parameters; num_tracks := 2;
       current_track_number := 3 |} 2.

(** A transfer as the scenario of the spec writes it: source, sample
    number, decode timestamp. *)
Definition transfers (s : mux_state) : list (Z * Z * Z) :=
  (fun a => (from_movie_number a, from_sample_number a, appended_dts a)) <$> appended s.

(** Every sample of every track of the queue can be read, fetched and
    appended. *)
Definition slots_ok (q : rr_state) : Prop :=
  Forall (fun sl => Forall (fun e => sample_ok e = true) (slot_timeline sl)) (queue q).

(** * Timescales *)

(** Every input track has a timescale that is positive and fits
    [uint32_t]. *)
Definition positive_timescales (s : mux_state) : bool :=
  forallb (fun m => forallb (fun t => (0 <? timescale (media_param t))
                                      && (timescale (media_param t) <? 2 ^ 32))
                      (track m)) (input s).

(** The input track under the cursor: [in_track] of lines 432-433. *)
Definition current_in_track (s : mux_state) : option track_t :=
  movie ← array_get (input s) (uint32 (input_movie_number s - 1));
  array_get (track movie) (uint32 (current_track_number movie - 1)).

Definition timescales_ok (q : rr_state) : Prop :=
  Forall (fun sl => 0 < timescale (media_param (slot_in sl)) < 2 ^ 32) (queue q).

(** * The order of the three timestamps of the scenario *)

(** [0 < f1 < f2], in terms of the two comparisons that the loop makes. *)
Record scenario_order (f1 f2 : double) : Prop := {
  le_0_1 : double_le double_zero f1 = true;
  le_0_2 : double_le double_zero f2 = true;
  le_1_0 : double_le f1 double_zero = false;
  le_1_1 : double_le f1 f1 = true;
  le_1_2 : double_le f1 f2 = true;
  le_2_0 : double_le f2 double_zero = false;
  le_2_1 : double_le f2 f1 = false;
  le_2_2 : double_le f2 f2 = true;
  gt_0_1 : double_gt double_zero f1 = false;
  gt_0_2 : double_gt double_zero f2 = false;
  gt_1_0 : double_gt f1 double_zero = true;
  gt_1_1 : double_gt f1 f1 = false;
  gt_1_2 : double_gt f1 f2 = false;
  gt_2_0 : double_gt f2 double_zero = true;
  gt_2_1 : double_gt f2 f1 = true;
  gt_2_2 : double_gt f2 f2 = false
}.

(** * Brands: what the output should carry *)

(** A list without its repetitions, every element at the place where it is
    seen first. *)
Definition see `{EqDecision A} (seen : list A) (x : A) : list A :=
  if decide (x ∈ seen) then seen else seen ++ [x].

Definition first_seen `{EqDecision A} (l : list A) : list A := foldl see [] l.

(** The compatible brands of all sources, in source order. *)
Definition compatible_brands (input : list movie_t) : list Z :=
  concat ((fun m => brands (movie_param m)) <$> input).

(** A source that only has brands. *)
Definition source_of_brands (major minor : Z) (compatible : list Z) : movie_t :=
  {| root := None; itunes_meta_list := None; track := [];
     movie_param :=
       {| major_brand := major; minor_version := minor;
          number_of_brands := Z.of_nat (length compatible); brands := compatible;
          number_of_tracks := 0 |};
     num_tracks := 0; current_track_number := 0 |}.

(** Every source has as many compatible brands as it says. *)
Definition brands_ok (input : list movie_t) : Prop :=
  Forall (fun m => number_of_brands (movie_param m)
                   = Z.of_nat (length (brands (movie_param m)))) input.

(** * The table of major brands *)

(** The pair by which the sources are grouped, and the size of a group. *)
Definition brand_key (m : movie_t) : Z * Z :=
  (major_brand (movie_param m), minor_version (movie_param m)).

Definition key_count (input : list movie_t) (k : Z * Z) : nat :=
  length (filter (fun m => brand_key m = k) input).

(** The table of the first [length ks] entries of the three arrays: the
    keys [ks], each with the size of its group over all of [input]. *)
Record table_ok (input : list movie_t) (ks : list (Z * Z)) (mb : major_brands) : Prop := {
  table_num : num_major_brand mb = Z.of_nat (length ks);
  table_major : length (mb_major_brand mb) = length input;
  table_minor : length (mb_minor_version mb) = length input;
  table_count : length (mb_major_brand_count mb) = length input;
  table_entries : forall p k,
    ks !! p = Some k ->
    mb_major_brand mb !! p = Some k.1
    /\ mb_minor_version mb !! p = Some k.2
    /\ mb_major_brand_count mb !! p = Some (Z.of_nat (key_count input k))
}.

(** [count] is the largest count among the entries before [i], and it
    belongs to the first entry that has it. *)
Definition best_so_far (mb : major_brands) (i count major minor : Z) : Prop :=
  (forall q, 0 <= q < i -> array_read (mb_major_brand_count mb) q <= count)
  /\ ((count = 0)
      \/ exists p, 0 <= p < i
           /\ array_read (mb_major_brand_count mb) p = count
           /\ array_read (mb_major_brand mb) p = major
           /\ array_read (mb_minor_version mb) p = minor
           /\ forall q, 0 <= q < p -> array_read (mb_major_brand_count mb) q < count).

(** The entry under construction holds the key [K]. *)
Definition holds_key (K : Z * Z) (mb : major_brands) : Prop :=
  array_read (mb_major_brand mb) (num_major_brand mb) = K.1
  /\ array_read (mb_minor_version mb) (num_major_brand mb) = K.2.

(** * Track options *)

(** A track option slot as [parse_cli_option] hands it over. *)
Definition track_option_of (raw : option string) (group language : Z) : track_media_option :=
  {| raw_track_option := raw; opt_alternate_group := group; opt_ISO_language := language |}.

(** * Command lines *)

(** ** A library for the examples *)

(** A track with the given decode timestamps whose every call succeeds. *)
Definition source_track_of_timeline (id : Z) (dts : list Z) : source_track :=
  {| src_track_ID := id;
     src_track_param := Some {| tp_track_ID := id; alternate_group := 0 |};
     src_media_param := Some {| handler_type := 0; timescale := 1000; ISO_language := 0 |};
     src_timeline := Some (sample_at <$> dts);
     src_last_sample_delta := Some 1 |}.

Definition source_of_timelines (timelines : list (list Z)) : source_movie :=
  {| src_movie_param :=
       {| major_brand := 1; minor_version := 0; number_of_brands := 0; brands := [];
          number_of_tracks := Z.of_nat (length timelines) |};
     src_tracks := imap (fun i dts => source_track_of_timeline (Z.of_nat i + 1) dts) timelines;
     src_itunes_metadata := Some 0 |}.

(** The library when the given files can be read, every file can be
    written, and no call fails. *)
Definition library_of (files : list (string * source_movie)) : lsmash :=
  {| lsmash_open_movie_read :=
       fun name => snd <$> List.find (fun f => String.eqb (fst f) name) files;
     lsmash_open_movie_write := fun _ => true;
     lsmash_initial_movie_parameters := zero_movie_parameters;
     lsmash_pack_iso_language := fun _ => 0;
     lsmash_succeeds := fun _ => true;
     malloc_succeeds := fun _ => true |}.

(** The first test of [main], line 356. *)
Definition help_requested (argv : list string) : bool :=
  strcasecmp_eq (default EmptyString (argv !! 1%nat)) "-h"
  || strcasecmp_eq (default EmptyString (argv !! 1%nat)) "--help".

(** [num_input] as [main] counts it, lines 361-364. *)
Definition count_input_flags (argv : list string) : Z :=
  Z.of_nat (length (filter (fun a => is_input_flag a = true) (tail argv))).

(** The state in which [parse_cli_option] enters its first loop. *)
Definition cli_start (num_input : Z) : cli_state :=
  {| cli_input := replicate (Z.to_nat num_input) zero_movie;
     cli_track_option := replicate (Z.to_nat num_input) [];
     cli_output_root := None;
     cli_file_option := replicate (Z.to_nat num_input) None;
     cli_input_movie_number := 0;
     cli_olds := None |}.

(** The options of a source of three tracks that got one option string:
    the string is in the first slot. *)
Definition one_raw_option (g1 l1 g2 l2 : Z) (o3 : track_media_option) (raw : string)
  : list (list track_media_option) :=
  [[track_option_of (Some raw) g1 l1; track_option_of None g2 l2; o3]].

(** * Runs to the end *)

(** ** The size of a run *)

(** The samples of all tracks of all input movies. *)
Definition track_samples (m : movie_t) (t : track_t) : nat :=
  length (media_timeline (root m) (track_ID t)).

Definition total_samples (s : mux_state) : nat :=
  sum_list_with (fun m => sum_list_with (track_samples m) (track m)) (input s).

(** A number of turns that is enough for every run from [s]. *)
Definition turn_bound (s : mux_state) : nat :=
  let tracks := length (track (output s)) in
  ((total_samples s + tracks) * (2 * tracks + 1) + 2 * tracks + 1)%nat.

(** The samples of the tracks in a queue. *)
Definition queue_samples (l : list slot) : nat :=
  sum_list_with (fun sl => length (slot_timeline sl)) l.

(** The bytes of the samples in a log. *)
Definition appended_bytes (log : list appended_sample) : Z :=
  foldr (fun a n => appended_length a + n) 0 log.

(** The loop has come to an end. *)
Definition ended (r : run_end) : bool :=
  match r with Finished _ | Aborted _ => true | _ => false end.

(** * The set-up of [main] *)

(** ** What [main] hands to the loop *)

(** The input movies have tracks, and the sizes fit the counters of the
    loop: every movie has a track, a track has fewer than 2^32 - 1 samples,
    and there are fewer than 2^32 - 1 tracks in all. *)
Definition sources_fit (s : mux_state) : bool :=
  forallb (fun m => (1 <=? num_tracks m)
                    && forallb (fun t => Z.of_nat (track_samples m t) + 1 <? 2 ^ 32) (track m))
    (input s)
  && (total_tracks (input s) + 1 <? 2 ^ 32).

(** A movie as [get_movie] leaves it. *)
Record got_movie (L : lsmash) (file : string) (src : source_movie) (m : movie_t) : Prop := {
  got_name : file <> "-"%string;
  got_open : lsmash_open_movie_read L file = Some src;
  got_root : root m = Some (root_of src);
  got_param : movie_param m = src_movie_param src;
  got_num_tracks : num_tracks m = number_of_tracks (src_movie_param src);
  got_length : length (track m) = Z.to_nat (num_tracks m);
  got_cursor : current_track_number m = 1;
  got_tracks : forall i t, track m !! i = Some t ->
    track_ID t = lsmash_get_track_ID src (Z.of_nat i + 1)
    /\ track_ID t <> 0
    /\ current_sample_number t = 1
    /\ reach_end_of_media_timeline t = false
    /\ source_track_of src (track_ID t) ≫= src_track_param = Some (track_param t)
    /\ source_track_of src (track_ID t) ≫= src_media_param = Some (media_param t)
    /\ source_track_of src (track_ID t) ≫= src_last_sample_delta
       = Some (last_sample_delta t)
}.

(** The state in which the loop starts, if [main] gets that far. *)
Definition started (r : setup) : mux_state :=
  match r with
  | Start_muxing s => s
  | _ => start_muxing [] zero_movie 0
  end.

(** * The slots of the track options *)

(** ** What an option string may change *)

(** [l'] is [l] but for the entry at [idx]. *)
Definition same_but (idx : nat) (l l' : list track_media_option) : Prop :=
  length l' = length l /\ forall k, k <> idx -> l' !! k = l !! k.

(** ** Option strings on the command line *)


(** The slots with the option strings [ps] in the first places. *)
Fixpoint with_raws (ps : list string) (track_i : list track_media_option)
  : list track_media_option :=
  match ps, track_i with
  | p :: ps', o :: track_i' => set_raw_track_option o (Some p) :: with_raws ps' track_i'
  | _, _ => track_i
  end.


(** * The sources of a run *)

(** ** What the loop only reads *)

(** For every input movie its handle and the IDs of its tracks: they say
    which timeline of the library a track stands for. *)
Definition source_of (m : movie_t) : option lsmash_root_t * list Z :=
  (root m, track_ID <$> track m).

Definition sources (s : mux_state) : list (option lsmash_root_t * list Z) :=
  source_of <$> input s.

(** * Progress of the queue *)

Lemma count_live_app l1 l2 :
  count_live (l1 ++ l2) = (count_live l1 + count_live l2)%nat.
Proof. induction l1 as [|sl l1 IH]; simpl; [done|]. rewrite IH. lia. Qed.

Lemma work_app l1 l2 : work (l1 ++ l2) = (work l1 + work l2)%nat.
Proof. induction l1 as [|sl l1 IH]; simpl; [done|]. rewrite IH. lia. Qed.

Lemma idle_prefix_le l : (idle_prefix l <= length l)%nat.
Proof. induction l as [|sl l IH]; simpl; [lia|]. destruct (live sl); simpl; lia. Qed.

Lemma idle_prefix_snoc l sl :
  (1 <= count_live l)%nat -> idle_prefix (l ++ [sl]) = idle_prefix l.
Proof.
  induction l as [|x l IH]; simpl; [lia|].
  destruct (live x); [done|]. intros H. f_equal. apply IH. lia.
Qed.

Lemma timeline_entry_Some r id n e :
  timeline_entry r id n = Some e ->
  1 <= n <= Z.of_nat (length (media_timeline r id)).
Proof.
  unfold timeline_entry. destruct (n <? 1) eqn:Hn; [done|].
  intros H%lookup_lt_Some. lia.
Qed.

Lemma timeline_entry_None r id n :
  timeline_entry r id n = None ->
  n < 1 \/ Z.of_nat (length (media_timeline r id)) < n.
Proof.
  unfold timeline_entry. destruct (n <? 1) eqn:Hn; [lia|].
  intros H%lookup_ge_None. lia.
Qed.

Lemma uint32_small x : 0 <= x < 2 ^ 32 -> uint32 x = x.
Proof. intros H. unfold uint32. by apply Z.mod_small. Qed.

Lemma count_live_le l : (count_live l <= length l)%nat.
Proof. induction l as [|sl l IH]; simpl; [lia|]. destruct (live sl); lia. Qed.

Lemma idle_le q pre :
  (length pre <= length (queue q))%nat -> (idle q pre <= 2 * length (queue q))%nat.
Proof.
  intros H. unfold idle. pose proof (idle_prefix_le (queue q)).
  destruct pre; simpl in *; lia.
Qed.

Lemma measure_work q q' pre pre' :
  length (queue q') = length (queue q) ->
  (length pre' <= length (queue q'))%nat ->
  (work (queue q') < work (queue q))%nat ->
  (measure q' pre' < measure q pre)%nat.
Proof.
  intros Hl Hp Hw. unfold measure. pose proof (idle_le q' pre' Hp).
  rewrite Hl in *. nia.
Qed.

Lemma measure_idle q q' pre pre' :
  length (queue q') = length (queue q) ->
  work (queue q') = work (queue q) ->
  (idle q' pre' < idle q pre)%nat ->
  (measure q' pre' < measure q pre)%nat.
Proof. intros Hl Hw Hi. unfold measure. rewrite Hl, Hw. lia. Qed.

Lemma rr_turn_progress q pre win :
  window_ok q pre win -> 1 <= rr_active q ->
  match rr_turn q with
  | RContinue q' =>
      exists pre' win', window_ok q' pre' win' /\ 1 <= rr_active q'
        /\ (measure q' pre' < measure q pre)%nat
  | RBreak q' => exists pre' win', window_ok q' pre' win' /\ rr_active q' = 0
  | RAbort _ => True
  | RFault => False
  end.
Proof.
  intros [Hq Hset Hskip Hact Hsize Htl] Hpos.
  unfold rr_turn. destruct (queue q) as [|sl rest] eqn:Hqueue.
  { simpl in Hact. lia. }
  assert (Hlen : forall x, length (rest ++ [x]) = length (sl :: rest))
    by (intros; rewrite length_app; simpl; lia).
  pose proof (count_live_le (sl :: rest)) as Hcl.
  assert (Htl' : forall x, slot_timeline x = slot_timeline sl ->
            Forall (fun sl => Z.of_nat (length (slot_timeline sl)) + 1 < 2 ^ 32) (rest ++ [x])).
  { intros x Hx. inversion Htl; subst. apply Forall_app. split; [done|].
    constructor; [by rewrite Hx|done]. }
  destruct (reach_end_of_media_timeline (slot_in sl)) eqn:Hend; simpl.
  - (* an ended track: nothing happens *)
    assert (Hlive : live sl = false) by (unfold live; by rewrite Hend).
    destruct pre as [|p pre].
    + simpl in Hq. subst win. exists [], (rest ++ [sl]). split; [|split; [done|]].
      * split; simpl; try done; auto.
        -- apply Forall_app. inversion Hset; subst. split; [done|by constructor].
        -- rewrite Hskip. simpl. rewrite count_live_app. simpl. rewrite Hlive. lia.
        -- rewrite Hact. simpl. rewrite count_live_app. simpl. rewrite Hlive. lia.
        -- rewrite Hlen. done.
      * apply measure_idle; simpl queue; rewrite ?Hqueue; auto.
        -- rewrite work_app. simpl. lia.
        -- unfold idle. simpl queue. rewrite Hqueue. simpl. rewrite Hlive.
           rewrite idle_prefix_snoc; [lia|].
           simpl in Hact. rewrite Hlive in Hact. lia.
    + simpl in Hq. injection Hq as <- ->.
      exists pre, (win ++ [sl]). split; [|split; [done|]].
      * split; simpl; try done; auto.
        -- by rewrite <- app_assoc.
        -- apply Forall_app. split; [done|]. constructor; [|done].
           unfold settled. by rewrite Hlive.
        -- rewrite Hskip, count_live_app. simpl. rewrite Hlive. lia.
        -- rewrite Hact. simpl. rewrite !count_live_app. simpl. rewrite Hlive. lia.
        -- rewrite Hlen. done.
      * apply measure_idle; simpl queue; rewrite ?Hqueue; auto.
        -- rewrite work_app. simpl. lia.
        -- unfold idle. simpl queue. rewrite Hqueue, Hlen.
           pose proof (idle_prefix_le ((pre ++ win) ++ [sl])) as Hip.
           rewrite Hlen in Hip. destruct pre; simpl in *; lia.
  - (* a track that has not ended *)
    assert (Hlive : live sl = true) by (unfold live; by rewrite Hend).
    unfold lsmash_get_dts_from_media_timeline, lsmash_check_sample_existence_in_media_timeline,
      lsmash_get_sample_from_media_timeline.
    destruct (timeline_entry (slot_root sl) (track_ID (slot_in sl))
                (current_sample_number (slot_in sl))) as [e|] eqn:He.
    + (* a sample exists *)
      destruct (dts_readable e); [|done].
      pose proof (timeline_entry_Some _ _ _ _ He) as Hcsn.
      assert (Hbound : Z.of_nat (length (slot_timeline sl)) + 1 < 2 ^ 32)
        by (inversion Htl; done).
      unfold slot_timeline in Hbound.
      destruct (double_le _ _ || (rr_skip q =? rr_active q)) eqn:Hgo.
      * (* append *)
        destruct (fetchable e); [|done]. destruct (appendable e); simpl; [|done].
        set (sl' := set_slot_tracks sl _ _).
        assert (Hlive' : live sl' = true) by (unfold live; simpl; by rewrite Hend).
        exists (rest ++ [sl']), []. split; [|split; [done|]].
        -- split; simpl; try done; auto.
           ++ by rewrite app_nil_r.
           ++ rewrite Hact. simpl. rewrite count_live_app. simpl.
              rewrite Hlive, Hlive'. lia.
           ++ rewrite Hlen. done.
        -- apply measure_work; simpl queue; rewrite ?Hqueue; auto.
           rewrite work_app. simpl. rewrite Hlive, Hlive'.
           assert (Hrem : (remaining sl' < remaining sl)%nat); [|lia].
           unfold remaining, slot_timeline, sl'; simpl.
           rewrite uint32_small by lia. lia.
      * (* skip *)
        apply orb_false_iff in Hgo as [_ Hne%Z.eqb_neq].
        destruct pre as [|p pre].
        { simpl in Hq. subst win. rewrite Hskip, Hact in Hne. done. }
        simpl in Hq. injection Hq as <- ->.
        assert (Hws : (count_live win <= count_live (pre ++ win))%nat)
          by (rewrite count_live_app; lia).
        pose proof (count_live_le (pre ++ win)) as Hcl2.
        exists pre, (win ++ [sl]). split; [|split; [done|]].
        -- split; simpl; try done; auto.
           ++ by rewrite <- app_assoc.
           ++ apply Forall_app. split; [done|]. constructor; [|done].
              unfold settled, slot_entry. rewrite He. by rewrite orb_true_r.
           ++ rewrite Hskip, count_live_app. simpl. rewrite Hlive.
              rewrite uint32_small; [lia|]. simpl in Hsize. simpl in Hcl. lia.
           ++ rewrite Hact. simpl. rewrite !count_live_app. simpl. rewrite Hlive. lia.
           ++ rewrite Hlen. done.
        -- apply measure_idle; simpl queue; rewrite ?Hqueue; auto.
           ++ rewrite work_app. simpl. lia.
           ++ unfold idle. simpl queue. rewrite Hqueue, Hlen.
              pose proof (idle_prefix_le ((pre ++ win) ++ [sl])) as Hip.
              rewrite Hlen in Hip. destruct pre; simpl in *; lia.
    + (* no sample: the track ends *)
      destruct pre as [|p pre].
      { simpl in Hq. subst win. inversion Hset as [|? ? Hs _]; subst.
        unfold settled, slot_entry in Hs. rewrite Hlive, He in Hs. done. }
      simpl in Hq. injection Hq as <- ->.
      set (sl' := set_slot_tracks sl _ _).
      assert (Hlive' : live sl' = false) by done.
      simpl in Hact. rewrite Hlive in Hact.
      assert (Hws : (count_live win <= count_live (pre ++ win))%nat)
        by (rewrite count_live_app; lia).
      rewrite (uint32_small (rr_active q - 1)) by (simpl in Hsize, Hcl; lia).
      destruct (rr_active q - 1 =? 0) eqn:Hz.
      * apply Z.eqb_eq in Hz. exists (sl' :: pre), win. split; [|done].
        split; simpl; try done; auto.
        -- rewrite count_live_app in *. lia.
        -- constructor; [|by inversion Htl].
           inversion Htl; subst. done.
      * apply Z.eqb_neq in Hz.
        exists pre, (win ++ [sl']). split; [|split; [simpl; lia|]].
        -- split; simpl; try done; auto.
           ++ by rewrite <- app_assoc.
           ++ apply Forall_app. split; [done|]. by constructor.
           ++ rewrite Hskip, count_live_app. simpl. lia.
           ++ rewrite !count_live_app. simpl. rewrite count_live_app in Hact. lia.
           ++ rewrite Hlen. done.
        -- apply measure_work; simpl queue; rewrite ?Hqueue; auto.
           ++ rewrite Hlen. simpl. rewrite length_app. lia.
           ++ rewrite work_app. simpl. rewrite Hlive.
              assert (Hrem : remaining sl' = remaining sl) by done. lia.
Qed.

(** * The loop of [main] is the queue *)

Section rotation.
Context {A : Type}.
Implicit Types l : list A.

Lemma rotate_head l p x :
  l !! p = Some x -> drop p l ++ take p l = x :: (drop (S p) l ++ take p l).
Proof. intros H. by rewrite (drop_S _ _ _ H). Qed.

Lemma rotate_next l p x x' :
  l !! p = Some x ->
  (S p < length l)%nat ->
  drop (S p) (<[p:=x']> l) ++ take (S p) (<[p:=x']> l)
  = (drop (S p) l ++ take p l) ++ [x'].
Proof.
  intros H Hlt.
  assert (Hp : (p < length l)%nat) by lia.
  rewrite drop_insert_lt by lia.
  rewrite (take_S_r _ _ x') by (by apply list_lookup_insert_eq).
  rewrite take_insert_ge by lia. by rewrite app_assoc.
Qed.

Lemma rotate_wrap l p x x' :
  l !! p = Some x ->
  S p = length l ->
  <[p:=x']> l = (drop (S p) l ++ take p l) ++ [x'].
Proof.
  intros H Hlen.
  rewrite drop_ge by lia. simpl.
  rewrite <- (take_drop_middle _ _ _ H) at 1.
  rewrite (drop_ge l (S p)) by lia.
  rewrite insert_app_r_alt by (rewrite length_take; lia).
  rewrite length_take. replace (p - p `min` length l)%nat with 0%nat by lia. done.
Qed.
End rotation.

Lemma slots_of_tracks_length mn tn r ts :
  length (slots_of_tracks mn tn r ts) = length ts.
Proof. revert tn. induction ts as [|t ts IH]; intros tn; simpl; [done|]. by rewrite IH. Qed.

Lemma slots_of_tracks_lookup mn tn r ts j t :
  ts !! j = Some t ->
  slots_of_tracks mn tn r ts !! j = Some (mn, tn + Z.of_nat j, r, t).
Proof.
  revert tn j. induction ts as [|x ts IH]; intros tn j H; [done|].
  destruct j as [|j].
  - simpl in *. injection H as ->. by rewrite Z.add_0_r.
  - replace (tn + Z.of_nat (S j)) with (tn + 1 + Z.of_nat j) by lia.
    simpl in *. by rewrite (IH _ _ H).
Qed.

Lemma slots_of_tracks_insert mn tn r ts j t :
  slots_of_tracks mn tn r (<[j:=t]> ts)
  = <[j:=(mn, tn + Z.of_nat j, r, t)]> (slots_of_tracks mn tn r ts).
Proof.
  revert tn j. induction ts as [|x ts IH]; intros tn j; [done|].
  destruct j as [|j].
  - simpl. by rewrite Z.add_0_r.
  - replace (tn + Z.of_nat (S j)) with (tn + 1 + Z.of_nat j) by lia.
    simpl. by rewrite IH.
Qed.

Lemma slots_of_movies_app mn ms1 ms2 :
  slots_of_movies mn (ms1 ++ ms2)
  = slots_of_movies mn ms1 ++ slots_of_movies (mn + Z.of_nat (length ms1)) ms2.
Proof.
  revert mn. induction ms1 as [|m ms1 IH]; intros mn.
  - simpl. by rewrite Z.add_0_r.
  - replace (mn + Z.of_nat (length (m :: ms1))) with (mn + 1 + Z.of_nat (length ms1))
      by (simpl; lia).
    simpl. by rewrite IH, <- app_assoc.
Qed.

Lemma slots_of_movies_length mn mn' ms :
  length (slots_of_movies mn ms) = length (slots_of_movies mn' ms).
Proof.
  revert mn mn'. induction ms as [|m ms IH]; intros mn mn'; simpl; [done|].
  rewrite !length_app, !slots_of_tracks_length. f_equal. apply IH.
Qed.

(** The slots of the movies, split at the movie in position [k]. *)
Lemma slots_of_movies_split mn ms k m :
  ms !! k = Some m ->
  slots_of_movies mn ms
  = slots_of_movies mn (take k ms)
    ++ slots_of_tracks (mn + Z.of_nat k) 1 (root m) (track m)
    ++ slots_of_movies (mn + Z.of_nat k + 1) (drop (S k) ms).
Proof.
  intros H. rewrite <- (take_drop_middle _ _ _ H) at 1.
  rewrite slots_of_movies_app. simpl.
  assert (Hk : length (take k ms) = k).
  { rewrite length_take. apply lookup_lt_Some in H. lia. }
  by rewrite Hk.
Qed.

Lemma slots_of_movies_insert_split mn ms k m m' :
  ms !! k = Some m ->
  slots_of_movies mn (<[k:=m']> ms)
  = slots_of_movies mn (take k ms)
    ++ slots_of_tracks (mn + Z.of_nat k) 1 (root m') (track m')
    ++ slots_of_movies (mn + Z.of_nat k + 1) (drop (S k) ms).
Proof.
  intros H. assert (Hk : (k < length ms)%nat) by (by eapply lookup_lt_Some).
  rewrite (slots_of_movies_split mn (<[k:=m']> ms) k m')
    by (by apply list_lookup_insert_eq).
  rewrite take_insert_ge by lia. rewrite drop_insert_lt by lia. done.
Qed.

Lemma slots_of_movies_length_sum mn ms :
  length (slots_of_movies mn ms) = sum_list_with (fun m => length (track m)) ms.
Proof.
  revert mn. induction ms as [|m ms IH]; intros mn; simpl; [done|].
  by rewrite length_app, slots_of_tracks_length, IH.
Qed.

Lemma tracks_before_length mn ms k :
  length (slots_of_movies mn (take k ms)) = tracks_before ms k.
Proof. apply slots_of_movies_length_sum. Qed.

Lemma slots_of_movies_lookup mn ms k m j t :
  ms !! k = Some m -> track m !! j = Some t ->
  slots_of_movies mn ms !! (tracks_before ms k + j)%nat
  = Some (mn + Z.of_nat k, 1 + Z.of_nat j, root m, t).
Proof.
  intros Hm Ht. rewrite (slots_of_movies_split _ _ _ _ Hm).
  rewrite lookup_app_r by (rewrite tracks_before_length; lia).
  rewrite tracks_before_length.
  replace (tracks_before ms k + j - tracks_before ms k)%nat with j by lia.
  rewrite lookup_app_l
    by (rewrite slots_of_tracks_length; by eapply lookup_lt_Some).
  by apply slots_of_tracks_lookup.
Qed.

Lemma slots_of_movies_insert mn ms k m m' j t :
  ms !! k = Some m -> (j < length (track m))%nat ->
  root m' = root m -> track m' = <[j:=t]> (track m) ->
  slots_of_movies mn (<[k:=m']> ms)
  = <[(tracks_before ms k + j)%nat := (mn + Z.of_nat k, 1 + Z.of_nat j, root m, t)]>
      (slots_of_movies mn ms).
Proof.
  intros Hm Hj Hr Ht.
  rewrite (slots_of_movies_insert_split _ _ _ _ _ Hm), Hr, Ht.
  rewrite (slots_of_movies_split mn ms k m Hm).
  rewrite insert_app_r_alt by (rewrite tracks_before_length; lia).
  rewrite tracks_before_length.
  replace (tracks_before ms k + j - tracks_before ms k)%nat with j by lia.
  rewrite insert_app_l by (by rewrite slots_of_tracks_length).
  by rewrite slots_of_tracks_insert.
Qed.

Lemma slots_of_movies_same mn ms k m m' :
  ms !! k = Some m -> root m' = root m -> track m' = track m ->
  slots_of_movies mn (<[k:=m']> ms) = slots_of_movies mn ms.
Proof.
  intros Hm Hr Ht.
  rewrite (slots_of_movies_insert_split _ _ _ _ _ Hm), Hr, Ht.
  by rewrite <- (slots_of_movies_split mn ms k m Hm).
Qed.

Lemma tracks_before_S ms k m :
  ms !! k = Some m ->
  tracks_before ms (S k) = (tracks_before ms k + length (track m))%nat.
Proof.
  intros H. unfold tracks_before. rewrite (take_S_r _ _ _ H).
  rewrite sum_list_with_app. simpl. lia.
Qed.

Lemma tracks_before_all ms k :
  (length ms <= k)%nat -> tracks_before ms k = length (slots_of_movies 1 ms).
Proof.
  intros H. unfold tracks_before. by rewrite take_ge, slots_of_movies_length_sum.
Qed.

Lemma tracks_before_le ms k m :
  ms !! k = Some m ->
  (tracks_before ms k + length (track m) <= length (slots_of_movies 1 ms))%nat.
Proof.
  intros H. rewrite (slots_of_movies_split 1 ms k m H).
  rewrite !length_app, slots_of_tracks_length, tracks_before_length. lia.
Qed.

Lemma tracks_before_insert ms k j m' :
  (j <= k)%nat -> tracks_before (<[k:=m']> ms) j = tracks_before ms j.
Proof. intros H. unfold tracks_before. by rewrite take_insert_ge. Qed.

Lemma number_slots_length n outs ins :
  length outs = length ins -> length (number_slots n outs ins) = length ins.
Proof.
  revert n ins. induction outs as [|o outs IH]; intros n [|[[[mn tn] r] t] ins] H;
    simpl in *; try done. f_equal. apply IH. lia.
Qed.

Lemma number_slots_lookup n outs ins p o mn tn r t :
  outs !! p = Some o -> ins !! p = Some (mn, tn, r, t) ->
  number_slots n outs ins !! p
  = Some {| slot_number := n + Z.of_nat p; slot_movie := mn;
            slot_track := tn; slot_root := r; slot_in := t; slot_out := o |}.
Proof.
  revert n ins p. induction outs as [|x outs IH]; intros n [|[[[mn' tn'] r'] t'] ins] p Ho Hi;
    try done.
  destruct p as [|p].
  - simpl in *. injection Ho as ->. injection Hi as -> -> -> ->. by rewrite Z.add_0_r.
  - replace (n + Z.of_nat (S p)) with (n + 1 + Z.of_nat p) by lia.
    simpl in *. by rewrite (IH _ _ _ Ho Hi).
Qed.

Lemma number_slots_insert n outs ins p o' mn tn r t :
  (p < length outs)%nat -> (p < length ins)%nat ->
  number_slots n (<[p:=o']> outs) (<[p:=(mn, tn, r, t)]> ins)
  = <[p:={| slot_number := n + Z.of_nat p; slot_movie := mn;
            slot_track := tn; slot_root := r; slot_in := t; slot_out := o' |}]>
      (number_slots n outs ins).
Proof.
  revert n ins p. induction outs as [|x outs IH]; intros n [|[[[mn' tn'] r'] t'] ins] p Ho Hp;
    simpl in Ho, Hp; try lia.
  destruct p as [|p].
  - simpl in *. by rewrite Z.add_0_r.
  - replace (n + Z.of_nat (S p)) with (n + 1 + Z.of_nat p) by lia.
    simpl in *. by rewrite IH by lia.
Qed.

Lemma tracks_before_insert_same ms k m m' j :
  ms !! k = Some m -> length (track m') = length (track m) ->
  tracks_before (<[k:=m']> ms) j = tracks_before ms j.
Proof.
  intros Hm Hl. unfold tracks_before.
  destruct (decide (j <= k)%nat) as [Hjk|Hjk].
  - by rewrite take_insert_ge.
  - rewrite take_insert_lt by lia.
    assert (Hk : take j ms !! k = Some m) by (rewrite lookup_take_lt by lia; done).
    rewrite <- !(slots_of_movies_length_sum 1).
    rewrite (slots_of_movies_insert_split _ _ _ _ _ Hk).
    rewrite (slots_of_movies_split 1 (take j ms) k m Hk).
    by rewrite !length_app, !slots_of_tracks_length, Hl.
Qed.

Lemma movies_le_tracks mn ms :
  Forall (fun m => num_tracks m = Z.of_nat (length (track m)) /\ 1 <= num_tracks m) ms ->
  (length ms <= length (slots_of_movies mn ms))%nat.
Proof.
  revert mn. induction ms as [|m ms IH]; intros mn H; simpl; [lia|].
  inversion H as [|? ? [H1 H2] H3]; subst.
  rewrite length_app, slots_of_tracks_length. specialize (IH (mn + 1) H3). lia.
Qed.

Lemma array_get_nat {A} (a : list A) (i : Z) :
  0 <= i -> array_get a i = a !! Z.to_nat i.
Proof. intros H. unfold array_get. destruct (i <? 0) eqn:E; [lia|done]. Qed.

Lemma array_set_nat {A} (a : list A) (i : Z) x :
  0 <= i -> array_set a i x = <[Z.to_nat i := x]> a.
Proof. intros H. unfold array_set. destruct (i <? 0) eqn:E; [lia|done]. Qed.

Lemma cursor_ok_at_cursor s :
  cursor_ok s -> exists movie in_track out_track, at_cursor s movie in_track out_track.
Proof.
  intros [Hni Hmv Hot Htot Hsz Hmn Hoth Hcur Hc].
  destruct (lookup_lt_is_Some_2 (input s) (Z.to_nat (input_movie_number s - 1)))
    as [movie Hm]; [lia|].
  specialize (Hcur _ Hm). specialize (Hc _ Hm).
  pose proof (Forall_lookup_1 _ _ _ _ Hmv Hm) as [Hnt Hpos]. simpl in Hnt, Hpos.
  destruct (lookup_lt_is_Some_2 (track movie) (Z.to_nat (current_track_number movie - 1)))
    as [in_track Hin]; [lia|].
  pose proof (tracks_before_le _ _ _ Hm) as Hle.
  assert (Hpos' : cursor s
            = (tracks_before (input s) (Z.to_nat (input_movie_number s - 1))
               + Z.to_nat (current_track_number movie - 1))%nat).
  { unfold cursor. rewrite Hc. lia. }
  destruct (lookup_lt_is_Some_2 (track (output s)) (cursor s)) as [out_track Hout]; [lia|].
  exists movie, in_track, out_track. split; try done; try lia.
  rewrite Htot. by apply movies_le_tracks.
Qed.

Lemma slots_at_cursor s movie in_track out_track :
  cursor_ok s -> at_cursor s movie in_track out_track ->
  slots s !! cursor s = Some (slot_at s movie in_track out_track).
Proof.
  intros Hok [Hm Hin Hout Hpos Hr Hnt Hfit Hmf].
  unfold slots. erewrite number_slots_lookup; [|done|].
  2:{ rewrite Hpos. by apply slots_of_movies_lookup. }
  unfold slot_at. f_equal.
  destruct Hok as [Hni Hmv Hot Htot Hsz Hmn Hoth Hcur Hc].
  specialize (Hc _ Hm). f_equal; [unfold cursor|..]; lia.
Qed.

Lemma view_queue_head s movie in_track out_track :
  cursor_ok s -> at_cursor s movie in_track out_track ->
  queue (view s)
  = slot_at s movie in_track out_track
      :: (drop (S (cursor s)) (slots s) ++ take (cursor s) (slots s)).
Proof. intros Hok Hat. simpl. apply rotate_head. by apply slots_at_cursor. Qed.

Lemma slots_store s movie in_track out_track in' out' movie2 :
  cursor_ok s -> at_cursor s movie in_track out_track ->
  root movie2 = root movie ->
  track movie2 = <[Z.to_nat (current_track_number movie - 1) := in']> (track movie) ->
  number_slots 1 (<[cursor s := out']> (track (output s)))
    (slots_of_movies 1 (<[Z.to_nat (input_movie_number s - 1) := movie2]> (input s)))
  = <[cursor s := slot_at s movie in' out']> (slots s).
Proof.
  intros Hok [Hm Hin Hout Hpos Hr Hnt Hfit Hmf] Hroot Htrack.
  destruct Hok as [Hni Hmv Hot Htot Hsz Hmn Hoth Hcur Hc].
  specialize (Hc _ Hm).
  rewrite (slots_of_movies_insert 1 _ _ movie movie2
             (Z.to_nat (current_track_number movie - 1)) in'); try done; [|lia].
  rewrite <- Hpos.
  assert (HPlt : (cursor s < length (track (output s)))%nat) by (by eapply lookup_lt_Some).
  rewrite number_slots_insert by lia.
  assert (E1 : 1 + Z.of_nat (cursor s) = current_track_number (output s))
    by (unfold cursor; lia).
  assert (E2 : 1 + Z.of_nat (Z.to_nat (input_movie_number s - 1)) = input_movie_number s)
    by lia.
  assert (E3 : 1 + Z.of_nat (Z.to_nat (current_track_number movie - 1))
               = current_track_number movie) by lia.
  rewrite E1, E2, E3. reflexivity.
Qed.

Lemma view_eq s c l :
  cursor s = c -> slots s = l ->
  view s = {| queue := drop c l ++ take c l; rr_largest := largest_dts s;
              rr_skip := num_consecutive_sample_skip s;
              rr_active := num_active_input_tracks s;
              rr_size := total_media_size s; rr_count := sample_count s;
              rr_log := appended s |}.
Proof. intros <- <-. reflexivity. Qed.

Lemma store_move_view s movie in_track out_track in' out' lg sk ac sz ct log' :
  cursor_ok s -> at_cursor s movie in_track out_track ->
  let st := store_turn s movie in' out' lg sk ac sz ct log' in
  let s' := move_the_next_track (fst st) (snd st) in
  let rest := drop (S (cursor s)) (slots s) ++ take (cursor s) (slots s) in
  let sl' := slot_at s movie in' out' in
  cursor_ok s'
  /\ view s' = {| queue := rest ++ [sl']; rr_largest := lg; rr_skip := sk;
                  rr_active := ac; rr_size := sz; rr_count := ct; rr_log := log' |}
  /\ view (fst st) = {| queue := sl' :: rest; rr_largest := lg; rr_skip := sk;
                        rr_active := ac; rr_size := sz; rr_count := ct; rr_log := log' |}.
Proof.
  intros Hok Hat.
  pose proof (slots_at_cursor _ _ _ _ Hok Hat) as Hslot.
  pose proof (fun m2 => slots_store s movie in_track out_track in' out' m2 Hok Hat) as Hstore.
  destruct Hat as [Hm Hin Hout Hpos Hr Hnt Hfit Hmf].
  destruct Hok as [Hni Hmv Hot Htot Hsz Hmn Hoth Hcur Hc].
  specialize (Hc _ Hm).
  set (K := Z.to_nat (input_movie_number s - 1)) in *.
  set (J := Z.to_nat (current_track_number movie - 1)) in *.
  assert (HKlt : (K < length (input s))%nat) by (by eapply lookup_lt_Some).
  assert (HJlt : (J < length (track movie))%nat) by (by eapply lookup_lt_Some).
  assert (HPlt : (cursor s < length (track (output s)))%nat) by (by eapply lookup_lt_Some).
  assert (Hslen : length (slots s) = length (track (output s))).
  { unfold slots. rewrite number_slots_length; done. }
  assert (Eimn : uint32 (input_movie_number s - 1) = Z.of_nat K)
    by (rewrite uint32_small; lia).
  assert (Ectn : uint32 (current_track_number movie - 1) = Z.of_nat J)
    by (rewrite uint32_small; lia).
  assert (Eoctn : uint32 (current_track_number (output s) - 1) = Z.of_nat (cursor s))
    by (rewrite uint32_small; unfold cursor; lia).
  intros st s' rest sl'.
  (* the third part: the state before the cursor moves *)
  assert (Hfst : view (fst st) = {| queue := sl' :: rest; rr_largest := lg; rr_skip := sk;
                        rr_active := ac; rr_size := sz; rr_count := ct; rr_log := log' |}).
  { unfold view, st, store_turn; simpl. f_equal.
    unfold slots, cursor; simpl. fold (cursor s).
    rewrite Eimn, Ectn, Eoctn, !array_set_nat, !Nat2Z.id by lia.
    rewrite Hstore by done. fold K.
    erewrite rotate_head by (by apply list_lookup_insert_eq; lia).
    by rewrite drop_insert_lt, take_insert_ge by lia. }
  match goal with |- ?A /\ ?B /\ ?C => cut (A /\ B); [intros [? ?]; split; [assumption|split; [assumption|exact Hfst]]|] end.
  clear Hfst.
  assert (Hlen_in : forall m2, length (<[K:=m2]> (input s)) = length (input s))
    by (intros; apply length_insert).
  assert (Hnt_le : num_tracks movie + 1 < 2 ^ 32) by lia.
  assert (Hni_le : num_input s + 1 < 2 ^ 32) by lia.
  assert (E1 : uint32 (current_track_number movie + 1) = current_track_number movie + 1)
    by (rewrite uint32_small; lia).
  assert (E2 : uint32 (current_track_number (output s) + 1)
               = current_track_number (output s) + 1)
    by (rewrite uint32_small; lia).
  assert (E3 : uint32 (input_movie_number s + 1) = input_movie_number s + 1)
    by (rewrite uint32_small; lia).
  assert (E4 : uint32 (num_input s) = num_input s) by (rewrite uint32_small; lia).
  subst s' st. unfold move_the_next_track, store_turn. simpl.
  rewrite Eimn, Ectn, Eoctn, E1, E2, E3, E4, !array_set_nat, !Nat2Z.id by lia.
  rewrite list_insert_insert_eq.
  set (tracks' := <[J:=in']> (track movie)).
  assert (Hm2 : forall m2, root m2 = root movie -> track m2 = tracks' ->
            num_tracks m2 = num_tracks movie ->
            slots {| input := <[K:=m2]> (input s);
                     output := set_track (output s) (<[cursor s:=out']> (track (output s)));
                     num_input := 0; largest_dts := lg; input_movie_number := 0;
                     num_consecutive_sample_skip := 0; num_active_input_tracks := 0;
                     total_media_size := 0; sample_count := 0; appended := [] |}
            = <[cursor s:=sl']> (slots s)
            /\ Forall (fun m => num_tracks m = Z.of_nat (length (track m))
                                /\ 1 <= num_tracks m) (<[K:=m2]> (input s))
            /\ length (<[cursor s:=out']> (track (output s)))
               = length (slots_of_movies 1 (<[K:=m2]> (input s)))
            /\ forall j, tracks_before (<[K:=m2]> (input s)) j = tracks_before (input s) j).
  { intros m2 Hr2 Ht2 Hn2. split; [|split; [|split]].
    - unfold slots; simpl. by apply Hstore.
    - apply Forall_insert; [done|]. rewrite Hn2, Ht2. unfold tracks'.
      rewrite length_insert. split; lia.
    - rewrite (slots_of_movies_insert 1 _ _ movie m2 J in'); try done.
      by rewrite !length_insert.
    - intros j. apply (tracks_before_insert_same _ _ movie); [done|].
      rewrite Ht2. unfold tracks'. by rewrite length_insert. }
  destruct (Z.ltb_spec (num_tracks movie) (current_track_number movie + 1)) as [Hw|Hw].
  - (* the last track of the movie *)
    set (m2 := set_current_track_number _ 1).
    destruct (Hm2 m2) as (Hsl & Hfa & Hl & Htb); try done.
    assert (HtbS := tracks_before_S _ _ _ Hm). fold K in HtbS.
    destruct (Z.ltb_spec (num_input s) (input_movie_number s + 1)) as [Hw2|Hw2].
    + (* of the last movie *)
      assert (HKlast : S K = length (input s)) by lia.
      assert (Hall : tracks_before (input s) (S K) = length (slots_of_movies 1 (input s)))
        by (apply tracks_before_all; lia).
      destruct (Z.ltb_spec (num_tracks (output s)) (current_track_number (output s) + 1))
        as [Hw3|Hw3]; [|lia].
      split.
      * split; simpl.
        -- by rewrite Hlen_in.
        -- done.
        -- by rewrite length_insert.
        -- done.
        -- done.
        -- lia.
        -- intros k m Hk Hne. destruct (decide (k = K)) as [->|Hne2].
           ++ rewrite list_lookup_insert_eq in Hk by done. by injection Hk as <-.
           ++ rewrite list_lookup_insert_ne in Hk by done. apply (Hoth k); [done|lia].
        -- intros m Hk. change (Z.to_nat (1 - 1)) with 0%nat in Hk.
           destruct (decide (K = 0)%nat) as [HK0|HK0].
           ++ rewrite HK0, list_lookup_insert_eq in Hk by lia. injection Hk as <-.
              simpl. lia.
           ++ rewrite list_lookup_insert_ne in Hk by done.
              pose proof (Forall_lookup_1 _ _ _ _ Hmv Hk) as [? ?].
              rewrite (Hoth 0%nat m Hk) by lia. lia.
        -- intros m Hk. change (Z.to_nat (1 - 1)) with 0%nat in *.
           rewrite Htb. unfold tracks_before. simpl.
           destruct (decide (K = 0)%nat) as [HK0|HK0].
           ++ rewrite HK0, list_lookup_insert_eq in Hk by lia. by injection Hk as <-.
           ++ rewrite list_lookup_insert_ne in Hk by done.
              by rewrite (Hoth 0%nat m Hk) by lia.
      * rewrite (view_eq _ 0%nat (<[cursor s:=sl']> (slots s)));
          [|done|exact Hsl].
        simpl. f_equal. rewrite drop_0, app_nil_r. eapply rotate_wrap; [done|]. lia.
    + (* of a movie that is not the last *)
      destruct (lookup_lt_is_Some_2 (input s) (S K)) as [m3 Hm3]; [lia|].
      pose proof (Forall_lookup_1 _ _ _ _ Hmv Hm3) as [Hm3a Hm3b]. simpl in Hm3a, Hm3b.
      pose proof (tracks_before_le _ _ _ Hm3) as Hm3c.
      assert (Hm3d : current_track_number m3 = 1) by (apply (Hoth (S K)); [done|lia]).
      destruct (Z.ltb_spec (num_tracks (output s)) (current_track_number (output s) + 1))
        as [Hw3|Hw3]; [lia|].
      assert (HK1 : Z.to_nat (input_movie_number s + 1 - 1) = S K) by lia.
      split.
      * split; simpl.
        -- by rewrite Hlen_in.
        -- done.
        -- by rewrite length_insert.
        -- done.
        -- done.
        -- lia.
        -- intros k m Hk Hne. destruct (decide (k = K)) as [->|Hne2].
           ++ rewrite list_lookup_insert_eq in Hk by done. by injection Hk as <-.
           ++ rewrite list_lookup_insert_ne in Hk by done. apply (Hoth k); [done|lia].
        -- intros m Hk. rewrite HK1, list_lookup_insert_ne in Hk by lia.
           rewrite Hm3 in Hk. injection Hk as <-. lia.
        -- intros m Hk. rewrite HK1, list_lookup_insert_ne in Hk by lia.
           rewrite Hm3 in Hk. injection Hk as <-. rewrite HK1, Htb. lia.
      * rewrite (view_eq _ (S (cursor s)) (<[cursor s:=sl']> (slots s)));
          [|unfold cursor; simpl; lia|exact Hsl].
        simpl. f_equal. eapply rotate_next; [done|]. lia.
  - (* a track in the middle of the movie *)
    set (m2 := set_current_track_number _ (current_track_number movie + 1)).
    destruct (Hm2 m2) as (Hsl & Hfa & Hl & Htb); try done.
    destruct (Z.ltb_spec (num_input s) (input_movie_number s)) as [Hw2|Hw2]; [lia|].
    destruct (Z.ltb_spec (num_tracks (output s)) (current_track_number (output s) + 1))
      as [Hw3|Hw3]; [lia|].
    split.
    + split; simpl.
      * by rewrite Hlen_in.
      * done.
      * by rewrite length_insert.
      * done.
      * done.
      * lia.
      * intros k m Hk Hne. rewrite list_lookup_insert_ne in Hk by lia.
        by apply (Hoth k).
      * intros m Hk. fold K in Hk. rewrite list_lookup_insert_eq in Hk by done.
        injection Hk as <-. simpl. lia.
      * intros m Hk. fold K in Hk |- *. rewrite list_lookup_insert_eq in Hk by done.
        injection Hk as <-. simpl. rewrite Htb. lia.
    + rewrite (view_eq _ (S (cursor s)) (<[cursor s:=sl']> (slots s)));
          [|unfold cursor; simpl; lia|exact Hsl].
        simpl. f_equal. eapply rotate_next; [done|]. lia.
Qed.

Lemma at_cursor_indices s movie in_track out_track :
  cursor_ok s -> at_cursor s movie in_track out_track ->
  uint32 (input_movie_number s - 1) = Z.of_nat (Z.to_nat (input_movie_number s - 1))
  /\ uint32 (current_track_number movie - 1)
     = Z.of_nat (Z.to_nat (current_track_number movie - 1))
  /\ uint32 (current_track_number (output s) - 1) = Z.of_nat (cursor s).
Proof.
  intros Hok [Hm Hin Hout Hpos Hr Hnt Hfit Hmf].
  destruct Hok as [Hni Hmv Hot Htot Hsz Hmn Hoth Hcur Hc].
  specialize (Hc _ Hm).
  assert (HKlt : (Z.to_nat (input_movie_number s - 1) < length (input s))%nat)
    by (by eapply lookup_lt_Some).
  assert (HPlt : (cursor s < length (track (output s)))%nat) by (by eapply lookup_lt_Some).
  repeat split; rewrite uint32_small; unfold cursor in *; lia.
Qed.

Lemma store_turn_cursor_ok s movie in_track out_track in' out' lg sk ac sz ct log' :
  cursor_ok s -> at_cursor s movie in_track out_track ->
  cursor_ok (fst (store_turn s movie in' out' lg sk ac sz ct log')).
Proof.
  intros Hok Hat. destruct (at_cursor_indices _ _ _ _ Hok Hat) as (E1 & E2 & E3).
  destruct Hat as [Hm Hin Hout Hpos Hr Hnt Hfit Hmf].
  destruct Hok as [Hni Hmv Hot Htot Hsz Hmn Hoth Hcur Hc].
  set (K := Z.to_nat (input_movie_number s - 1)) in *.
  set (J := Z.to_nat (current_track_number movie - 1)) in *.
  assert (HJlt : (J < length (track movie))%nat) by (by eapply lookup_lt_Some).
  unfold store_turn. simpl.
  rewrite E1, E2, E3, !array_set_nat, !Nat2Z.id by lia.
  set (m2 := set_track movie _).
  assert (Htb : forall j, tracks_before (<[K:=m2]> (input s)) j = tracks_before (input s) j).
  { intros j. apply (tracks_before_insert_same _ _ movie); [done|].
    simpl. by rewrite length_insert. }
  split; simpl.
  - by rewrite length_insert.
  - apply Forall_insert; [done|]. simpl. rewrite length_insert. split; lia.
  - by rewrite length_insert.
  - rewrite (slots_of_movies_insert 1 _ _ movie m2 J in'); try done.
    by rewrite !length_insert.
  - done.
  - done.
  - intros k m Hk Hne. rewrite list_lookup_insert_ne in Hk by lia. by apply (Hoth k).
  - intros m Hk. fold K in Hk. rewrite list_lookup_insert_eq in Hk
      by (by eapply lookup_lt_Some). injection Hk as <-. simpl. lia.
  - intros m Hk. fold K in Hk |- *. rewrite list_lookup_insert_eq in Hk
      by (by eapply lookup_lt_Some). injection Hk as <-. simpl. rewrite Htb. by apply Hc.
Qed.

Lemma store_turn_same s movie in_track out_track :
  cursor_ok s -> at_cursor s movie in_track out_track ->
  store_turn s movie in_track out_track (largest_dts s) (num_consecutive_sample_skip s)
    (num_active_input_tracks s) (total_media_size s) (sample_count s) (appended s)
  = (s, movie).
Proof.
  intros Hok Hat. destruct (at_cursor_indices _ _ _ _ Hok Hat) as (E1 & E2 & E3).
  destruct Hat as [Hm Hin Hout Hpos Hr Hnt Hfit Hmf].
  unfold store_turn.
  rewrite E1, E2, E3, !array_set_nat, !Nat2Z.id by lia.
  rewrite (list_insert_id _ _ _ Hin), (list_insert_id _ _ _ Hout).
  assert (Em : set_track movie (track movie) = movie) by (by destruct movie).
  assert (Eo : set_track (output s) (track (output s)) = output s)
    by (by destruct (output s)).
  rewrite Em, Eo, (list_insert_id _ _ _ Hm). by destruct s.
Qed.

(** A turn of the loop is a turn of the queue. *)
Lemma mux_turn_view s :
  cursor_ok s ->
  match mux_turn s with
  | Continue s' => cursor_ok s' /\ rr_turn (view s) = RContinue (view s')
  | Break s' => cursor_ok s' /\ rr_turn (view s) = RBreak (view s')
  | Abort e => rr_turn (view s) = RAbort e
  | Fault => False
  end.
Proof.
  intros Hok.
  destruct (cursor_ok_at_cursor s Hok) as (movie & in_track & out_track & Hat).
  pose proof (view_queue_head _ _ _ _ Hok Hat) as Hq.
  pose proof (store_turn_same _ _ _ _ Hok Hat) as Hsame.
  pose proof (fun in' out' => store_move_view s movie in_track out_track in' out') as Hsm.
  unfold mux_turn, rr_turn. rewrite Hq.
  change (rr_active (view s)) with (num_active_input_tracks s).
  change (rr_skip (view s)) with (num_consecutive_sample_skip s).
  change (rr_largest (view s)) with (largest_dts s).
  destruct (at_cursor_indices _ _ _ _ Hok Hat) as (E1 & E2 & E3).
  pose proof Hat as [Hm Hin Hout Hpos Hr Hnt Hfit Hmf].
  rewrite E1, array_get_nat, Nat2Z.id, Hm by lia.
  rewrite E2, array_get_nat, Nat2Z.id, Hin by lia.
  rewrite E3, array_get_nat, Nat2Z.id by lia.
  change (slot_in (slot_at s movie in_track out_track)) with in_track.
  change (slot_out (slot_at s movie in_track out_track)) with out_track.
  change (slot_root (slot_at s movie in_track out_track)) with (root movie).
  destruct (reach_end_of_media_timeline in_track) eqn:Hend; simpl negb; cbv iota.
  - (* an ended track *)
    destruct (Hsm in_track out_track (largest_dts s) (num_consecutive_sample_skip s)
                (num_active_input_tracks s) (total_media_size s) (sample_count s)
                (appended s) Hok Hat) as (H1 & H2 & _).
    rewrite Hsame in H1, H2. simpl in H1, H2. split; [done|]. by rewrite H2.
  - rewrite Hout.
    destruct (lsmash_get_dts_from_media_timeline _ _ _) as [dts|] eqn:Hdts.
    + destruct (double_le _ _ || _) eqn:Hgo.
      * destruct (lsmash_get_sample_from_media_timeline _ _ _) as [sample|]; [|done].
        destruct (appendable sample); simpl negb; cbv iota; [|done].
        match goal with |- context [store_turn s movie ?i ?o ?a ?b ?c ?d ?e ?f] =>
          destruct (Hsm i o a b c d e f Hok Hat) as (H1 & H2 & _);
          destruct (store_turn s movie i o a b c d e f) as [s1 movie1] eqn:Hst end.
        simpl in H1, H2. split; [done|]. by rewrite H2.
      * match goal with |- context [store_turn s movie ?i ?o ?a ?b ?c ?d ?e ?f] =>
          destruct (Hsm i o a b c d e f Hok Hat) as (H1 & H2 & _);
          destruct (store_turn s movie i o a b c d e f) as [s1 movie1] eqn:Hst end.
        simpl in H1, H2. split; [done|]. by rewrite H2.
    + destruct (lsmash_check_sample_existence_in_media_timeline _ _ _); [done|].
      match goal with |- context [store_turn s movie ?i ?o ?a ?b ?c ?d ?e ?f] =>
        destruct (Hsm i o a b c d e f Hok Hat) as (H1 & H2 & H3);
        pose proof (store_turn_cursor_ok s movie in_track out_track i o a b c d e f Hok Hat)
          as H4;
        destruct (store_turn s movie i o a b c d e f) as [s1 movie1] eqn:Hst end.
      simpl in H1, H2, H3, H4.
      destruct (uint32 (num_active_input_tracks s - 1) =? 0).
      * split; [done|]. by rewrite H3.
      * split; [done|]. by rewrite H2.
Qed.

(** * The log follows the cursors *)

Lemma log_ok_perm l l' log : l ≡ₚ l' -> log_ok l log -> log_ok l' log.
Proof.
  intros Hp [H1 H2 H3]. split.
  - by rewrite <- Hp.
  - by rewrite <- Hp.
  - eapply Forall_impl; [done|]. intros a Ha. by rewrite <- Hp.
Qed.

Lemma samples_to_snoc number log a :
  samples_to number (log ++ [a])
  = samples_to number log
    ++ (if decide (to_track_number a = number) then [from_sample_number a] else []).
Proof.
  unfold samples_to. rewrite filter_app, fmap_app. f_equal.
  rewrite filter_cons. by destruct (decide _).
Qed.

Lemma seqZ_snoc c : 1 <= c -> seqZ 1 (c - 1) ++ [c] = seqZ 1 (c + 1 - 1).
Proof.
  intros H. replace (c + 1 - 1) with ((c - 1) + 1) by lia.
  rewrite seqZ_app by lia. f_equal. replace (1 + (c - 1)) with c by lia.
  rewrite seqZ_cons, seqZ_nil by lia. done.
Qed.

Lemma rr_turn_log q :
  log_ok (queue q) (rr_log q) ->
  Forall (fun sl => Z.of_nat (length (slot_timeline sl)) + 1 < 2 ^ 32) (queue q) ->
  match rr_turn q with
  | RContinue q' | RBreak q' => log_ok (queue q') (rr_log q')
  | _ => True
  end.
Proof.
  intros Hlog Htl. unfold rr_turn.
  destruct (queue q) as [|sl rest] eqn:Hqueue; [done|].
  assert (Hrot : forall x, rest ++ [x] ≡ₚ x :: rest)
    by (intros; by rewrite Permutation_app_comm).
  destruct (reach_end_of_media_timeline (slot_in sl)) eqn:Hend; simpl.
  { eapply log_ok_perm; [symmetry; apply Hrot|done]. }
  destruct Hlog as [Hnd Hsl Hkn].
  inversion Hsl as [|? ? [Hs1 Hs2 Hs3 Hs4 Hs5] Hrest]; subst.
  inversion Htl as [|? ? Hb _]; subst.
  unfold lsmash_get_dts_from_media_timeline, lsmash_check_sample_existence_in_media_timeline,
    lsmash_get_sample_from_media_timeline.
  destruct (timeline_entry (slot_root sl) (track_ID (slot_in sl))
              (current_sample_number (slot_in sl))) as [e|] eqn:He.
  - destruct (dts_readable e); [|done].
    destruct (double_le _ _ || _).
    + destruct (fetchable e); [|done]. destruct (appendable e); simpl; [|done].
      set (a := {| to_track_number := slot_number sl |}).
      set (sl' := set_slot_tracks sl _ _).
      pose proof (timeline_entry_Some _ _ _ _ He) as Hcsn.
      eapply log_ok_perm; [symmetry; apply Hrot|]. split.
      * done.
      * constructor.
        -- split; simpl.
           ++ rewrite samples_to_snoc, Hs1. simpl. rewrite decide_True by done.
              rewrite uint32_small by (unfold slot_timeline in Hb; lia).
              apply seqZ_snoc. lia.
           ++ rewrite uint32_small by (unfold slot_timeline in Hb; lia).
              unfold slot_timeline in *. simpl. lia.
           ++ by rewrite Hs3.
           ++ by rewrite Hend.
           ++ apply Forall_app. split.
              ** eapply Forall_impl; [exact Hs5|]. intros x Hx Hn. by apply Hx.
              ** constructor; [|done]. intros _. unfold entry_from; simpl.
                 repeat split; try done. by exists e.
        -- rewrite Forall_forall in Hrest |- *. intros sl2 Hin2.
           destruct (Hrest sl2 Hin2) as [H1 H2 H3 H4 H5]. split; try done.
           ++ rewrite samples_to_snoc. simpl. rewrite decide_False, app_nil_r; [done|].
              intros Heq. simpl in Hnd. apply NoDup_cons in Hnd as [Hnot _].
              apply Hnot. rewrite Heq. apply list_elem_of_fmap. by exists sl2.
           ++ apply Forall_app. split; [done|]. constructor; [|done].
              simpl. intros Heq. exfalso.
              simpl in Hnd. apply NoDup_cons in Hnd as [Hnot _].
              apply Hnot. rewrite Heq. apply list_elem_of_fmap. by exists sl2.
      * apply Forall_app. split; [done|]. constructor; [|done]. simpl. left.
    + eapply log_ok_perm; [symmetry; apply Hrot|]. by split.
  - set (sl' := set_slot_tracks sl _ _).
    assert (Hok' : log_ok (sl' :: rest) (rr_log q)).
    { split; [done| |done]. constructor; [|done]. split; try done.
      intros _. apply timeline_entry_None in He. unfold slot_timeline in *. simpl in *. lia. }
    destruct (uint32 (rr_active q - 1) =? 0); simpl; [done|].
    eapply log_ok_perm; [symmetry; apply Hrot|done].
Qed.

Lemma total_tracks_length mn ms :
  Forall (fun m => num_tracks m = Z.of_nat (length (track m)) /\ 1 <= num_tracks m) ms ->
  total_tracks ms = Z.of_nat (length (slots_of_movies mn ms)).
Proof.
  revert mn. induction ms as [|m ms IH]; intros mn H; simpl; [done|].
  inversion H as [|? ? [H1 H2] H3]; subst.
  rewrite length_app, slots_of_tracks_length, (IH (mn + 1) H3). lia.
Qed.

Lemma slots_of_tracks_elem mn tn r ts x :
  x ∈ slots_of_tracks mn tn r ts -> exists tn' t, x = (mn, tn', r, t) /\ t ∈ ts.
Proof.
  revert tn. induction ts as [|t ts IH]; intros tn; simpl.
  - by intros ?%elem_of_nil.
  - intros [->|H]%elem_of_cons.
    + exists tn, t. split; [done|left].
    + destruct (IH _ H) as (tn' & t' & -> & Ht). exists tn', t'. split; [done|by right].
Qed.

Lemma slots_of_movies_elem mn ms x :
  x ∈ slots_of_movies mn ms ->
  exists mn' tn m t, x = (mn', tn, root m, t) /\ m ∈ ms /\ t ∈ track m.
Proof.
  revert mn. induction ms as [|m ms IH]; intros mn; simpl.
  - by intros ?%elem_of_nil.
  - intros [H|H]%elem_of_app.
    + destruct (slots_of_tracks_elem _ _ _ _ _ H) as (tn & t & -> & Ht).
      exists mn, tn, m, t. repeat split; [left|done].
    + destruct (IH _ H) as (mn' & tn & m' & t & -> & Hm & Ht).
      exists mn', tn, m', t. repeat split; [by right|done].
Qed.

Lemma number_slots_elem n outs ins sl :
  sl ∈ number_slots n outs ins ->
  slot_out sl ∈ outs
  /\ (slot_movie sl, slot_track sl, slot_root sl, slot_in sl) ∈ ins.
Proof.
  revert n ins. induction outs as [|o outs IH]; intros n [|[[[mn tn] r] t] ins]; simpl;
    try (by intros ?%elem_of_nil).
  intros [->|H]%elem_of_cons; simpl.
  - split; left.
  - destruct (IH _ _ H). split; by right.
Qed.

Lemma number_slots_numbers n outs ins :
  length outs = length ins ->
  slot_number <$> number_slots n outs ins = seqZ n (Z.of_nat (length ins)).
Proof.
  revert n ins. induction outs as [|o outs IH]; intros n [|[[[mn tn] r] t] ins] H;
    simpl in *; try done.
  rewrite IH by lia. rewrite (seqZ_cons n) by lia. do 2 f_equal; lia.
Qed.

Lemma count_live_all l :
  Forall (fun sl => live sl = true) l -> count_live l = length l.
Proof. induction 1 as [|sl l H _ IH]; simpl; [done|]. rewrite H, IH. done. Qed.

Lemma count_live_none l :
  count_live l = 0%nat -> Forall (fun sl => live sl = false) l.
Proof.
  induction l as [|sl l IH]; simpl; [done|]. destruct (live sl) eqn:E; [lia|].
  intros H. constructor; [done|]. apply IH. lia.
Qed.

Lemma at_start_muxing_inv s :
  at_start_muxing s = true ->
  mux_inv s /\ 1 <= num_active_input_tracks s
  /\ num_consecutive_sample_skip s = 0 /\ largest_dts s = double_zero /\ appended s = [].
Proof.
  unfold at_start_muxing. rewrite !andb_true_iff.
  intros ((((((((((((H1 & H2) & H3) & H4) & H5) & H6) & H7) & H8) & H9) & H10) & H11) & H12) & H13).
  apply Z.eqb_eq in H1, H4, H5, H8, H9, H10, H11. apply Z.leb_le in H2. apply Z.ltb_lt in H6.
  rewrite forallb_forall in H3, H7.
  assert (Hlog : appended s = []) by (by destruct (appended s)).
  assert (Hlg : largest_dts s = double_zero)
    by (by destruct (largest_dts s) as [[]| | |]).
  assert (Hmv : Forall (fun m => num_tracks m = Z.of_nat (length (track m))
                                 /\ 1 <= num_tracks m) (input s)).
  { apply Forall_forall. intros m Hm%list_elem_of_In. specialize (H3 m Hm).
    unfold fresh_movie in H3. rewrite !andb_true_iff in H3.
    destruct H3 as (((Ha & Hb) & _) & _). split; lia. }
  assert (Hctn : forall k m, input s !! k = Some m -> current_track_number m = 1).
  { intros k m Hk. apply list_elem_of_lookup_2, list_elem_of_In in Hk.
    specialize (H3 m Hk). unfold fresh_movie in H3. rewrite !andb_true_iff in H3.
    destruct H3 as (((_ & _) & Hc) & _). lia. }
  assert (Htot : length (track (output s)) = length (slots_of_movies 1 (input s))).
  { rewrite (total_tracks_length 1) in H5 by done. lia. }
  assert (Hok : cursor_ok s).
  { split; try done; try lia.
    - intros k m Hk _. by eapply Hctn.
    - intros m Hm. rewrite (Hctn _ _ Hm).
      pose proof (Forall_lookup_1 _ _ _ _ Hmv Hm) as [? ?]. simpl in *. lia.
    - intros m Hm. rewrite (Hctn _ _ Hm), H8, H9. unfold tracks_before. simpl. lia. }
  assert (Hcur : cursor s = 0%nat) by (unfold cursor; lia).
  assert (Hq : queue (view s) = slots s).
  { simpl. rewrite Hcur, drop_0, take_0. apply app_nil_r. }
  assert (Hfresh : Forall (fun sl => fresh_track (slot_root sl) (slot_in sl) = true
                                     /\ current_sample_number (slot_out sl) = 1) (slots s)).
  { apply Forall_forall. intros sl Hsl. unfold slots in Hsl.
    apply number_slots_elem in Hsl as [Ho Hi].
    apply slots_of_movies_elem in Hi as (mn & tn & m & t & Heq & Hm & Ht).
    injection Heq as _ _ -> ->. split.
    - apply list_elem_of_In in Hm, Ht. specialize (H3 m Hm). unfold fresh_movie in H3.
      rewrite !andb_true_iff, forallb_forall in H3. destruct H3 as (_ & H3). by apply H3.
    - apply list_elem_of_In in Ho. specialize (H7 _ Ho). simpl in H7. lia. }
  assert (Hlen : length (slots s) = length (track (output s))).
  { unfold slots. rewrite number_slots_length; done. }
  assert (Hlive : count_live (slots s) = length (slots s)).
  { apply count_live_all. eapply Forall_impl; [exact Hfresh|]. intros sl [Hf _].
    unfold fresh_track in Hf. rewrite !andb_true_iff in Hf. unfold live.
    destruct Hf as ((_ & Hf) & _). done. }
  split; [split; [done| |]|].
  - exists (slots s), []. split.
    + by rewrite Hq, app_nil_r.
    + done.
    + simpl. lia.
    + rewrite Hq, Hlive, Hlen. simpl. lia.
    + rewrite Hq, Hlen. lia.
    + rewrite Hq. eapply Forall_impl; [exact Hfresh|]. intros sl [Hf _].
      unfold fresh_track in Hf. rewrite !andb_true_iff in Hf. unfold slot_timeline.
      destruct Hf as (_ & Hf). lia.
  - rewrite Hq, Hlog. split; [| |done].
    + unfold slots. rewrite number_slots_numbers by done. apply NoDup_seqZ.
    + eapply Forall_impl; [exact Hfresh|]. intros sl [Hf Ho].
      unfold fresh_track in Hf. rewrite !andb_true_iff in Hf.
      destruct Hf as ((Ha & Hb) & Hc). apply Z.eqb_eq in Ha.
      split; rewrite ?Ha; try done.
      * unfold slot_timeline. lia.
      * intros Hx. by rewrite Hx in Hb.
  - repeat split; try done. pose proof (movies_le_tracks 1 _ Hmv). lia.
Qed.

(** * The loop comes to an end *)

Lemma mux_turn_progress s pre win :
  mux_inv s -> window_ok (view s) pre win -> 1 <= num_active_input_tracks s ->
  match mux_turn s with
  | Continue s' =>
      mux_inv s' /\ 1 <= num_active_input_tracks s'
      /\ exists pre' win', window_ok (view s') pre' win'
           /\ (measure (view s') pre' < measure (view s) pre)%nat
  | Break s' => mux_inv s' /\ num_active_input_tracks s' = 0
  | Abort _ => True
  | Fault => False
  end.
Proof.
  intros [Hok _ Hlog] Hwin Hact.
  pose proof (mux_turn_view s Hok) as Hview.
  pose proof (rr_turn_progress (view s) pre win Hwin Hact) as Hprog.
  pose proof (rr_turn_log (view s) Hlog (win_timelines _ _ _ Hwin)) as Hlog'.
  destruct (mux_turn s) as [s'|s'| |]; try done.
  - destruct Hview as [Hok' Heq]. rewrite Heq in Hprog, Hlog'.
    destruct Hprog as (pre' & win' & Hw' & Ha' & Hm).
    split; [split; [done|by exists pre', win'|done]|]. split; [done|].
    by exists pre', win'.
  - destruct Hview as [Hok' Heq]. rewrite Heq in Hprog, Hlog'.
    destruct Hprog as (pre' & win' & Hw' & Ha').
    split; [split; [done|by exists pre', win'|done]|done].
Qed.

Lemma mux_running_inv s0 s :
  at_start_muxing s0 = true -> mux_running s0 s ->
  mux_inv s /\ 1 <= num_active_input_tracks s.
Proof.
  intros H0 Hrun. induction Hrun as [|s s' _ IH Hturn].
  - destruct (at_start_muxing_inv _ H0) as (? & ? & _). done.
  - destruct IH as [Hinv Hact]. pose proof Hinv as [_ (pre & win & Hwin) _].
    pose proof (mux_turn_progress s pre win Hinv Hwin Hact) as Hp.
    rewrite Hturn in Hp. by destruct Hp as (? & ? & _).
Qed.

Lemma mux_reach_inv s0 s :
  at_start_muxing s0 = true -> mux_reach s0 s -> mux_inv s.
Proof.
  intros H0 [Hrun|(s1 & Hrun & Hturn)].
  - by destruct (mux_running_inv _ _ H0 Hrun).
  - destruct (mux_running_inv _ _ H0 Hrun) as [Hinv Hact].
    pose proof Hinv as [_ (pre & win & Hwin) _].
    pose proof (mux_turn_progress s1 pre win Hinv Hwin Hact) as Hp.
    rewrite Hturn in Hp. by destruct Hp.
Qed.

Lemma mux_running_front s0 s1 s :
  mux_turn s0 = Continue s1 -> mux_running s1 s -> mux_running s0 s.
Proof.
  intros H0 Hrun. induction Hrun as [|s s' _ IH Hturn].
  - eapply running_turn; [apply running_start|done].
  - eapply running_turn; done.
Qed.

Lemma mux_run_Finished n s0 s :
  mux_run n s0 = Finished s ->
  exists s1, mux_running s0 s1 /\ mux_turn s1 = Break s.
Proof.
  revert s0. induction n as [|n IH]; intros s0; simpl; [done|].
  destruct (mux_turn s0) as [s'|s'| |] eqn:Hturn; try done.
  - intros H. destruct (IH _ H) as (s1 & Hrun & Hb). exists s1. split; [|done].
    by eapply mux_running_front.
  - intros [= <-]. exists s0. split; [apply running_start|done].
Qed.

Lemma mux_run_Running n s0 s :
  mux_run n s0 = Running s -> mux_running s0 s.
Proof.
  revert s0. induction n as [|n IH]; intros s0; simpl.
  - intros [= <-]. apply running_start.
  - destruct (mux_turn s0) as [s'|s'| |] eqn:Hturn; try done.
    intros H. eapply mux_running_front; [done|]. by apply IH.
Qed.

Lemma mux_turn_Break_active s s' :
  mux_turn s = Break s' -> num_active_input_tracks s' = 0.
Proof.
  unfold mux_turn, store_turn.
  repeat match goal with
  | |- context [match ?x with _ => _ end] => destruct x eqn:?; try done
  end.
  all: intros [= <-]; simpl.
  all: match goal with H : (_ =? 0) = true |- _ => by apply Z.eqb_eq in H end.
Qed.

Lemma mux_terminates_from m :
  forall s pre win,
    mux_inv s -> window_ok (view s) pre win -> 1 <= num_active_input_tracks s ->
    measure (view s) pre = m ->
    exists n, (exists s', mux_run n s = Finished s') \/ (exists e, mux_run n s = Aborted e).
Proof.
  induction m as [m IH] using lt_wf_ind. intros s pre win Hinv Hwin Hact Hm.
  pose proof (mux_turn_progress s pre win Hinv Hwin Hact) as Hp.
  destruct (mux_turn s) as [s'|s'|e|] eqn:Hturn; [| | |done].
  - destruct Hp as (Hinv' & Hact' & pre' & win' & Hwin' & Hlt).
    destruct (IH (measure (view s') pre') ltac:(lia) s' pre' win' Hinv' Hwin' Hact' eq_refl)
      as [n Hn].
    exists (S n). simpl. by rewrite Hturn.
  - exists 1%nat. left. exists s'. simpl. by rewrite Hturn.
  - exists 1%nat. right. exists e. simpl. by rewrite Hturn.
Qed.

(** * The scheduler: termination, skips, order of the samples *)

Lemma state_after_reach turns s :
  match mux_run turns s with Running _ | Finished _ => true | _ => false end = true ->
  mux_reach s (state_after turns s).
Proof.
  unfold state_after. destruct (mux_run turns s) as [s'| | |s'] eqn:Hrun; try done.
  - intros _. right. by apply mux_run_Finished in Hrun.
  - intros _. left. by apply mux_run_Running in Hrun.
Qed.

Lemma rr_turn_slots_ok q :
  slots_ok q ->
  match rr_turn q with
  | RContinue q' | RBreak q' => slots_ok q'
  | RAbort _ => False
  | RFault => True
  end.
Proof.
  unfold slots_ok, rr_turn. intros H.
  destruct (queue q) as [|sl rest]; [done|].
  inversion H as [|? ? Hsl Hrest]; subst.
  assert (Hrot : forall x, slot_timeline x = slot_timeline sl ->
            Forall (fun sl => Forall (fun e => sample_ok e = true) (slot_timeline sl))
              (rest ++ [x])).
  { intros x Hx. apply Forall_app. split; [done|]. constructor; [by rewrite Hx|done]. }
  destruct (reach_end_of_media_timeline (slot_in sl)); simpl; [by apply Hrot|].
  unfold lsmash_get_dts_from_media_timeline, lsmash_check_sample_existence_in_media_timeline,
    lsmash_get_sample_from_media_timeline.
  destruct (timeline_entry _ _ _) as [e|] eqn:He.
  - assert (Hok : sample_ok e = true).
    { unfold timeline_entry in He. destruct (_ <? 1); [done|].
      apply list_elem_of_lookup_2 in He. rewrite Forall_forall in Hsl. by apply Hsl. }
    unfold sample_ok in Hok. rewrite !andb_true_iff in Hok. destruct Hok as [[-> ->] ->].
    destruct (double_le _ _ || _); simpl; by apply Hrot.
  - destruct (uint32 (rr_active q - 1) =? 0); simpl.
    + constructor; done.
    + by apply Hrot.
Qed.

Lemma library_ok_slots_ok s :
  library_ok s = true -> slots_ok (view s).
Proof.
  unfold library_ok, slots_ok. rewrite forallb_forall. intros H.
  apply Forall_forall. intros sl Hsl. simpl in Hsl.
  assert (Hin : sl ∈ slots s).
  { rewrite <- (take_drop (cursor s) (slots s)).
    apply elem_of_app in Hsl. apply elem_of_app. tauto. }
  unfold slots in Hin. apply number_slots_elem in Hin as [_ Hi].
  apply slots_of_movies_elem in Hi as (mn & tn & m & t & Heq & Hm & Ht).
  injection Heq as _ _ Hr Hti.
  apply list_elem_of_In in Hm, Ht. specialize (H m Hm). rewrite forallb_forall in H.
  specialize (H t Ht). rewrite forallb_forall in H.
  unfold slot_timeline. rewrite Hr, Hti. apply Forall_forall.
  intros e He. apply H. by apply list_elem_of_In.
Qed.

Lemma mux_run_no_abort n s e :
  cursor_ok s -> slots_ok (view s) -> mux_run n s <> Aborted e.
Proof.
  revert s. induction n as [|n IH]; intros s Hok Hsl; simpl; [done|].
  pose proof (mux_turn_view s Hok) as Hv.
  pose proof (rr_turn_slots_ok _ Hsl) as Hs.
  destruct (mux_turn s) as [s'|s'| |]; try done.
  - destruct Hv as [Hok' Heq]. rewrite Heq in Hs. by apply IH.
  - rewrite Hv in Hs. done.
Qed.

(** C2: the loop comes to an end from every start, whatever the sample
    counts (tracks without samples included), timestamps and timescales:
    within some number of turns it is left through [break] with no active
    track, or through a failed library call; it is left through [break] if
    no library call fails; and a run that is left through [break] always
    has [num_active_input_tracks == 0]. *)
Theorem scheduler_terminates (s0 : mux_state) :
  at_start_muxing s0 = true ->
  (exists n, (exists s, mux_run n s0 = Finished s /\ num_active_input_tracks s = 0)
             \/ (exists e, mux_run n s0 = Aborted e))
  /\ (library_ok s0 = true ->
      exists n s, mux_run n s0 = Finished s /\ num_active_input_tracks s = 0)
  /\ (forall n s, mux_run n s0 = Finished s -> num_active_input_tracks s = 0).
Proof.
  intros H0.
  assert (Hexit : forall n s, mux_run n s0 = Finished s -> num_active_input_tracks s = 0).
  { intros n s Hrun. apply mux_run_Finished in Hrun as (s1 & _ & Hb).
    by eapply mux_turn_Break_active. }
  destruct (at_start_muxing_inv _ H0) as (Hinv & Hact & _).
  pose proof Hinv as [Hok (pre & win & Hwin) _].
  destruct (mux_terminates_from _ s0 pre win Hinv Hwin Hact eq_refl) as [n Hn].
  split; [|split; [|done]].
  - exists n. destruct Hn as [[s Hs]|[e He]]; [left|right; by exists e].
    exists s. split; [done|]. by eapply Hexit.
  - intros Hlib. exists n. destruct Hn as [[s Hs]|[e He]].
    + exists s. split; [done|]. by eapply Hexit.
    + exfalso. eapply mux_run_no_abort; [exact Hok| |exact He].
      by apply library_ok_slots_ok.
Qed.

Lemma scheduler_terminates_witness :
  at_start_muxing (two_sources 1 [0; 1; 2] [0; 2]) = true
  /\ exists n, (exists s, mux_run n (two_sources 1 [0; 1; 2] [0; 2]) = Finished s
                          /\ num_active_input_tracks s = 0)
               \/ (exists e, mux_run n (two_sources 1 [0; 1; 2] [0; 2]) = Aborted e).
Proof.
  split; [reflexivity|].
  apply (scheduler_terminates (two_sources 1 [0; 1; 2] [0; 2])). reflexivity.
Defined.





Lemma inv_slot s k m j t :
  mux_inv s -> input s !! k = Some m -> track m !! j = Some t ->
  exists o, track (output s) !! (tracks_before (input s) k + j)%nat = Some o
    /\ {| slot_number := Z.of_nat (tracks_before (input s) k + j) + 1;
          slot_movie := Z.of_nat k + 1; slot_track := Z.of_nat j + 1;
          slot_root := root m; slot_in := t; slot_out := o |} ∈ queue (view s).
Proof.
  intros [Hok _ _] Hm Ht.
  pose proof (tracks_before_le _ _ _ Hm) as Hle.
  pose proof (lookup_lt_Some _ _ _ Ht) as Hj.
  destruct (lookup_lt_is_Some_2 (track (output s)) (tracks_before (input s) k + j)%nat)
    as [o Ho]; [rewrite (ok_total _ Hok); lia|].
  exists o. split; [done|].
  assert (Hin : slots s !! (tracks_before (input s) k + j)%nat
                = Some {| slot_number := Z.of_nat (tracks_before (input s) k + j) + 1;
                          slot_movie := Z.of_nat k + 1; slot_track := Z.of_nat j + 1;
                          slot_root := root m; slot_in := t; slot_out := o |}).
  { unfold slots. erewrite number_slots_lookup; [|done|by apply slots_of_movies_lookup].
    do 2 f_equal; lia. }
  apply list_elem_of_lookup_2 in Hin. simpl.
  rewrite <- (take_drop (cursor s) (slots s)) in Hin.
  apply elem_of_app in Hin. apply elem_of_app. tauto.
Qed.

(** In every state of a run, for the track in position [j] of the input
    movie in position [k] (counted from 0): the log of its output track,
    the two cursors, and where each appended sample came from. *)
Lemma appended_in_order_inv (s0 s : mux_state) (k j : nat) (m : movie_t) (t : track_t) :
  at_start_muxing s0 = true -> mux_reach s0 s ->
  input s !! k = Some m -> track m !! j = Some t ->
  let number := Z.of_nat (tracks_before (input s) k + j) + 1 in
  let count := Z.of_nat (length (media_timeline (root m) (track_ID t))) in
  samples_to number (appended s) = seqZ 1 (current_sample_number t - 1)
  /\ 1 <= current_sample_number t <= count + 1
  /\ (exists o, track (output s) !! (tracks_before (input s) k + j)%nat = Some o
                /\ current_sample_number o = current_sample_number t
                /\ Forall (fun a => to_track_number a = number -> to_track_ID a = track_ID o)
                     (appended s))
  /\ Forall (fun a => to_track_number a = number ->
               from_movie_number a = Z.of_nat k + 1
               /\ from_track_number a = Z.of_nat j + 1
               /\ exists e, media_timeline (root m) (track_ID t)
                              !! Z.to_nat (from_sample_number a - 1) = Some e
                            /\ appended_dts a = uint64 (sample_dts e)
                            /\ appended_length a = uint64 (sample_length e))
       (appended s)
  /\ (num_active_input_tracks s = 0 ->
      current_sample_number t = count + 1
      /\ samples_to number (appended s) = seqZ 1 count).
Proof.
  intros H0 Hreach Hm Ht number count. subst number count.
  pose proof (mux_reach_inv _ _ H0 Hreach) as Hinv.
  destruct (inv_slot s k m j t Hinv Hm Ht) as (o & Ho & Hin).
  pose proof Hinv as [_ (pre & win & Hwin) [_ Hslots _]].
  rewrite Forall_forall in Hslots.
  destruct (Hslots _ Hin) as [H1 H2 H3 H4 H5]. simpl in H1, H2, H3, H4, H5.
  unfold slot_timeline in H2, H4. simpl in H2, H4.
  split; [done|]. split; [done|]. split; [|split].
  - exists o. split; [done|]. split; [done|].
    eapply Forall_impl; [exact H5|]. intros a Ha Hn. by destruct (Ha Hn).
  - eapply Forall_impl; [exact H5|]. intros a Ha Hn.
    destruct (Ha Hn) as (_ & Ha1 & Ha2 & e & He & Ha3 & Ha4). simpl in *.
    do 2 (split; [done|]). exists e. split; [|done].
    unfold timeline_entry in He. by destruct (_ <? 1).
  - intros Hact.
    assert (Hlive : live {| slot_number := Z.of_nat (tracks_before (input s) k + j) + 1;
                            slot_movie := Z.of_nat k + 1;
                            slot_track := Z.of_nat j + 1; slot_root := root m;
                            slot_in := t; slot_out := o |} = false).
    { pose proof (win_active _ _ _ Hwin) as Ha.
      change (rr_active (view s)) with (num_active_input_tracks s) in Ha.
      assert (Hz : count_live (queue (view s)) = 0%nat) by lia.
      apply count_live_none in Hz. rewrite Forall_forall in Hz. by apply Hz. }
    unfold live in Hlive. simpl in Hlive. apply negb_false_iff in Hlive.
    specialize (H4 Hlive). split; [done|]. rewrite H1. f_equal. lia.
Qed.

(** * [double]: the watermark *)

(** ** Facts about binary64 as [SpecFloat] computes it *)

Lemma digits2_pos_bounds p :
  2 ^ (Zpos (digits2_pos p) - 1) <= Zpos p < 2 ^ Zpos (digits2_pos p).
Proof.
  induction p as [p IH|p IH|]; simpl digits2_pos.
  - rewrite Pos2Z.inj_succ, (Pos2Z.inj_xI p).
    replace (Z.succ (Zpos (digits2_pos p)) - 1) with (Z.succ (Zpos (digits2_pos p) - 1)) by lia.
    rewrite !Z.pow_succ_r by lia. lia.
  - rewrite Pos2Z.inj_succ, (Pos2Z.inj_xO p).
    replace (Z.succ (Zpos (digits2_pos p)) - 1) with (Z.succ (Zpos (digits2_pos p) - 1)) by lia.
    rewrite !Z.pow_succ_r by lia. lia.
  - simpl. lia.
Qed.

Lemma Zdigits2_nonneg m : 0 <= Zdigits2 m.
Proof. destruct m; simpl; lia. Qed.

Lemma Zdigits2_le m k : 0 <= k -> 0 <= m < 2 ^ k -> Zdigits2 m <= k.
Proof.
  intros Hk [H0 Hm]. destruct m as [|p|p]; simpl; [lia| |lia].
  pose proof (digits2_pos_bounds p) as [Hl _].
  destruct (Z.le_gt_cases (Zpos (digits2_pos p)) k) as [|Hgt]; [done|].
  assert (2 ^ k <= 2 ^ (Zpos (digits2_pos p) - 1)) by (apply Z.pow_le_mono_r; lia). lia.
Qed.

Lemma Zdigits2_ge m k : 0 < k -> 2 ^ (k - 1) <= m -> k <= Zdigits2 m.
Proof.
  intros Hk Hm. assert (0 < 2 ^ (k - 1)) by (apply Z.pow_pos_nonneg; lia).
  destruct m as [|p|p]; simpl; try lia.
  pose proof (digits2_pos_bounds p) as [_ Hu].
  destruct (Z.le_gt_cases k (Zpos (digits2_pos p))) as [|Hgt]; [done|].
  assert (2 ^ Zpos (digits2_pos p) <= 2 ^ (k - 1)) by (apply Z.pow_le_mono_r; lia). lia.
Qed.

Lemma digits2_pos_iter_xO p n :
  Zpos (digits2_pos (Pos.iter xO p n)) = Zpos (digits2_pos p) + Zpos n.
Proof.
  induction n as [|n IH] using Pos.peano_ind.
  - simpl. lia.
  - rewrite Pos.iter_succ. simpl digits2_pos. rewrite Pos2Z.inj_succ, IH. lia.
Qed.

Lemma shr_1_nonneg mrs : 0 <= shr_m mrs -> 0 <= shr_m (shr_1 mrs).
Proof. destruct mrs as [[|[p|p|]|p] r s]; simpl; lia. Qed.

Lemma iter_pos_invariant {A} (P : A -> Prop) (f : A -> A) (n : positive) (x : A) :
  (forall y, P y -> P (f y)) -> P x -> P (SpecFloat.iter_pos f n x).
Proof.
  intros Hf. revert x. induction n as [n IH|n IH|]; intros x Hx; simpl; auto.
Qed.

Lemma shr_nonneg mrs e n : 0 <= shr_m mrs -> 0 <= shr_m (fst (shr mrs e n)).
Proof.
  intros H. destruct n; simpl; try done.
  apply (iter_pos_invariant (fun r => 0 <= shr_m r)); [apply shr_1_nonneg|done].
Qed.

Lemma shr_record_of_loc_m m l : shr_m (shr_record_of_loc m l) = m.
Proof. by destruct l as [|[]]. Qed.

Lemma round_nearest_even_nonneg m l : 0 <= m -> 0 <= round_nearest_even m l.
Proof. intros H. destruct l as [|[]]; simpl; try lia. destruct (Z.even m); lia. Qed.

Lemma binary_round_aux_not_nan s m e l :
  0 <= m -> binary_round_aux 53 1024 s m e l <> S754_nan.
Proof.
  intros H. unfold binary_round_aux, shr_fexp.
  set (n1 := fexp 53 1024 (Zdigits2 m + e) - e).
  pose proof (shr_nonneg (shr_record_of_loc m l) e n1) as H1.
  rewrite shr_record_of_loc_m in H1. specialize (H1 H).
  destruct (shr (shr_record_of_loc m l) e n1) as [mrs' e'] eqn:E1. simpl in H1.
  set (m2 := round_nearest_even (shr_m mrs') (loc_of_shr_record mrs')).
  assert (H2 : 0 <= m2) by (by apply round_nearest_even_nonneg).
  set (n2 := fexp 53 1024 (Zdigits2 m2 + e') - e').
  pose proof (shr_nonneg (shr_record_of_loc m2 loc_Exact) e' n2 H2) as H3.
  destruct (shr (shr_record_of_loc m2 loc_Exact) e' n2) as [mrs'' e''] eqn:E2. simpl in H3.
  destruct (shr_m mrs'') as [|q|q]; [done| |lia].
  by destruct (e'' <=? 1024 - 53).
Qed.

Lemma double_of_Z_not_nan d : double_of_Z d <> S754_nan.
Proof.
  unfold double_of_Z, binary_normalize. destruct d as [|p|p]; [done|..];
    unfold binary_round; destruct (shl_align _ _ _) as [mz ez];
    by apply binary_round_aux_not_nan.
Qed.

(** A positive integer below 2^53 is a binary64 number: its digits fill
    the mantissa from the top. *)
Lemma double_of_Z_small p :
  Zpos (digits2_pos p) < 53 ->
  double_of_Z (Zpos p)
  = S754_finite false (Pos.iter xO p (Z.to_pos (53 - Zpos (digits2_pos p))))
      (Zpos (digits2_pos p) - 53).
Proof.
  intros Hd. unfold double_of_Z, binary_normalize, binary_round, shl_align.
  set (d := Zpos (digits2_pos p)) in *.
  assert (Hf : fexp 53 1024 (d + 0) = d - 53) by (unfold fexp, emin; lia).
  rewrite Hf.
  destruct (d - 53 - 0) as [|q|q] eqn:Hq; try lia.
  assert (Hq' : Z.to_pos (53 - d) = q) by lia. rewrite Hq'.
  unfold binary_round_aux, shr_fexp. simpl Zdigits2.
  rewrite digits2_pos_iter_xO. fold d.
  assert (Hf2 : fexp 53 1024 (d + Zpos q + (d - 53)) - (d - 53) = 0)
    by (unfold fexp, emin; lia).
  rewrite Hf2. simpl shr.
  cbv beta iota zeta delta [shr_m loc_of_shr_record round_nearest_even shr_record_of_loc].
  simpl Zdigits2.
  rewrite digits2_pos_iter_xO. fold d. rewrite Hf2. simpl.
  destruct (d - 53 <=? 1024 - 53) eqn:E; [done|]. apply Z.leb_gt in E. lia.
Qed.

Lemma double_of_Z_timescale ts :
  0 < ts < 2 ^ 32 -> exists m e, double_of_Z ts = S754_finite false m e.
Proof.
  intros [H0 H1]. destruct ts as [|p|p]; try lia.
  pose proof (Zdigits2_le (Zpos p) 32 ltac:(lia) ltac:(lia)) as Hd. simpl in Hd.
  rewrite double_of_Z_small by lia. by eexists _, _.
Qed.

Lemma div_eucl_nonneg a b : 0 <= a -> 0 < b -> 0 <= fst (Z.div_eucl a b).
Proof.
  intros Ha Hb. pose proof (Z.div_pos a b Ha Hb) as H. unfold Z.div in H.
  by destruct (Z.div_eucl a b).
Qed.

Lemma double_div_not_nan d ts :
  0 < ts < 2 ^ 32 ->
  double_is_nan (double_div (double_of_Z d) (double_of_Z ts)) = false.
Proof.
  intros Hts. destruct (double_of_Z_timescale ts Hts) as (my & ey & ->).
  pose proof (double_of_Z_not_nan d) as Hx.
  unfold double_div, SFdiv. destruct (double_of_Z d) as [sx|sx| |sx mx ex]; try done.
  unfold SFdiv_core_binary.
  set (m' := match _ with Z0 => _ | _ => _ end).
  assert (Hm' : 0 <= m').
  { unfold m'. destruct (_ - _); try lia. apply Z.shiftl_nonneg. lia. }
  pose proof (div_eucl_nonneg m' (Zpos my) Hm' ltac:(lia)) as Hq.
  destruct (Z.div_eucl m' (Zpos my)) as [q r]. simpl in Hq.
  pose proof (binary_round_aux_not_nan (xorb sx false) q
                (Z.min (fexp 53 1024 (Zdigits2 (Zpos mx) + ex - (Zdigits2 (Zpos my) + ey)))
                   (ex - ey)) (new_location (Zpos my) r) Hq) as Hn.
  by destruct (binary_round_aux _ _ _ _ _ _).
Qed.

Lemma SFcompare_refl x : x <> S754_nan -> SFcompare x x = Some Eq.
Proof.
  destruct x as [s|s| |s m e]; try done; simpl; intros _.
  - by destruct s.
  - destruct s; rewrite Z.compare_refl, Pos.compare_cont_refl; done.
Qed.

Lemma SFcompare_antisym x y :
  x <> S754_nan -> y <> S754_nan ->
  SFcompare y x = CompOpp <$> SFcompare x y.
Proof.
  destruct x as [sx|sx| |sx mx ex], y as [sy|sy| |sy my ey]; try done; simpl; intros _ _;
    try (by destruct sx); try (by destruct sy); try (by destruct sx, sy).
  assert (Hm : Pos.compare_cont Eq my mx = CompOpp (Pos.compare_cont Eq mx my))
    by (by rewrite Pos.compare_cont_antisym).
  rewrite (Z.compare_antisym ex ey), Hm.
  destruct sx, sy; try done; destruct (ex ?= ey); simpl; try done;
    by destruct (Pos.compare_cont Eq mx my).
Qed.

Lemma double_le_refl x : double_is_nan x = false -> double_le x x = true.
Proof.
  intros H. unfold double_le, SFleb. rewrite SFcompare_refl; [done|].
  by destruct x.
Qed.

Lemma SFcompare_Some x y :
  x <> S754_nan -> y <> S754_nan -> SFcompare x y <> None.
Proof. destruct x as [sx|sx| |sx mx ex], y as [sy|sy| |sy my ey]; done. Qed.

Lemma LSMASH_MAX_ge a b :
  double_is_nan a = false -> double_is_nan b = false ->
  double_le a (LSMASH_MAX a b) = true /\ double_is_nan (LSMASH_MAX a b) = false.
Proof.
  intros Ha Hb. unfold LSMASH_MAX, double_gt, SFltb.
  assert (Ha' : a <> S754_nan) by (by destruct a).
  assert (Hb' : b <> S754_nan) by (by destruct b).
  pose proof (SFcompare_Some b a Hb' Ha') as Hs.
  pose proof (SFcompare_antisym b a Hb' Ha') as Hanti.
  destruct (SFcompare b a) as [[]|] eqn:E; try done.
  - split; [|done]. unfold double_le, SFleb. by rewrite Hanti.
  - split; [|done]. by apply double_le_refl.
  - split; [|done]. unfold double_le, SFleb. by rewrite Hanti.
Qed.

Lemma double_le_trans a b c :
  double_le a b = true -> double_le b c = true -> double_le a c = true.
Proof.
  unfold double_le, SFleb.
  destruct a as [sa|sa| |sa ma ea], b as [sb|sb| |sb mb eb], c as [sc|sc| |sc mc ec];
    simpl; try done;
    try (destruct sa; try done); try (destruct sb; try done); try (destruct sc; try done).
  all: rewrite ?Pos.compare_cont_spec; unfold Pos.switch_Eq.
  all: destruct (Z.compare_spec ea eb), (Z.compare_spec eb ec), (Z.compare_spec ea ec);
    simpl; try done; try lia.
  all: destruct (Pos.compare_spec ma mb), (Pos.compare_spec mb mc), (Pos.compare_spec ma mc);
    simpl; try done; try lia.
Qed.

Lemma rr_turn_largest q :
  timescales_ok q -> double_is_nan (rr_largest q) = false ->
  match rr_turn q with
  | RContinue q' | RBreak q' =>
      timescales_ok q' /\ double_is_nan (rr_largest q') = false
      /\ double_le (rr_largest q) (rr_largest q') = true
  | _ => True
  end.
Proof.
  unfold timescales_ok, rr_turn. intros Hts Hnan.
  destruct (queue q) as [|sl rest]; [done|].
  inversion Hts as [|? ? Hsl Hrest]; subst.
  assert (Hrot : forall x, media_param (slot_in x) = media_param (slot_in sl) ->
            Forall (fun sl => 0 < timescale (media_param (slot_in sl)) < 2 ^ 32) (rest ++ [x])).
  { intros x Hx. apply Forall_app. split; [done|]. constructor; [by rewrite Hx|done]. }
  pose proof (double_le_refl _ Hnan) as Hrefl.
  destruct (reach_end_of_media_timeline (slot_in sl)); simpl; [simpl; split; [by apply Hrot|split; done]|].
  destruct (lsmash_get_dts_from_media_timeline _ _ _) as [dts|].
  - destruct (double_le _ _ || _).
    + destruct (lsmash_get_sample_from_media_timeline _ _ _); [|done].
      destruct (appendable _); simpl; [|done].
      destruct (LSMASH_MAX_ge (rr_largest q)
                  (double_div (double_of_Z dts)
                     (double_of_Z (timescale (media_param (slot_in sl))))) Hnan) as [H1 H2].
      { by apply double_div_not_nan. }
      simpl; split; [by apply Hrot|split; done].
    + simpl; split; [by apply Hrot|split; done].
  - destruct (lsmash_check_sample_existence_in_media_timeline _ _ _); [done|].
    destruct (_ =? 0); simpl.
    + split; [|done]. by constructor.
    + simpl; split; [by apply Hrot|split; done].
Qed.

Lemma positive_timescales_ok s :
  positive_timescales s = true -> timescales_ok (view s).
Proof.
  unfold positive_timescales, timescales_ok. rewrite forallb_forall. intros H.
  apply Forall_forall. intros sl Hsl. simpl in Hsl.
  assert (Hin : sl ∈ slots s).
  { rewrite <- (take_drop (cursor s) (slots s)).
    apply elem_of_app in Hsl. apply elem_of_app. tauto. }
  unfold slots in Hin. apply number_slots_elem in Hin as [_ Hi].
  apply slots_of_movies_elem in Hi as (mn & tn & m & t & Heq & Hm & Ht).
  injection Heq as _ _ Hr Hti.
  apply list_elem_of_In in Hm, Ht. specialize (H m Hm). rewrite forallb_forall in H.
  specialize (H t Ht). rewrite Hti. lia.
Qed.

Lemma mux_running_largest s0 s :
  at_start_muxing s0 = true -> positive_timescales s0 = true -> mux_running s0 s ->
  timescales_ok (view s) /\ double_is_nan (largest_dts s) = false
  /\ double_le (largest_dts s0) (largest_dts s) = true.
Proof.
  intros H0 Hts Hrun. induction Hrun as [|s s' Hrun IH Hturn].
  - destruct (at_start_muxing_inv _ H0) as (_ & _ & _ & Hl & _).
    split; [by apply positive_timescales_ok|]. by rewrite Hl.
  - destruct IH as (IH1 & IH2 & IH3).
    destruct (mux_running_inv _ _ H0 Hrun) as [[Hok _ _] _].
    pose proof (mux_turn_view s Hok) as Hv. rewrite Hturn in Hv. destruct Hv as [_ Hv].
    pose proof (rr_turn_largest (view s) IH1 IH2) as Hl. rewrite Hv in Hl.
    destruct Hl as (Hl1 & Hl2 & Hl3). repeat split; try done.
    by eapply double_le_trans.
Qed.

Lemma mux_turn_largest s s' :
  mux_turn s = Continue s' \/ mux_turn s = Break s' ->
  (appended s' = appended s /\ largest_dts s' = largest_dts s)
  \/ exists a t, current_in_track s = Some t
       /\ appended s' = appended s ++ [a]
       /\ from_sample_number a = current_sample_number t
       /\ largest_dts s' = LSMASH_MAX (largest_dts s)
                             (double_div (double_of_Z (appended_dts a))
                                (double_of_Z (timescale (media_param t)))).
Proof.
  unfold mux_turn, current_in_track, move_the_next_track, store_turn.
  destruct (array_get (input s) _) as [movie|]; simpl; [|by intros [|]].
  destruct (array_get (track movie) _) as [in_track|]; [|by intros [|]].
  destruct (reach_end_of_media_timeline in_track); simpl.
  { intros [[= <-]|]; [|done]. by left. }
  destruct (array_get (track (output s)) _) as [out_track|]; [|by intros [|]].
  destruct (lsmash_get_dts_from_media_timeline _ _ _) as [dts|].
  - destruct (double_le _ _ || _).
    + destruct (lsmash_get_sample_from_media_timeline _ _ _); [|by intros [|]].
      destruct (appendable _); simpl; [|by intros [|]].
      intros [[= <-]|]; [|done]. right. eexists _, in_track. simpl. done.
    + intros [[= <-]|]; [|done]. by left.
  - destruct (lsmash_check_sample_existence_in_media_timeline _ _ _); [by intros [|]|].
    destruct (_ =? 0); intros [H|H]; try done; injection H as <-; by left.
Qed.

(** With positive timescales the watermark never decreases, from one turn
    to the next and from any state of the run to any later one. *)
Lemma watermark_step_le s0 s s' :
  at_start_muxing s0 = true -> positive_timescales s0 = true ->
  mux_running s0 s ->
  mux_turn s = Continue s' \/ mux_turn s = Break s' ->
  double_le (largest_dts s) (largest_dts s') = true.
Proof.
  intros H0 Hts Hrun Hturn.
  destruct (mux_running_largest _ _ H0 Hts Hrun) as (H1 & H2 & _).
  destruct (mux_running_inv _ _ H0 Hrun) as [[Hok _ _] _].
  pose proof (mux_turn_view s Hok) as Hv.
  pose proof (rr_turn_largest (view s) H1 H2) as Hl.
  destruct Hturn as [Hturn|Hturn]; rewrite Hturn in Hv; destruct Hv as [_ Hv];
    rewrite Hv in Hl; by destruct Hl as (_ & _ & Hl).
Qed.

Lemma watermark_running_le s0 s s' :
  at_start_muxing s0 = true -> positive_timescales s0 = true ->
  mux_running s0 s -> mux_running s s' ->
  mux_running s0 s' /\ double_le (largest_dts s) (largest_dts s') = true.
Proof.
  intros H0 Hts Hrun Hrun'. induction Hrun' as [|x x' Hx IH Hturn].
  - split; [done|]. apply double_le_refl.
    by destruct (mux_running_largest _ _ H0 Hts Hrun) as (_ & ? & _).
  - destruct IH as [IH1 IH2]. split; [by eapply running_turn|].
    eapply double_le_trans; [exact IH2|].
    apply (watermark_step_le s0); [done|done|done|by left].
Qed.

Lemma watermark_later_le s0 s s' :
  at_start_muxing s0 = true -> positive_timescales s0 = true ->
  mux_running s0 s -> mux_reach s s' ->
  double_le (largest_dts s) (largest_dts s') = true.
Proof.
  intros H0 Hts Hrun [Hrun'|(s1 & Hrun' & Hb)].
  - by apply (watermark_running_le s0).
  - destruct (watermark_running_le s0 s s1 H0 Hts Hrun Hrun') as [H1 H2].
    eapply double_le_trans; [exact H2|].
    apply (watermark_step_le s0); [done|done|done|by right].
Qed.

(** * [double]: quotients by a timescale *)

Lemma shr_1_div2 mrs : 0 <= shr_m mrs -> shr_m (shr_1 mrs) = shr_m mrs / 2.
Proof.
  intros H. rewrite <- Z.div2_div. destruct mrs as [[|[p|p|]|p] r s]; simpl in *; try done; lia.
Qed.

Lemma pow2_xO n : 2 ^ Zpos n~0 = 2 ^ Zpos n * 2 ^ Zpos n.
Proof. replace (Zpos n~0) with (Zpos n + Zpos n) by lia. by rewrite Z.pow_add_r by lia. Qed.

Lemma pow2_xI n : 2 ^ Zpos n~1 = 2 * (2 ^ Zpos n * 2 ^ Zpos n).
Proof.
  replace (Zpos n~1) with (Z.succ (Zpos n + Zpos n)) by lia.
  by rewrite Z.pow_succ_r, Z.pow_add_r by lia.
Qed.

Lemma shr_m_iter n mrs :
  0 <= shr_m mrs ->
  shr_m (SpecFloat.iter_pos shr_1 n mrs) = shr_m mrs / 2 ^ Zpos n.
Proof.
  revert mrs. induction n as [n IH|n IH|]; intros mrs H; simpl SpecFloat.iter_pos.
  - assert (H1 : 0 <= shr_m (shr_1 mrs)) by (by apply shr_1_nonneg).
    assert (H2 : 0 <= shr_m (SpecFloat.iter_pos shr_1 n (shr_1 mrs)))
      by (rewrite IH by done; apply Z.div_pos; lia).
    rewrite IH, IH, shr_1_div2 by done.
    rewrite !Z.div_div by lia. by rewrite pow2_xI.
  - assert (H2 : 0 <= shr_m (SpecFloat.iter_pos shr_1 n mrs))
      by (rewrite IH by done; apply Z.div_pos; lia).
    rewrite IH, IH by done. rewrite Z.div_div by lia. by rewrite pow2_xO.
  - rewrite shr_1_div2 by done. done.
Qed.

Lemma Zdigits2_bounds m : 0 < m -> 2 ^ (Zdigits2 m - 1) <= m < 2 ^ Zdigits2 m.
Proof. intros H. destruct m as [|p|p]; try lia. apply digits2_pos_bounds. Qed.

(** Shifting [m] down to 53 binary digits, as [shr_fexp] does away from
    the subnormal range: the shift does not depend on the exponent. *)
Lemma shr_to_53 m l e :
  0 < m -> -1000 <= e ->
  exists mrs k,
    shr_fexp 53 1024 m e l = (mrs, e + k)
    /\ shr (shr_record_of_loc m l) 0 (Zdigits2 m - 53) = (mrs, k)
    /\ 0 <= k <= Z.max 0 (Zdigits2 m - 53)
    /\ (53 <= Zdigits2 m -> 2 ^ 52 <= shr_m mrs < 2 ^ 53)
    /\ (Zdigits2 m <= 53 -> shr_m mrs = m)
    /\ shr_m mrs <= m.
Proof.
  intros Hm He. unfold shr_fexp.
  pose proof (Zdigits2_nonneg m) as Hd.
  pose proof (Zdigits2_bounds m Hm) as [Hlo Hhi].
  assert (Hf : fexp 53 1024 (Zdigits2 m + e) - e = Zdigits2 m - 53)
    by (unfold fexp, emin; lia).
  rewrite Hf. unfold shr.
  destruct (Zdigits2 m - 53) as [|n|n] eqn:Hn.
  - exists (shr_record_of_loc m l), 0. rewrite Z.add_0_r, shr_record_of_loc_m.
    repeat split; try done; try lia.
    + replace 52 with (Zdigits2 m - 1) by lia. done.
    + replace 53 with (Zdigits2 m) by lia. done.
  - exists (SpecFloat.iter_pos shr_1 n (shr_record_of_loc m l)), (Zpos n).
    rewrite shr_m_iter, shr_record_of_loc_m by (rewrite shr_record_of_loc_m; lia).
    repeat split; try done; try lia.
    + apply Z.div_le_lower_bound; [lia|].
      rewrite <- Z.pow_add_r by lia.
      replace (Zpos n + 52) with (Zdigits2 m - 1) by lia. done.
    + apply Z.div_lt_upper_bound; [lia|].
      rewrite <- Z.pow_add_r by lia.
      replace (Zpos n + 53) with (Zdigits2 m) by lia. done.
    + apply Z.div_le_upper_bound; [lia|].
      assert (0 < 2 ^ Zpos n) by (apply Z.pow_pos_nonneg; lia). nia.
  - exists (shr_record_of_loc m l), 0. rewrite Z.add_0_r, shr_record_of_loc_m.
    repeat split; try done; lia.
Qed.

Lemma shr_to_53_pos m l e :
  0 < m -> -1000 <= e ->
  exists mrs k,
    shr_fexp 53 1024 m e l = (mrs, e + k)
    /\ shr (shr_record_of_loc m l) 0 (Zdigits2 m - 53) = (mrs, k)
    /\ 0 <= k <= Z.max 0 (Zdigits2 m - 53)
    /\ 0 < shr_m mrs <= m.
Proof.
  intros Hm He.
  destruct (shr_to_53 m l e Hm He) as (mrs & k & H1 & H2 & H3 & H4 & H5 & H6).
  exists mrs, k. split; [done|]. split; [done|]. split; [done|]. split; [|done].
  destruct (Z.le_gt_cases 53 (Zdigits2 m)) as [H|H].
  - specialize (H4 H). assert (0 < 2 ^ 52) by done. lia.
  - rewrite H5 by lia. done.
Qed.

Lemma round_nearest_even_bounds m l : m <= round_nearest_even m l <= m + 1.
Proof. destruct l as [|[]]; simpl; try lia. destruct (Z.even m); lia. Qed.

(** Rounding a positive quotient to binary64 gives the same mantissa at every
    exponent of the normal range; the exponent only moves along. *)
Lemma binary_round_aux_shift q l :
  0 < q < 2 ^ 200 ->
  exists m k, 0 <= k <= 300 /\
    forall e, -800 <= e <= 0 ->
      binary_round_aux 53 1024 false q e l = S754_finite false m (e + k).
Proof.
  intros [Hq0 Hq1].
  destruct (shr_to_53_pos q l 0 Hq0 ltac:(lia)) as (mrs & k & _ & Hs & Hk & Hm).
  set (r := round_nearest_even (shr_m mrs) (loc_of_shr_record mrs)).
  pose proof (round_nearest_even_bounds (shr_m mrs) (loc_of_shr_record mrs)) as Hr.
  fold r in Hr.
  assert (Hr0 : 0 < r) by lia.
  destruct (shr_to_53_pos r loc_Exact 0 Hr0 ltac:(lia)) as (mrs2 & k2 & _ & Hs2 & Hk2 & Hm2).
  assert (Hd : Zdigits2 q <= 200) by (apply Zdigits2_le; [lia|split; [lia|done]]).
  assert (Hr1 : r < 2 ^ 201)
    by (replace 201 with (Z.succ 200) by lia; rewrite Z.pow_succ_r by lia; lia).
  assert (Hd2 : Zdigits2 r <= 201) by (apply Zdigits2_le; [lia|split; [lia|done]]).
  destruct (shr_m mrs2) as [|p|p] eqn:Hp; try lia.
  exists p, (k + k2). split; [lia|]. intros e He.
  unfold binary_round_aux.
  destruct (shr_to_53_pos q l e Hq0 ltac:(lia)) as (mrs' & k' & -> & Hs' & _).
  rewrite Hs in Hs'. injection Hs' as <- <-. fold r.
  destruct (shr_to_53_pos r loc_Exact (e + k) Hr0 ltac:(lia)) as (mrs'' & k'' & -> & Hs'' & _).
  rewrite Hs2 in Hs''. injection Hs'' as <- <-.
  rewrite Hp. replace (e + k + k2 <=? 1024 - 53) with true by (symmetry; apply Z.leb_le; lia).
  by rewrite Z.add_assoc.
Qed.

Lemma double_div_finite e1 my ey :
  Zpos (digits2_pos my) = 53 -> -52 <= ey <= 0 -> -52 <= e1 <= 0 ->
  double_div (S754_finite false 4503599627370496 e1) (S754_finite false my ey)
  = binary_round_aux 53 1024 false (fst (Z.div_eucl (2 ^ 105) (Zpos my))) (e1 - ey - 53)
      (new_location (Zpos my) (snd (Z.div_eucl (2 ^ 105) (Zpos my)))).
Proof.
  intros Hd Hey He1. unfold double_div, SFdiv, SFdiv_core_binary.
  change (Zdigits2 (Zpos 4503599627370496)) with 53.
  change (Zdigits2 (Zpos my)) with (Zpos (digits2_pos my)). rewrite Hd.
  replace (Z.min (fexp 53 1024 (53 + e1 - (53 + ey))) (e1 - ey)) with (e1 - ey - 53)
    by (unfold fexp, emin; lia).
  replace (e1 - ey - (e1 - ey - 53)) with 53 by lia.
  change (Z.shiftl (Zpos 4503599627370496) 53) with (2 ^ 105).
  by destruct (Z.div_eucl (2 ^ 105) (Zpos my)).
Qed.

(** The three quotients of the scenario, for every timescale: [0 / ts] is
    zero, and [2 / ts] has the mantissa of [1 / ts] and the next exponent. *)
Lemma timescale_quotients ts :
  0 < ts < 2 ^ 32 ->
  exists m e,
    double_div (double_of_Z 0) (double_of_Z ts) = double_zero
    /\ double_div (double_of_Z 1) (double_of_Z ts) = S754_finite false m e
    /\ double_div (double_of_Z 2) (double_of_Z ts) = S754_finite false m (e + 1).
Proof.
  intros [H0 H1]. destruct ts as [|p|p]; try lia.
  assert (Hd : Zpos (digits2_pos p) <= 32)
    by (apply (Zdigits2_le (Zpos p) 32); [lia|split; [lia|done]]).
  rewrite double_of_Z_small by lia.
  set (my := Pos.iter xO p (Z.to_pos (53 - Zpos (digits2_pos p)))).
  set (ey := Zpos (digits2_pos p) - 53).
  assert (Hmy : Zpos (digits2_pos my) = 53).
  { unfold my. rewrite digits2_pos_iter_xO. rewrite Z2Pos.id by lia. lia. }
  pose proof (digits2_pos_bounds my) as [Hlo Hhi]. rewrite Hmy in Hlo, Hhi.
  change (53 - 1) with 52 in Hlo.
  set (q := fst (Z.div_eucl (2 ^ 105) (Zpos my))).
  set (l := new_location (Zpos my) (snd (Z.div_eucl (2 ^ 105) (Zpos my)))).
  assert (Hq : 0 < q < 2 ^ 200).
  { assert (E : q = 2 ^ 105 / Zpos my) by done. rewrite E. split.
    - apply Z.div_str_pos. split; [lia|].
      apply Z.le_trans with (2 ^ 53); [lia|]. by apply Z.pow_le_mono_r.
    - apply Z.div_lt_upper_bound; [lia|].
      assert (2 ^ 105 < 2 ^ 200) by (by apply Z.pow_lt_mono_r).
      assert (0 < 2 ^ 200) by (by apply Z.pow_pos_nonneg). nia. }
  destruct (binary_round_aux_shift q l Hq) as (m & k & Hk & Hround).
  assert (Hey : -52 <= ey <= 0) by (unfold ey; lia).
  exists m, (-52 - ey - 53 + k). split; [done|].
  change (double_of_Z 1) with (S754_finite false 4503599627370496 (-52)).
  change (double_of_Z 2) with (S754_finite false 4503599627370496 (-51)).
  rewrite !double_div_finite by (done || lia). fold q l.
  rewrite !Hround by lia. split; f_equal; lia.
Qed.

(** * The scenario of two sources *)

Lemma mux_run_S n s :
  mux_run (S n) s
  = match mux_turn s with
    | Continue s' => mux_run n s'
    | Break s' => Finished s'
    | Abort e => Aborted e
    | Fault => Faulted
    end.
Proof. done. Qed.

Lemma mux_run_more n : forall s0 s k,
  mux_run n s0 = Finished s -> mux_run (n + k) s0 = Finished s.
Proof.
  induction n as [|n IH]; intros s0 s k; simpl; [done|].
  destruct (mux_turn s0); try done. apply IH.
Qed.

Lemma scenario_order_finite m e :
  scenario_order (S754_finite false m e) (S754_finite false m (e + 1)).
Proof.
  assert (E1 : (e ?= e + 1) = Lt) by (apply Z.compare_lt_iff; lia).
  assert (E2 : (e + 1 ?= e) = Gt) by (apply Z.compare_gt_iff; lia).
  split; unfold double_le, double_gt, double_zero, SFleb, SFltb, SFcompare;
    rewrite ?E1, ?E2, ?Z.compare_refl, ?Pos.compare_cont_refl; try done.
Qed.

Lemma le_0_0 : double_le double_zero double_zero = true.
Proof. done. Qed.

Lemma gt_0_0 : double_gt double_zero double_zero = false.
Proof. done. Qed.

(** One turn of the loop in a state whose timestamps are 0, 1 and 2: the
    turn is computed up to the comparisons of the quotients, which [Ho]
    and [H0] decide. *)
Ltac scenario_turn Ho H0 :=
  rewrite mux_run_S;
  match goal with
  | |- context [mux_turn ?s] =>
    let t := fresh "t" in
    set (t := mux_turn s);
    lazy -[double_div double_of_Z double_le double_gt double_zero] in t;
    subst t
  end;
  rewrite ?H0, ?le_0_0, ?gt_0_0;
  rewrite ?(le_0_1 _ _ Ho), ?(le_0_2 _ _ Ho), ?(le_1_0 _ _ Ho), ?(le_1_1 _ _ Ho),
    ?(le_1_2 _ _ Ho), ?(le_2_0 _ _ Ho), ?(le_2_1 _ _ Ho), ?(le_2_2 _ _ Ho),
    ?(gt_0_1 _ _ Ho), ?(gt_0_2 _ _ Ho), ?(gt_1_0 _ _ Ho), ?(gt_1_1 _ _ Ho),
    ?(gt_1_2 _ _ Ho), ?(gt_2_0 _ _ Ho), ?(gt_2_1 _ _ Ho), ?(gt_2_2 _ _ Ho);
  cbv beta iota.

Lemma scenario_run ts :
  0 < ts < 2 ^ 32 ->
  exists s,
    mux_run 11 (two_sources ts [0; 1; 2] [0; 2]) = Finished s
    /\ transfers s = [(1, 1, 0); (2, 1, 0); (1, 2, 1); (2, 2, 2); (1, 3, 2)].
Proof.
  intros Hts. destruct (timescale_quotients ts Hts) as (m & e & H0 & H1 & H2).
  pose proof (scenario_order_finite m e) as Ho. rewrite <- H1, <- H2 in Ho.
  clear H1 H2.
  eexists. split.
  - set (s0 := two_sources ts [0; 1; 2] [0; 2]). vm_compute in s0. subst s0.
    change (S754_zero false) with double_zero.
    do 11 scenario_turn Ho H0. reflexivity.
  - reflexivity.
Qed.

(** C1, as the code has it: with equal timescales [ts], the two sources
    with the timestamps 0, 1, 2 and 0, 2 are muxed in eleven turns, and the
    samples go out in the order (S1,1)@0, (S2,1)@0, (S1,2)@1, (S2,2)@2,
    (S1,3)@2: after (S1,2)@1 the loop is at the second source, both
    pending samples are declined once, and the escape valve then takes the
    sample under the cursor, which is the one of the second source. *)
Theorem scenario_transfer_order ts :
  0 < ts < 2 ^ 32 ->
  exists s,
    (forall n, (11 <= n)%nat -> mux_run n (two_sources ts [0; 1; 2] [0; 2]) = Finished s)
    /\ num_active_input_tracks s = 0
    /\ transfers s = [(1, 1, 0); (2, 1, 0); (1, 2, 1); (2, 2, 2); (1, 3, 2)].
Proof.
  intros Hts. destruct (scenario_run ts Hts) as (s & Hrun & Htr).
  exists s. split; [|split; [|done]].
  - intros n Hn. replace n with (11 + (n - 11))%nat by lia. by apply mux_run_more.
  - apply mux_run_Finished in Hrun as (s1 & _ & Hb). by eapply mux_turn_Break_active.
Qed.

Lemma scenario_transfer_order_witness :
  exists s,
    (forall n, (11 <= n)%nat -> mux_run n (two_sources 90000 [0; 1; 2] [0; 2]) = Finished s)
    /\ num_active_input_tracks s = 0
    /\ transfers s = [(1, 1, 0); (2, 1, 0); (1, 2, 1); (2, 2, 2); (1, 3, 2)].
Proof. apply (scenario_transfer_order 90000). lia. Defined.

(** C1 as the specification words it fails: at timescale 1 the third
    sample of the first source is the last one to go out, not the fourth. *)
Lemma scenario_order_of_specification_fails :
  exists s,
    mux_run 11 (two_sources 1 [0; 1; 2] [0; 2]) = Finished s
    /\ transfers s = [(1, 1, 0); (2, 1, 0); (1, 2, 1); (2, 2, 2); (1, 3, 2)]
    /\ transfers s <> [(1, 1, 0); (2, 1, 0); (1, 2, 1); (1, 3, 2); (2, 2, 2)].
Proof. eexists. split; [vm_compute; reflexivity|]. split; [reflexivity|discriminate]. Qed.

(** * Compatible brands *)

Lemma array_read_nat (a : list Z) (i : nat) x :
  a !! i = Some x -> array_read a (Z.of_nat i) = x.
Proof.
  intros H. unfold array_read. rewrite array_get_nat by lia.
  by rewrite Nat2Z.id, H.
Qed.

Lemma brand_exists_spec ob n j turns :
  brand_exists ob n j turns = true
  <-> exists p, (p < turns)%nat /\ array_read ob n = array_read ob (j + Z.of_nat p).
Proof.
  revert j. induction turns as [|turns IH]; intros j; simpl.
  - split; [done|]. intros (p & Hp & _). lia.
  - destruct (Z.eqb_spec (array_read ob n) (array_read ob j)) as [E|E].
    + split; [|done]. intros _. exists 0%nat. split; [lia|]. by rewrite Z.add_0_r.
    + rewrite IH. split.
      * intros (p & Hp & Hr). exists (S p). split; [lia|].
        rewrite Hr. f_equal. lia.
      * intros ([|p] & Hp & Hr).
        -- by rewrite Z.add_0_r in Hr.
        -- exists p. split; [lia|]. rewrite Hr. f_equal. lia.
Qed.

Lemma brand_exists_insert ob (n : nat) brand :
  (n < length ob)%nat ->
  brand_exists (<[n := brand]> ob) (Z.of_nat n) 0 n = true <-> brand ∈ take n ob.
Proof.
  intros Hn. rewrite brand_exists_spec.
  rewrite (array_read_nat _ n brand) by (by apply list_lookup_insert_eq).
  split.
  - intros (p & Hp & Hr). apply list_elem_of_lookup. exists p.
    rewrite lookup_take_lt by done.
    destruct (lookup_lt_is_Some_2 ob p ltac:(lia)) as [x Hx].
    rewrite Z.add_0_l, (array_read_nat _ p x) in Hr
      by (rewrite list_lookup_insert_ne by lia; done).
    by rewrite Hx, Hr.
  - intros Hin. apply list_elem_of_lookup in Hin as [p Hp].
    assert (Hlt : (p < n)%nat).
    { apply lookup_lt_Some in Hp. rewrite length_take in Hp. lia. }
    rewrite lookup_take_lt in Hp by done.
    exists p. split; [done|].
    rewrite Z.add_0_l, (array_read_nat _ p brand)
      by (rewrite list_lookup_insert_ne by lia; done). done.
Qed.

Lemma deduplicate_brands_spec todo : forall ob (n : nat),
  (n + length todo <= length ob)%nat -> Z.of_nat (length ob) < 2 ^ 32 ->
  let res := foldl see (take n ob) (filter (fun b => b <> 0) todo) in
  exists ob', deduplicate_brands todo ob (Z.of_nat n) = (ob', Z.of_nat (length res))
              /\ take (length res) ob' = res.
Proof.
  induction todo as [|brand todo IH]; intros ob n Hlen Hob; simpl in *.
  - rewrite length_take, Nat.min_l by lia. by exists ob.
  - destruct (Z.eqb_spec brand 0) as [->|Hne].
    + rewrite filter_cons_False by (intros H; by apply H).
      apply IH; [lia|done].
    + rewrite filter_cons_True by done. simpl foldl.
      rewrite array_set_nat, Nat2Z.id by lia.
      pose proof (brand_exists_insert ob n brand ltac:(lia)) as Hex.
      destruct (decide (brand ∈ take n ob)) as [Hin|Hin].
      * rewrite (proj2 Hex Hin).
        assert (Hs : see (take n ob) brand = take n ob)
          by (unfold see; by rewrite decide_True).
        rewrite Hs.
        assert (0 < n)%nat by (destruct n; [by apply elem_of_nil in Hin|lia]).
        rewrite (uint32_small (Z.of_nat n - 1)) by lia.
        replace (Z.of_nat n - 1 + 1) with (Z.of_nat n) by lia.
        rewrite uint32_small by lia.
        rewrite <- (take_insert_ge ob n n brand) by lia.
        apply IH; rewrite length_insert; [lia|done].
      * assert (E : brand_exists (<[n:=brand]> ob) (Z.of_nat n) 0 n = false).
        { apply not_true_is_false. intros E. by apply Hex in E. }
        rewrite E.
        rewrite uint32_small by lia.
        replace (Z.of_nat n + 1) with (Z.of_nat (S n)) by lia.
        assert (Ht : see (take n ob) brand = take (S n) (<[n:=brand]> ob)).
        { unfold see. rewrite decide_False by done.
          rewrite (take_S_r _ _ brand) by (apply list_lookup_insert_eq; lia).
          by rewrite take_insert_ge by lia. }
        rewrite Ht. apply IH; rewrite length_insert; [lia|done].
Qed.

Lemma input_brands_of_ok input :
  brands_ok input -> input_brands_of input = compatible_brands input.
Proof.
  unfold input_brands_of, compatible_brands. induction 1 as [|m input Hm _ IH]; [done|].
  simpl. rewrite IH, Hm, Nat2Z.id. by rewrite firstn_all.
Qed.

Lemma num_input_brands_ok input : forall n,
  brands_ok input ->
  0 <= n -> n + Z.of_nat (length (compatible_brands input)) < 2 ^ 32 ->
  foldl (fun n m => uint32 (n + number_of_brands (movie_param m))) n input
  = n + Z.of_nat (length (compatible_brands input)).
Proof.
  unfold compatible_brands.
  induction input as [|m input IH]; intros n Hok Hn Hlt; csimpl in *; [lia|].
  apply Forall_cons in Hok as [Hm Hok]. rewrite length_app in *.
  rewrite Hm, uint32_small by lia. rewrite IH by (done || lia). lia.
Qed.

Lemma output_brands_spec initial input :
  brands_ok input ->
  Z.of_nat (length (compatible_brands input)) < 2 ^ 32 ->
  let out := output_movie_parameters initial input in
  let expected := first_seen (filter (fun b => b <> 0) (compatible_brands input)) in
  brands out = expected /\ number_of_brands out = Z.of_nat (length expected).
Proof.
  intros Hok Hlt. unfold output_movie_parameters.
  destruct (most_used_major_brand _ _ _ _ _ _) as [[? out_major] out_minor].
  rewrite num_input_brands_ok, Z.add_0_l, Nat2Z.id, input_brands_of_ok by (done || lia).
  set (l := compatible_brands input) in *.
  destruct (deduplicate_brands_spec l (replicate (length l) 0) 0) as (ob' & Hd & Ht).
  { rewrite length_replicate. lia. }
  { by rewrite length_replicate. }
  change (Z.of_nat 0) with 0 in Hd. rewrite take_0 in Hd, Ht. rewrite Hd. simpl.
  by rewrite Nat2Z.id.
Qed.

Lemma see_new `{EqDecision A} (seen : list A) x : x ∉ seen -> see seen x = seen ++ [x].
Proof. intros H. unfold see. by rewrite decide_False. Qed.

Lemma see_old `{EqDecision A} (seen : list A) x : x ∈ seen -> see seen x = seen.
Proof. intros H. unfold see. by rewrite decide_True. Qed.

Lemma first_seen_example (X Y Z : Z) :
  X <> Y -> X <> Z -> Y <> Z -> first_seen [X; Y; Y; Z] = [X; Y; Z].
Proof.
  intros H1 H2 H3. unfold first_seen. simpl.
  rewrite (see_new [] X) by apply not_elem_of_nil. simpl.
  rewrite (see_new [X] Y)
    by (intros Hin; apply list_elem_of_singleton in Hin; congruence).
  simpl. rewrite (see_old [X; Y] Y) by (apply elem_of_cons; right; apply elem_of_cons; by left).
  rewrite (see_new [X; Y] Z); [done|].
  intros Hin. apply elem_of_cons in Hin as [Hin|Hin]; [congruence|].
  apply list_elem_of_singleton in Hin. congruence.
Qed.

(** The sets [{X, Y}] and [{Y, Z}] of the specification. *)
Lemma output_brands_example initial a b c d (X Y Z : Z) :
  X <> 0 -> Y <> 0 -> Z <> 0 -> X <> Y -> X <> Z -> Y <> Z ->
  brands (output_movie_parameters initial
            [source_of_brands a b [X; Y]; source_of_brands c d [Y; Z]])
  = [X; Y; Z].
Proof.
  intros HX HY HZ H1 H2 H3.
  destruct (output_brands_spec initial
              [source_of_brands a b [X; Y]; source_of_brands c d [Y; Z]]) as [-> _].
  - by repeat constructor.
  - done.
  - change (compatible_brands _) with [X; Y; Y; Z].
    rewrite !filter_cons_True by done. by apply first_seen_example.
Qed.

(** C7, as the code has it: the output carries every compatible brand of
    the sources that is not the zero tag, once, in the order in which the
    brands are first seen over the sources in source order. *)
Theorem compatible_brands_deduplicated initial input :
  brands_ok input ->
  Z.of_nat (length (compatible_brands input)) < 2 ^ 32 ->
  brands (output_movie_parameters initial input)
  = first_seen (filter (fun b => b <> 0) (compatible_brands input))
  /\ number_of_brands (output_movie_parameters initial input)
     = Z.of_nat (length (brands (output_movie_parameters initial input))).
Proof.
  intros Hok Hlt. destruct (output_brands_spec initial input Hok Hlt) as [H1 H2].
  split; [done|]. by rewrite H2, H1.
Qed.

Lemma compatible_brands_deduplicated_witness :
  brands (output_movie_parameters zero_movie_parameters
            [source_of_brands 1 0 [10; 20]; source_of_brands 1 0 [20; 30]])
  = [10; 20; 30]
  /\ number_of_brands (output_movie_parameters zero_movie_parameters
            [source_of_brands 1 0 [10; 20]; source_of_brands 1 0 [20; 30]])
     = 3.
Proof.
  apply (compatible_brands_deduplicated zero_movie_parameters
           [source_of_brands 1 0 [10; 20]; source_of_brands 1 0 [20; 30]]).
  - repeat constructor.
  - vm_compute. reflexivity.
Defined.

(** C7 as the specification words it fails on a zero tag: the tag is in
    the union of the sources' brands, and the output drops it. *)
Lemma compatible_brands_union_fails :
  first_seen (compatible_brands [source_of_brands 1 0 [0; 10]]) = [0; 10]
  /\ brands (output_movie_parameters zero_movie_parameters [source_of_brands 1 0 [0; 10]])
     = [10]
  /\ brands (output_movie_parameters zero_movie_parameters [source_of_brands 1 0 [0; 10]])
     <> first_seen (compatible_brands [source_of_brands 1 0 [0; 10]]).
Proof. split; [|split]; vm_compute; (reflexivity || discriminate). Qed.

(** * The major brand *)

Lemma foldl_see_prefix `{EqDecision A} (l : list A) : forall acc,
  exists extra, foldl see acc l = acc ++ extra.
Proof.
  induction l as [|x l IH]; intros acc; simpl.
  - exists []. by rewrite app_nil_r.
  - destruct (IH (see acc x)) as [extra ->]. unfold see. case_decide.
    + by exists extra.
    + exists (x :: extra). by rewrite <- app_assoc.
Qed.

Lemma elem_of_foldl_see `{EqDecision A} (l : list A) : forall acc x,
  x ∈ foldl see acc l <-> x ∈ acc \/ x ∈ l.
Proof.
  induction l as [|y l IH]; intros acc x; simpl.
  - rewrite elem_of_nil. tauto.
  - rewrite IH, elem_of_cons. unfold see. case_decide as Hy.
    + split; [tauto|]. intros [H|[->|H]]; tauto.
    + rewrite elem_of_app, list_elem_of_singleton. tauto.
Qed.

Lemma elem_of_first_seen `{EqDecision A} (l : list A) x : x ∈ first_seen l <-> x ∈ l.
Proof. unfold first_seen. rewrite elem_of_foldl_see, elem_of_nil. tauto. Qed.

Lemma first_seen_snoc `{EqDecision A} (l : list A) x :
  first_seen (l ++ [x]) = see (first_seen l) x.
Proof. unfold first_seen. by rewrite foldl_app. Qed.

Lemma first_seen_app `{EqDecision A} (l1 l2 : list A) :
  exists extra, first_seen (l1 ++ l2) = first_seen l1 ++ extra.
Proof. unfold first_seen. rewrite foldl_app. apply foldl_see_prefix. Qed.

Lemma length_foldl_see `{EqDecision A} (l : list A) : forall acc,
  (length (foldl see acc l) <= length acc + length l)%nat.
Proof.
  induction l as [|x l IH]; intros acc; simpl; [lia|].
  etrans; [apply IH|]. unfold see. case_decide; rewrite ?length_app; simpl; lia.
Qed.

Lemma length_first_seen `{EqDecision A} (l : list A) :
  (length (first_seen l) <= length l)%nat.
Proof. apply (length_foldl_see l []). Qed.

Lemma NoDup_foldl_see `{EqDecision A} (l : list A) : forall acc,
  NoDup acc -> NoDup (foldl see acc l).
Proof.
  induction l as [|x l IH]; intros acc Hacc; simpl; [done|].
  apply IH. unfold see. case_decide; [done|].
  apply NoDup_app. split; [done|]. split; [|apply NoDup_singleton].
  intros y Hy Hx. apply list_elem_of_singleton in Hx. by subst.
Qed.

Lemma NoDup_first_seen `{EqDecision A} (l : list A) : NoDup (first_seen l).
Proof. apply NoDup_foldl_see, NoDup_nil_2. Qed.

Section major_brand_count.
Variable i : Z.
Variable K : Z * Z.

Lemma holds_key_test mb m :
  holds_key K mb ->
  (array_read (mb_major_brand mb) (num_major_brand mb) =? major_brand (movie_param m))
  && (array_read (mb_minor_version mb) (num_major_brand mb) =? minor_version (movie_param m))
  = bool_decide (brand_key m = K).
Proof.
  intros [-> ->]. destruct K as [M V]. unfold brand_key. simpl.
  destruct (Z.eqb_spec M (major_brand (movie_param m))) as [E1|E1];
    destruct (Z.eqb_spec V (minor_version (movie_param m))) as [E2|E2]; simpl;
    symmetry; (apply bool_decide_eq_true || apply bool_decide_eq_false); congruence.
Qed.

Lemma count_major_brand_other l : forall j mb rest,
  holds_key K mb ->
  Forall (fun m => brand_key m <> K) l ->
  count_major_brand i j (l ++ rest) mb
  = count_major_brand i (j + Z.of_nat (length l)) rest mb.
Proof.
  induction l as [|m l IH]; intros j mb rest Hk Hl; simpl.
  - by rewrite Z.add_0_r.
  - apply Forall_cons in Hl as [Hm Hl].
    rewrite holds_key_test, bool_decide_eq_false_2 by done.
    rewrite IH by done. f_equal. lia.
Qed.

Lemma count_major_brand_exists l : forall j mb rest,
  holds_key K mb ->
  Exists (fun m => brand_key m = K) l ->
  j + Z.of_nat (length l) <= i ->
  count_major_brand i j (l ++ rest) mb
  = {| mb_major_brand := mb_major_brand mb;
       mb_minor_version := mb_minor_version mb;
       mb_major_brand_count := array_set (mb_major_brand_count mb) (num_major_brand mb) 0;
       num_major_brand := uint32 (num_major_brand mb - 1) |}.
Proof.
  induction l as [|m l IH]; intros j mb rest Hk Hl Hj; simpl in *.
  - by apply Exists_nil in Hl.
  - rewrite holds_key_test by done.
    destruct (decide (brand_key m = K)) as [Hm|Hm].
    + rewrite bool_decide_eq_true_2 by done.
      destruct (Z.leb_spec i j); [lia|done].
    + rewrite bool_decide_eq_false_2 by done.
      apply Exists_cons in Hl as [Hl|Hl]; [done|].
      apply IH; [done|done|lia].
Qed.

Lemma count_major_brand_count l : forall j mb (n : nat) c,
  holds_key K mb ->
  i <= j ->
  num_major_brand mb = Z.of_nat n ->
  mb_major_brand_count mb !! n = Some c ->
  0 <= c -> c + Z.of_nat (length l) < 2 ^ 32 ->
  count_major_brand i j l mb
  = {| mb_major_brand := mb_major_brand mb;
       mb_minor_version := mb_minor_version mb;
       mb_major_brand_count :=
         <[n := c + Z.of_nat (length (filter (fun m => brand_key m = K) l))]>
           (mb_major_brand_count mb);
       num_major_brand := Z.of_nat n |}.
Proof.
  induction l as [|m l IH]; intros j mb n c Hk Hj Hn Hc Hc0 Hlt; simpl in *.
  - rewrite Z.add_0_r, list_insert_id by done. destruct mb; simpl in *. by subst.
  - rewrite holds_key_test by done.
    destruct (decide (brand_key m = K)) as [Hm|Hm].
    + rewrite bool_decide_eq_true_2 by done.
      destruct (Z.leb_spec i j); [|lia].
      rewrite filter_cons_True by done. rewrite Hn.
      rewrite (array_read_nat _ n c), array_set_nat, Nat2Z.id by (done || lia).
      rewrite uint32_small by lia.
      rewrite (IH (j + 1) _ n (c + 1)); simpl; try done; try lia.
      * rewrite list_insert_insert_eq. do 2 f_equal. simpl length. lia.
      * destruct Hk as [H1 H2]. split; simpl; by rewrite <- Hn.
      * apply list_lookup_insert_eq. by apply lookup_lt_Some in Hc.
    + rewrite bool_decide_eq_false_2 by done.
      rewrite filter_cons_False by done.
      apply IH; try done; lia.
Qed.
End major_brand_count.

Lemma key_count_app l1 l2 k : key_count (l1 ++ l2) k = (key_count l1 k + key_count l2 k)%nat.
Proof. unfold key_count. by rewrite filter_app, length_app. Qed.

Lemma key_count_le l k : (key_count l k <= length l)%nat.
Proof. apply length_filter. Qed.

Lemma key_count_none l k : k ∉ brand_key <$> l -> key_count l k = 0%nat.
Proof.
  intros H. unfold key_count. induction l as [|m l IH]; [done|].
  rewrite fmap_cons, not_elem_of_cons in H. destruct H as [H1 H2].
  rewrite filter_cons_False by done. by apply IH.
Qed.

Lemma key_count_pos l m : m ∈ l -> (0 < key_count l (brand_key m))%nat.
Proof.
  intros H. apply list_elem_of_split in H as (l1 & l2 & ->).
  rewrite key_count_app. unfold key_count at 2.
  rewrite filter_cons_True by done. simpl. lia.
Qed.

(** One turn of the loop over [i], lines 175-192. *)
Lemma pick_major_brands_step input pre m todo mb :
  input = pre ++ m :: todo ->
  Z.of_nat (length input) < 2 ^ 31 ->
  table_ok input (first_seen (brand_key <$> pre)) mb ->
  let n := num_major_brand mb in
  let mb1 :=
    {| mb_major_brand := array_set (mb_major_brand mb) n (major_brand (movie_param m));
       mb_minor_version := array_set (mb_minor_version mb) n (minor_version (movie_param m));
       mb_major_brand_count := array_set (mb_major_brand_count mb) n 0;
       num_major_brand := n |} in
  let mb2 := count_major_brand (Z.of_nat (length pre)) 0 input mb1 in
  table_ok input (first_seen (brand_key <$> (pre ++ [m])))
    {| mb_major_brand := mb_major_brand mb2;
       mb_minor_version := mb_minor_version mb2;
       mb_major_brand_count := mb_major_brand_count mb2;
       num_major_brand := uint32 (num_major_brand mb2 + 1) |}.
Proof.
  intros Hinput Hlt [Hnum Hmaj Hmin Hcnt Hent] n mb1 mb2.
  set (ks := first_seen (brand_key <$> pre)) in *.
  set (K := brand_key m).
  assert (Hks : (length ks <= length pre)%nat).
  { unfold ks. etrans; [apply length_first_seen|]. by rewrite length_fmap. }
  assert (Hpre : (length pre < length input)%nat).
  { rewrite Hinput, length_app. simpl. lia. }
  assert (Hn : n = Z.of_nat (length ks)) by done.
  assert (Hk1 : holds_key K mb1).
  { unfold holds_key, mb1. simpl. rewrite Hn, !array_set_nat, !Nat2Z.id by lia.
    split; apply array_read_nat, list_lookup_insert_eq; lia. }
  rewrite fmap_app. change (brand_key <$> [m]) with [K].
  rewrite first_seen_snoc. fold ks.
  destruct (decide (K ∈ brand_key <$> pre)) as [Hin|Hin].
  - (* the key is in the table already *)
    assert (Hmb2 : mb2 = {| mb_major_brand := mb_major_brand mb1;
         mb_minor_version := mb_minor_version mb1;
         mb_major_brand_count := array_set (mb_major_brand_count mb1) (num_major_brand mb1) 0;
         num_major_brand := uint32 (num_major_brand mb1 - 1) |}).
    { unfold mb2. rewrite Hinput.
      apply (count_major_brand_exists _ K); [done| |lia].
      apply Exists_exists. apply list_elem_of_fmap in Hin as (m' & Hm' & Hin).
      by exists m'. }
    rewrite Hmb2. simpl.
    assert (Hin' : K ∈ ks) by (by apply elem_of_first_seen).
    rewrite see_old by done.
    assert (0 < length ks)%nat by (destruct ks; [by apply elem_of_nil in Hin'|simpl; lia]).
    rewrite Hn, !array_set_nat, !Nat2Z.id by lia.
    split; simpl; rewrite ?length_insert; try done.
    + rewrite (uint32_small (_ - 1)) by lia. rewrite uint32_small by lia. lia.
    + intros p k Hp. pose proof (lookup_lt_Some _ _ _ Hp) as Hplt.
      rewrite !list_lookup_insert_ne by lia. by apply Hent.
  - (* a new key *)
    assert (Hmb2 : mb2 = {| mb_major_brand := mb_major_brand mb1;
         mb_minor_version := mb_minor_version mb1;
         mb_major_brand_count :=
           <[length ks := 0 + Z.of_nat (length (filter (fun m => brand_key m = K) (m :: todo)))]>
             (mb_major_brand_count mb1);
         num_major_brand := Z.of_nat (length ks) |}).
    { unfold mb2. rewrite Hinput.
      rewrite (count_major_brand_other _ K) by (done || (apply Forall_forall;
        intros m' Hm' E; apply Hin, list_elem_of_fmap; by exists m')).
      apply (count_major_brand_count _ K); try done; try lia.
      - unfold mb1. simpl. rewrite Hn, array_set_nat, Nat2Z.id by lia.
        apply list_lookup_insert_eq. lia.
      - rewrite Hinput, length_app in Hlt. simpl in *.
        assert (2 ^ 31 < 2 ^ 32) by done. lia. }
    rewrite Hmb2. simpl.
    assert (Hin' : K ∉ ks) by (intros H'; exact (Hin (proj1 (elem_of_first_seen _ _) H'))).
    rewrite see_new by done.
    rewrite Hn, !array_set_nat, !Nat2Z.id by lia.
    assert (2 ^ 31 < 2 ^ 32) by done.
    split; simpl; rewrite ?length_insert, ?length_app; try done.
    + rewrite uint32_small by lia. simpl. lia.
    + intros p k Hp. destruct (decide (p = length ks)) as [->|Hne].
      * rewrite lookup_app_r, Nat.sub_diag in Hp by lia. injection Hp as <-.
        rewrite list_insert_insert_eq.
        rewrite !list_lookup_insert_eq by (rewrite ?length_insert; lia).
        split; [done|]. split; [done|]. do 2 f_equal.
        rewrite Hinput, key_count_app, key_count_none by done. done.
      * pose proof (lookup_lt_Some _ _ _ Hp) as Hplt.
        rewrite length_app in Hplt. simpl in Hplt.
        rewrite lookup_app_l in Hp by lia.
        rewrite !list_lookup_insert_ne by lia. by apply Hent.
Qed.

Lemma pick_major_brands_spec input todo : forall pre mb,
  input = pre ++ todo ->
  Z.of_nat (length input) < 2 ^ 31 ->
  table_ok input (first_seen (brand_key <$> pre)) mb ->
  table_ok input (first_seen (brand_key <$> input))
    (pick_major_brands input (Z.of_nat (length pre)) todo mb).
Proof.
  induction todo as [|m todo IH]; intros pre mb Hinput Hlt Hok; simpl.
  - rewrite app_nil_r in Hinput. by subst.
  - replace (Z.of_nat (length pre) + 1) with (Z.of_nat (length (pre ++ [m])))
      by (rewrite length_app; simpl; lia).
    apply IH; [rewrite <- app_assoc; exact Hinput|done|].
    by apply pick_major_brands_step with todo.
Qed.

Lemma most_used_major_brand_spec mb turns : forall i c M V,
  0 <= i ->
  best_so_far mb i c M V ->
  exists c' M' V',
    most_used_major_brand mb i turns c M V = (c', M', V')
    /\ best_so_far mb (i + Z.of_nat turns) c' M' V'.
Proof.
  induction turns as [|turns IH]; intros i c M V Hi [Hmax Hbest]; simpl.
  - exists c, M, V. by rewrite Z.add_0_r.
  - replace (i + Z.of_nat (S turns)) with (i + 1 + Z.of_nat turns) by lia.
    destruct (Z.ltb_spec c (array_read (mb_major_brand_count mb) i)) as [Hlt|Hge].
    + apply IH; [lia|]. split.
      * intros q Hq. destruct (decide (q = i)) as [->|Hne]; [lia|].
        specialize (Hmax q ltac:(lia)). lia.
      * right. exists i. repeat split; try done; try lia.
        intros q Hq. specialize (Hmax q ltac:(lia)). lia.
    + apply IH; [lia|]. split.
      * intros q Hq. destruct (decide (q = i)) as [->|Hne]; [lia|].
        apply Hmax. lia.
      * destruct Hbest as [->|(p & Hp & Hrest)]; [by left|].
        right. exists p. split; [lia|done].
Qed.

Lemma table_ok_start input :
  table_ok input (first_seen (brand_key <$> []))
    {| mb_major_brand := replicate (length input) 0;
       mb_minor_version := replicate (length input) 0;
       mb_major_brand_count := replicate (length input) 0;
       num_major_brand := 0 |}.
Proof. split; simpl; rewrite ?length_replicate; try done. Qed.

Lemma table_ok_read input ks mb p k :
  table_ok input ks mb ->
  ks !! p = Some k ->
  array_read (mb_major_brand mb) (Z.of_nat p) = k.1
  /\ array_read (mb_minor_version mb) (Z.of_nat p) = k.2
  /\ array_read (mb_major_brand_count mb) (Z.of_nat p) = Z.of_nat (key_count input k).
Proof.
  intros Hok Hp. destruct (table_entries _ _ _ Hok p k Hp) as (H1 & H2 & H3).
  by rewrite (array_read_nat _ _ _ H1), (array_read_nat _ _ _ H2), (array_read_nat _ _ _ H3).
Qed.

(** The major brand of the output is the key of the first source whose
    group is a largest one. *)
Lemma output_major_brand_spec initial input :
  input <> [] ->
  Z.of_nat (length input) < 2 ^ 31 ->
  let out := output_movie_parameters initial input in
  let k := (major_brand out, minor_version out) in
  exists i m,
    input !! i = Some m /\ brand_key m = k
    /\ (forall m', m' ∈ input ->
          (key_count input (brand_key m') <= key_count input k)%nat)
    /\ (forall j m', (j < i)%nat -> input !! j = Some m' ->
          (key_count input (brand_key m') < key_count input k)%nat).
Proof.
  intros Hne Hlt. unfold output_movie_parameters.
  set (ks := first_seen (brand_key <$> input)).
  pose proof (pick_major_brands_spec input input [] _ eq_refl Hlt (table_ok_start input))
    as Hok. fold ks in Hok. simpl length in Hok. change (Z.of_nat 0) with 0 in Hok.
  set (mb := pick_major_brands input 0 input _) in *.
  rewrite (table_num _ _ _ Hok), Nat2Z.id.
  destruct (most_used_major_brand_spec mb (length ks) 0 0 (major_brand initial)
              (minor_version initial) ltac:(lia)) as (c & M & V & -> & Hmax & Hbest).
  { split; [lia|by left]. }
  destruct (deduplicate_brands _ _ _) as [output_brands num_output_brands]. simpl.
  rewrite Z.add_0_l in Hmax, Hbest.
  (* every source has its key in the table *)
  assert (Hall : forall m', m' ∈ input ->
            exists q, ks !! q = Some (brand_key m')
              /\ array_read (mb_major_brand_count mb) (Z.of_nat q)
                 = Z.of_nat (key_count input (brand_key m'))).
  { intros m' Hm'. assert (Hin : brand_key m' ∈ ks).
    { apply elem_of_first_seen, list_elem_of_fmap. by exists m'. }
    apply list_elem_of_lookup in Hin as [q Hq]. exists q. split; [done|].
    by destruct (table_ok_read _ _ _ _ _ Hok Hq) as (_ & _ & ->). }
  destruct Hbest as [->|(p & Hp & Hc & HM & HV & Hfirst)].
  { destruct input as [|m0 input]; [done|].
    destruct (Hall m0 ltac:(by left)) as (q & Hq & Hr).
    pose proof (key_count_pos (m0 :: input) m0 ltac:(by left)).
    specialize (Hmax (Z.of_nat q)). apply lookup_lt_Some in Hq. lia. }
  destruct (lookup_lt_is_Some_2 ks (Z.to_nat p) ltac:(lia)) as [k Hk].
  destruct (table_ok_read _ _ _ _ _ Hok Hk) as (H1 & H2 & H3).
  rewrite Z2Nat.id in H1, H2, H3 by lia.
  assert (Ek : (M, V) = k) by (destruct k; simpl in *; congruence).
  rewrite Ek. clear Ek HM HV H1 H2.
  assert (Hin : k ∈ brand_key <$> input).
  { apply elem_of_first_seen. by apply list_elem_of_lookup_2 in Hk. }
  apply list_elem_of_fmap in Hin as (m & Hm & Hin).
  destruct (list_find_elem_of (fun m => brand_key m = k) input m Hin ltac:(done))
    as [[i m1] Hfind].
  apply list_find_Some in Hfind as (Hi & Hm1 & Hbefore).
  exists i, m1. split; [done|]. split; [done|]. split.
  - intros m' Hm'. destruct (Hall m' Hm') as (q & Hq & Hr).
    specialize (Hmax (Z.of_nat q)). apply lookup_lt_Some in Hq. lia.
  - intros j m' Hj Hm'.
    assert (Hsplit : input = take i input ++ drop i input) by (by rewrite take_drop).
    assert (Hpre : brand_key m' ∈ first_seen (brand_key <$> take i input)).
    { apply elem_of_first_seen, list_elem_of_fmap. exists m'. split; [done|].
      apply list_elem_of_lookup. exists j. by rewrite lookup_take_lt. }
    assert (Hk' : k ∉ first_seen (brand_key <$> take i input)).
    { intros H'. apply elem_of_first_seen, list_elem_of_fmap in H' as (m2 & Hm2 & H').
      apply list_elem_of_lookup in H' as [j2 Hj2].
      pose proof (lookup_lt_Some _ _ _ Hj2) as Hlt2. rewrite length_take in Hlt2.
      rewrite lookup_take_lt in Hj2 by lia.
      apply (Hbefore j2 m2); [done|lia|done]. }
    destruct (first_seen_app (brand_key <$> take i input) (brand_key <$> drop i input))
      as [extra Hextra].
    rewrite <- fmap_app, <- Hsplit in Hextra. fold ks in Hextra.
    apply list_elem_of_lookup in Hpre as [q Hq].
    pose proof (lookup_lt_Some _ _ _ Hq) as Hqlt.
    assert (Hq' : ks !! q = Some (brand_key m')) by (rewrite Hextra, lookup_app_l; done).
    assert (Hqp : (q < Z.to_nat p)%nat).
    { destruct (Nat.lt_ge_cases (Z.to_nat p) (length (first_seen (brand_key <$> take i input))))
        as [Hlt'|Hge]; [|lia].
      rewrite Hextra, lookup_app_l in Hk by done.
      by apply list_elem_of_lookup_2 in Hk. }
    destruct (table_ok_read _ _ _ _ _ Hok Hq') as (_ & _ & Hr).
    specialize (Hfirst (Z.of_nat q) ltac:(lia)). lia.
Qed.

Lemma key_count_all l k : Forall (fun m => brand_key m = k) l -> key_count l k = length l.
Proof.
  unfold key_count. induction 1 as [|m l Hm _ IH]; [done|].
  rewrite filter_cons_True by done. simpl. by rewrite IH.
Qed.

Lemma key_count_other l k k' :
  k <> k' -> Forall (fun m => brand_key m = k) l -> key_count l k' = 0%nat.
Proof.
  intros Hne Hl. apply key_count_none. intros Hin.
  apply list_elem_of_fmap in Hin as (m & Hm & Hin).
  rewrite Forall_forall in Hl. specialize (Hl m Hin). congruence.
Qed.

(** Two groups, the first one met first and not the smaller one. *)
Lemma output_major_brand_two_groups initial l1 l2 kA kB :
  l1 <> [] ->
  Forall (fun m => brand_key m = kA) l1 ->
  Forall (fun m => brand_key m = kB) l2 ->
  (length l2 <= length l1)%nat ->
  Z.of_nat (length (l1 ++ l2)) < 2 ^ 31 ->
  let out := output_movie_parameters initial (l1 ++ l2) in
  (major_brand out, minor_version out) = kA.
Proof.
  intros Hne H1 H2 Hlen Hlt.
  pose proof (output_major_brand_spec initial (l1 ++ l2)) as Hspec.
  cbv zeta in *.
  set (k := (major_brand _, minor_version _)) in *.
  destruct Hspec as (i & m & Hi & Hm & _ & Hfirst); [by destruct l1|done|].
  clearbody k. subst k.
  destruct (decide (brand_key m = kA)) as [|Hk]; [done|exfalso].
  destruct l1 as [|m0 l1]; [done|].
  assert (Hi' : (length (m0 :: l1) <= i)%nat).
  { destruct (Nat.le_gt_cases (length (m0 :: l1)) i) as [|Hgt]; [done|].
    rewrite lookup_app_l in Hi by done. apply list_elem_of_lookup_2 in Hi.
    rewrite Forall_forall in H1. by specialize (H1 m Hi). }
  assert (HkB : brand_key m = kB).
  { rewrite lookup_app_r in Hi by done. apply list_elem_of_lookup_2 in Hi.
    rewrite Forall_forall in H2. by apply H2. }
  specialize (Hfirst 0%nat m0 ltac:(simpl in Hi'; lia) eq_refl).
  apply Forall_cons in H1 as H1'. destruct H1' as [Hm0 _].
  rewrite Hm0, HkB, !key_count_app in Hfirst.
  rewrite (key_count_all (m0 :: l1) kA), (key_count_all l2 kB) in Hfirst by done.
  rewrite (key_count_other l2 kB kA), (key_count_other (m0 :: l1) kA kB) in Hfirst
    by (done || congruence).
  lia.
Qed.

(** C6: the output's major brand and minor version are those of a source;
    no group of sources is larger than the group of this pair, and every
    group that is met earlier in source order is strictly smaller.  The
    two inputs of the specification follow: three sources of [(A, 0)]
    before two of [(B, 1)] give [(A, 0)], and so do two of [(A, 0)] before
    two of [(B, 0)]. *)
Theorem major_brand_majority :
  (forall initial input,
     input <> [] ->
     Z.of_nat (length input) < 2 ^ 31 ->
     let out := output_movie_parameters initial input in
     let k := (major_brand out, minor_version out) in
     exists i m,
       input !! i = Some m /\ brand_key m = k
       /\ (forall m', m' ∈ input ->
             (key_count input (brand_key m') <= key_count input k)%nat)
       /\ (forall j m', (j < i)%nat -> input !! j = Some m' ->
             (key_count input (brand_key m') < key_count input k)%nat))
  /\ (forall initial input A B,
        brand_key <$> input = [(A, 0); (A, 0); (A, 0); (B, 1); (B, 1)] ->
        let out := output_movie_parameters initial input in
        (major_brand out, minor_version out) = (A, 0))
  /\ (forall initial input A B,
        brand_key <$> input = [(A, 0); (A, 0); (B, 0); (B, 0)] ->
        let out := output_movie_parameters initial input in
        (major_brand out, minor_version out) = (A, 0)).
Proof.
  split; [exact output_major_brand_spec|]. split.
  - intros initial input A B Hkeys.
    destruct input as [|m1 [|m2 [|m3 [|m4 [|m5 [|]]]]]]; try done.
    injection Hkeys as ? ? ? ? ? ? ? ? ? ?.
    apply (output_major_brand_two_groups initial [m1; m2; m3] [m4; m5] (A, 0) (B, 1));
      [done| | |simpl; lia|done];
      repeat (apply Forall_cons; split; [unfold brand_key; congruence|]);
      apply Forall_nil_2.
  - intros initial input A B Hkeys.
    destruct input as [|m1 [|m2 [|m3 [|m4 [|]]]]]; try done.
    injection Hkeys as ? ? ? ? ? ? ? ?.
    apply (output_major_brand_two_groups initial [m1; m2] [m3; m4] (A, 0) (B, 0));
      [done| | |simpl; lia|done];
      repeat (apply Forall_cons; split; [unfold brand_key; congruence|]);
      apply Forall_nil_2.
Qed.

Lemma major_brand_majority_witness :
  let input := [source_of_brands 7 0 []; source_of_brands 9 1 []; source_of_brands 9 1 []] in
  let out := output_movie_parameters zero_movie_parameters input in
  let k := (major_brand out, minor_version out) in
  k = (9, 1)
  /\ exists i m,
       input !! i = Some m /\ brand_key m = k
       /\ (forall m', m' ∈ input ->
             (key_count input (brand_key m') <= key_count input k)%nat)
       /\ (forall j m', (j < i)%nat -> input !! j = Some m' ->
             (key_count input (brand_key m') < key_count input k)%nat).
Proof.
  split; [reflexivity|].
  apply (proj1 major_brand_majority zero_movie_parameters
           [source_of_brands 7 0 []; source_of_brands 9 1 []; source_of_brands 9 1 []]).
  - discriminate.
  - reflexivity.
Defined.

(** * Recognising a track option *)

Lemma append_nil (s : string) : (EmptyString ++ s)%string = s.
Proof. reflexivity. Qed.

Lemma append_cons x (a b : string) : (String x a ++ b)%string = String x (a ++ b).
Proof. reflexivity. Qed.

Lemma strchr_app_None (a b : string) c :
  strchr a c = None ->
  strchr (a ++ b) c = (fun n => String.length a + n)%nat <$> strchr b c.
Proof.
  induction a as [|x a IH]; rewrite ?append_nil, ?append_cons; simpl; intros H.
  - by destruct (strchr b c).
  - destruct (Ascii.eqb x c); [done|].
    destruct (strchr a c) eqn:E; [done|]. rewrite IH by done.
    by destruct (strchr b c).
Qed.

Lemma strrchr_None s c : strchr s c = None -> strrchr s c = None.
Proof.
  induction s as [|x s IH]; simpl; [done|].
  destruct (Ascii.eqb x c); [done|].
  destruct (strchr s c); [done|]. intros _. by rewrite IH.
Qed.

Lemma strrchr_app_Some (a b : string) c n :
  strrchr b c = Some n -> strrchr (a ++ b) c = Some (String.length a + n)%nat.
Proof.
  intros H. induction a as [|x a IH]; rewrite ?append_nil, ?append_cons; simpl; [done|].
  by rewrite IH.
Qed.

Lemma string_from_app (a b : string) n :
  string_from (String.length a + n) (a ++ b) = string_from n b.
Proof. induction a as [|x a IH]; rewrite ?append_nil, ?append_cons; simpl; [done|]. apply IH. Qed.

Lemma strstr_unfold haystack needle :
  strstr haystack needle
  = if String.prefix needle haystack then Some 0%nat
    else match haystack with
         | EmptyString => None
         | String _ haystack' => S <$> strstr haystack' needle
         end.
Proof. by destruct haystack. Qed.

Lemma prefix_append (k p : string) : String.prefix k (k ++ p) = true.
Proof.
  induction k as [|x k IH]; rewrite ?append_nil, ?append_cons; [by destruct p|].
  simpl. by destruct (ascii_dec x x).
Qed.

Lemma strstr_app_Some (a b : string) needle :
  String.prefix needle b = true -> is_Some (strstr (a ++ b) needle).
Proof.
  intros H. induction a as [|x a IH]; rewrite ?append_nil, ?append_cons.
  - rewrite strstr_unfold, H. by eexists.
  - rewrite strstr_unfold. destruct (String.prefix needle (String x (a ++ b))); [by eexists|].
    destruct IH as [n ->]. by eexists.
Qed.

(** An option that is some text without ['='], then a key that ends in
    ['='], then a value without ['=']. *)
Section one_equal_sign.
Variables (pre key post : string) (len : nat).
Hypothesis key_equal : forall s : string, strchr (key ++ s) "=" = Some len.
Hypothesis key_last : forall s : string,
  strrchr s "=" = None -> strrchr (key ++ s) "=" = Some len.
Hypothesis key_from : forall s : string, string_from (S len) (key ++ s) = s.
Hypothesis pre_plain : strchr pre "=" = None.
Hypothesis post_plain : strchr post "=" = None.

Lemma one_equal_sign_first :
  strchr (pre ++ key ++ post) "=" = Some (String.length pre + len)%nat.
Proof. by rewrite strchr_app_None, key_equal. Qed.

Lemma one_equal_sign_last :
  strrchr (pre ++ key ++ post) "=" = Some (String.length pre + len)%nat.
Proof. apply strrchr_app_Some, key_last. by apply strrchr_None. Qed.

Lemma one_equal_sign_value :
  string_from (S (String.length pre + len)) (pre ++ key ++ post) = post.
Proof.
  replace (S (String.length pre + len)) with (String.length pre + S len)%nat by lia.
  by rewrite string_from_app, key_from.
Qed.
End one_equal_sign.

Lemma array_update_in {A} (a : list A) (n : Z) (f : A -> A) x :
  1 <= n <= 2 ^ 32 ->
  a !! Z.to_nat (n - 1) = Some x ->
  array_update a (uint32 (n - 1)) f = Ok (<[Z.to_nat (n - 1) := f x]> a).
Proof.
  intros Hn Hx. unfold array_update. rewrite uint32_small by lia.
  by rewrite array_get_nat, Hx, array_set_nat by lia.
Qed.

Lemma alternate_group_last (s : string) :
  strrchr s "=" = None -> strrchr ("alternate-group=" ++ s) "=" = Some 15%nat.
Proof. intros H. rewrite !append_cons, append_nil. simpl. by rewrite H. Qed.

Lemma language_last (s : string) :
  strrchr s "=" = None -> strrchr ("language=" ++ s) "=" = Some 8%nat.
Proof. intros H. rewrite !append_cons, append_nil. simpl. by rewrite H. Qed.

Lemma apply_track_option_alternate_group pack track_i n o (pre post : string) :
  strchr pre "=" = None -> strchr post "=" = None ->
  1 <= n <= 2 ^ 32 -> track_i !! Z.to_nat (n - 1) = Some o ->
  apply_track_option pack track_i n (pre ++ "alternate-group=" ++ post)
  = Ok (<[Z.to_nat (n - 1) := set_opt_alternate_group o (int16 (atoi post))]> track_i).
Proof.
  intros Hpre Hpost Hn Ho. unfold apply_track_option.
  rewrite (one_equal_sign_first pre "alternate-group=" post 15),
    (one_equal_sign_last pre "alternate-group=" post 15)
    by (done || apply alternate_group_last).
  rewrite bool_decide_eq_true_2 by done. simpl negb. cbv iota.
  destruct (strstr_app_Some pre ("alternate-group=" ++ post) "alternate-group="
              (prefix_append _ _))
    as [k ->].
  rewrite (one_equal_sign_value pre "alternate-group=" post 15) by done.
  exact (array_update_in track_i n
           (fun o => set_opt_alternate_group o (int16 (atoi post))) o Hn Ho).
Qed.

Lemma apply_track_option_language pack track_i n o (pre post : string) :
  strchr pre "=" = None -> strchr post "=" = None ->
  strstr (pre ++ "language=" ++ post) "alternate-group=" = None ->
  1 <= n <= 2 ^ 32 -> track_i !! Z.to_nat (n - 1) = Some o ->
  apply_track_option pack track_i n (pre ++ "language=" ++ post)
  = Ok (<[Z.to_nat (n - 1) := set_opt_ISO_language o (uint16 (pack post))]> track_i).
Proof.
  intros Hpre Hpost Hnone Hn Ho. unfold apply_track_option.
  rewrite (one_equal_sign_first pre "language=" post 8),
    (one_equal_sign_last pre "language=" post 8)
    by (done || apply language_last).
  rewrite bool_decide_eq_true_2 by done. simpl negb. cbv iota. rewrite Hnone.
  destruct (strstr_app_Some pre ("language=" ++ post) "language=" (prefix_append _ _)) as [k ->].
  rewrite (one_equal_sign_value pre "language=" post 8) by done.
  exact (array_update_in track_i n
           (fun o => set_opt_ISO_language o (uint16 (pack post))) o Hn Ho).
Qed.

Lemma apply_track_option_known pack track_i n option messages :
  is_Some (strstr option "alternate-group=") \/ is_Some (strstr option "language=") ->
  apply_track_option pack track_i n option = Failed messages ->
  messages = [Multiple_equal_signs_inside_one_track_option_in option].
Proof.
  intros Hkey. unfold apply_track_option, array_update.
  destruct (negb _); [by intros [= <-]|].
  destruct (strstr option "alternate-group=") as [k|].
  - destruct (strchr option "="); [|done]. by destruct (array_get _ _).
  - destruct Hkey as [[? [=]]|[k ->]].
    destruct (strchr option "="); [|done]. by destruct (array_get _ _).
Qed.

Lemma prefix_split (needle t : string) :
  String.prefix needle t = true -> exists rest : string, t = (needle ++ rest)%string.
Proof.
  revert t. induction needle as [|x needle IH]; intros t H.
  - by exists t.
  - destruct t as [|y t]; [done|]. simpl in H.
    destruct (ascii_dec x y) as [->|]; [|done].
    destruct (IH t H) as [rest ->]. by exists rest.
Qed.

Lemma strstr_Some haystack needle : forall k,
  strstr haystack needle = Some k ->
  exists a rest : string, haystack = (a ++ needle ++ rest)%string.
Proof.
  induction haystack as [|x haystack IH]; intros k; rewrite strstr_unfold.
  - destruct (String.prefix needle EmptyString) eqn:E; [|done]. intros _.
    apply prefix_split in E as [rest E]. by exists EmptyString, rest.
  - destruct (String.prefix needle (String x haystack)) eqn:E.
    + intros _. apply prefix_split in E as [rest E]. by exists EmptyString, rest.
    + destruct (strstr haystack needle) as [k'|] eqn:E'; [|done]. intros _.
      destruct (IH k' eq_refl) as (a & rest & ->). by exists (String x a), rest.
Qed.

Lemma strchr_app_Some (a b : string) c j :
  strchr a c = Some j -> strchr (a ++ b) c = Some j /\ (j < String.length a)%nat.
Proof.
  revert j. induction a as [|x a IH]; intros j; rewrite ?append_cons; simpl; [done|].
  destruct (Ascii.eqb x c); [intros [= <-]; split; [done|lia]|].
  destruct (strchr a c) as [j'|]; [|done]. intros [= <-].
  destruct (IH j' eq_refl) as [-> Hlt]. split; [done|lia].
Qed.

Lemma strrchr_is_Some s c j : strchr s c = Some j -> is_Some (strrchr s c).
Proof.
  revert j. induction s as [|x s IH]; intros j; simpl; [done|].
  destruct (Ascii.eqb x c).
  - intros _. destruct (strrchr s c); by eexists.
  - destruct (strchr s c) as [j'|]; [|done]. intros _.
    destruct (IH j' eq_refl) as [n ->]. by eexists.
Qed.

(** With its only ['='] behind ["language"], an option has no
    ["alternate-group="] in it. *)
Lemma language_not_alternate_group (pre post : string) :
  strchr pre "=" = None -> strchr post "=" = None ->
  strstr (pre ++ "language=" ++ post) "alternate-group=" = None.
Proof.
  intros Hpre Hpost.
  destruct (strstr _ _) as [k|] eqn:E; [exfalso|done].
  apply strstr_Some in E as (a & rest & Hs).
  pose proof (one_equal_sign_first pre "language=" post 8 ltac:(done) Hpre) as Hf.
  pose proof (one_equal_sign_last pre "language=" post 8 language_last Hpost) as Hl.
  pose proof (append_correct2 pre ("language=" ++ post) 7) as Hg.
  rewrite Hs in Hf, Hl, Hg.
  destruct (strchr a "=") as [j|] eqn:Ea.
  - destruct (strchr_app_Some a ("alternate-group=" ++ rest) "=" j Ea) as [Hj Hlt].
    destruct (strrchr_is_Some ("alternate-group=" ++ rest) "=" 15 eq_refl) as [n Hn].
    rewrite (strrchr_app_Some a _ "=" n Hn) in Hl. rewrite Hj in Hf.
    injection Hf as Hf. injection Hl as Hl. lia.
  - rewrite strchr_app_None in Hf by done.
    change (strchr ("alternate-group=" ++ rest) "=") with (Some 15%nat) in Hf.
    injection Hf as Hf.
    pose proof (append_correct2 a ("alternate-group=" ++ rest) 14) as Hg'.
    replace (7 + String.length pre)%nat with (14 + String.length a)%nat in Hg by lia.
    rewrite <- Hg' in Hg. done.
Qed.

(** The first and the last [c] of a string that has [c] in it; they are
    apart when [c] is there more than once. *)
Lemma count_char_nonneg s c : 0 <= count_char c s.
Proof. induction s as [|b s IH]; simpl; [done|destruct (Ascii.eqb b c); lia]. Qed.

Lemma strrchr_count_0 s c : count_char c s = 0 -> strrchr s c = None.
Proof.
  induction s as [|a s IH]; simpl; [done|].
  pose proof (count_char_nonneg s c).
  destruct (Ascii.eqb a c); [lia|]. intros Hc. by rewrite IH by lia.
Qed.

Lemma first_and_last s c :
  1 <= count_char c s ->
  exists i j, strchr s c = Some i /\ strrchr s c = Some j /\ (i <= j)%nat
              /\ (2 <= count_char c s -> (i < j)%nat).
Proof.
  induction s as [|a s IH]; simpl; [lia|].
  pose proof (count_char_nonneg s c) as Hpos.
  destruct (Ascii.eqb a c) eqn:Ea.
  - intros _. destruct (Z.eq_dec (count_char c s) 0) as [H0|H0].
    + rewrite (strrchr_count_0 s c H0). exists 0%nat, 0%nat. repeat split; lia.
    + destruct IH as (i & j & _ & -> & _); [lia|].
      exists 0%nat, (S j). repeat split; lia.
  - intros H1. destruct IH as (i & j & -> & -> & Hle & Hlt); [lia|].
    exists (S i), (S j). repeat split; [lia|]. intros H2. specialize (Hlt ltac:(lia)). lia.
Qed.

Lemma apply_track_option_equal_signs pack track_i n option :
  2 <= count_char "=" option ->
  apply_track_option pack track_i n option
  = Failed [Multiple_equal_signs_inside_one_track_option_in option].
Proof.
  intros H2. unfold apply_track_option.
  destruct (first_and_last option "=" ltac:(lia)) as (i & j & -> & -> & _ & Hlt).
  specialize (Hlt H2). rewrite bool_decide_eq_false_2; [done|]. intros [= E]. lia.
Qed.

(** What [atoi] makes of a value that does not fit [long]. *)
Lemma atoi_beyond_long :
  atoi "9223372036854775807" = -1
  /\ atoi "9223372036854775808" = -1
  /\ atoi "18446744073709551618" = -1
  /\ atoi "-9223372036854775809" = 0
  /\ atoi " +70000" = 70000.
Proof. by vm_compute. Qed.

(** C10, as the code has it: an option with a single ['='] is recognised by
    the key that it contains, whatever text is in front of the key.  Text
    without ['='], then ["alternate-group="], then a value without ['=']
    sets the alternate group of the addressed track to the number that
    [atoi] reads from the value, cut to 16 bits; with ["language="] it sets
    the language to the packed value.  An option that contains one of the
    two keys is never reported as an unknown option: the only message it
    can get is the one about several equal signs.  Every option with more
    than one ['='] gets that message, whatever it contains. *)
Theorem option_key_by_containment pack track_i n o (pre post : string) :
  strchr pre "=" = None -> strchr post "=" = None ->
  1 <= n <= 2 ^ 32 -> track_i !! Z.to_nat (n - 1) = Some o ->
  apply_track_option pack track_i n (pre ++ "alternate-group=" ++ post)
  = Ok (<[Z.to_nat (n - 1) := set_opt_alternate_group o (int16 (atoi post))]> track_i)
  /\ apply_track_option pack track_i n (pre ++ "language=" ++ post)
     = Ok (<[Z.to_nat (n - 1) := set_opt_ISO_language o (uint16 (pack post))]> track_i)
  /\ (forall option messages,
        is_Some (strstr option "alternate-group=") \/ is_Some (strstr option "language=") ->
        apply_track_option pack track_i n option = Failed messages ->
        messages = [Multiple_equal_signs_inside_one_track_option_in option])
  /\ (forall option,
        2 <= count_char "=" option ->
        apply_track_option pack track_i n option
        = Failed [Multiple_equal_signs_inside_one_track_option_in option]).
Proof.
  intros Hpre Hpost Hn Ho. split; [|split; [|split]].
  - by apply apply_track_option_alternate_group.
  - apply apply_track_option_language; try done.
    by apply language_not_alternate_group.
  - intros option messages. apply apply_track_option_known.
  - intros option. apply apply_track_option_equal_signs.
Qed.

Lemma option_key_by_containment_witness :
  apply_track_option (fun _ => 7) [track_option_of None 0 0; track_option_of None 0 0] 2
    ("x" ++ "alternate-group=" ++ "5")
  = Ok (<[Z.to_nat (2 - 1) :=
          set_opt_alternate_group (track_option_of None 0 0) (int16 (atoi "5"))]>
          [track_option_of None 0 0; track_option_of None 0 0])
  /\ apply_track_option (fun _ => 7) [track_option_of None 0 0; track_option_of None 0 0] 2
       ("x" ++ "language=" ++ "5")
     = Ok (<[Z.to_nat (2 - 1) :=
             set_opt_ISO_language (track_option_of None 0 0)
               (uint16 ((fun _ : string => 7) "5"%string))]>
             [track_option_of None 0 0; track_option_of None 0 0])
  /\ (forall option messages,
        is_Some (strstr option "alternate-group=") \/ is_Some (strstr option "language=") ->
        apply_track_option (fun _ => 7) [track_option_of None 0 0; track_option_of None 0 0] 2
          option = Failed messages ->
        messages = [Multiple_equal_signs_inside_one_track_option_in option])
  /\ (forall option,
        2 <= count_char "=" option ->
        apply_track_option (fun _ => 7) [track_option_of None 0 0; track_option_of None 0 0] 2
          option
        = Failed [Multiple_equal_signs_inside_one_track_option_in option]).
Proof.
  apply (option_key_by_containment (fun _ => 7)
           [track_option_of None 0 0; track_option_of None 0 0] 2
           (track_option_of None 0 0) "x" "5").
  - reflexivity.
  - reflexivity.
  - lia.
  - reflexivity.
Defined.

(** C10 as the specification words it fails when the key is not behind the
    first ['=']: the option contains ["alternate-group="], and the parser
    rejects it for its two equal signs. *)
Lemma option_key_anywhere_fails :
  is_Some (strstr "a=alternate-group=5" "alternate-group=")
  /\ parse_track_option (fun _ => 0)
       [{| root := None; itunes_meta_list := None; track := [];
           movie_param := zero_movie_parameters; num_tracks := 1;
           current_track_number := 1 |}]
       [[track_option_of (Some "1:a=alternate-group=5"%string) 0 0]] None
     = Failed [Multiple_equal_signs_inside_one_track_option_in "a=alternate-group=5"].
Proof. split; [by eexists|]. vm_compute. reflexivity. Qed.

(** * Parsing the command line *)

Lemma parse_cli_arguments_length L (n : nat) : forall args st st',
  (length args <= n)%nat ->
  parse_cli_arguments L args st = Ok st' ->
  length (cli_input st') = length (cli_input st).
Proof.
  induction n as [|n IH]; intros args st st' Hlen.
  - destruct args; [|simpl in Hlen; lia]. by intros [= <-].
  - destruct args as [|arg rest]; [by intros [= <-]|]. simpl.
    destruct (is_input_flag arg).
    + destruct rest as [|name rest']; [done|].
      destruct (strtok (Some name) "?" (cli_olds st)) as [token olds1].
      destruct (get_movie L token) as [movie| |]; simpl; try done.
      destruct (negb (malloc_succeeds L (num_tracks movie))); [done|].
      destruct (strtok None EmptyString olds1) as [whole olds2].
      intros H. apply IH in H; [|simpl in *; lia]. simpl in H.
      rewrite H. unfold array_set. destruct (_ <? 0); [done|apply length_insert].
    + destruct (is_output_flag arg); [|done].
      destruct rest as [|name rest']; [done|].
      intros H. apply IH in H; [done|simpl in *; lia].
Qed.


Lemma main_setup_unfold L argv :
  main_setup L argv
  = if (Z.of_nat (length argv) <? 5) || help_requested argv
    then Exit (if Z.of_nat (length argv) <? 5 then -1 else 0) []
    else if count_input_flags argv =? 0 then REMUXER_ERR [] No_input_file_specified
    else
      match parse_cli_option L argv (count_input_flags argv) with
      | Crashed => Setup_crashed
      | Failed messages => REMUXER_ERR messages Failed_to_parse_command_line_options
      | Ok io =>
        match cli_output_root io with
        | None => REMUXER_ERR [] Failed_to_open_output_movie
        | Some output_root =>
          if negb (lsmash_succeeds L Set_movie_parameters)
          then REMUXER_ERR [] Failed_to_set_output_movie_parameters
          else if negb (import_itunes_metadata L 0 (Z.to_nat (count_input_flags argv)))
          then REMUXER_ERR [] Failed_to_set_iTunes_metadata
          else
            let out_num_tracks :=
              foldl (fun n m => uint32 (n + num_tracks m)) 0 (cli_input io) in
            if negb (malloc_succeeds L out_num_tracks)
            then REMUXER_ERR [] Failed_to_alloc_output_tracks
            else
              match create_output_tracks L (cli_input io) (cli_track_option io) [] with
              | Crashed => Setup_crashed
              | Failed messages => Exit (-1) messages
              | Ok outs =>
                Start_muxing
                  (start_muxing (cli_input io)
                     {| root := Some output_root; itunes_meta_list := None;
                        track := outs;
                        movie_param :=
                          output_movie_parameters (lsmash_initial_movie_parameters L)
                            (cli_input io);
                        num_tracks := out_num_tracks;
                        current_track_number := Z.of_nat (length outs) + 1 |}
                     (count_input_flags argv))
              end
        end
      end.
Proof. unfold main_setup, help_requested. by rewrite orb_assoc. Qed.

Lemma parse_cli_option_unfold L argv num_input :
  parse_cli_option L argv num_input
  = st ← parse_cli_arguments L (tail argv) (cli_start num_input);
    '(raws, olds) ← split_all_track_options (cli_input st) (cli_file_option st)
                       (zip_with default_track_options (cli_input st) (cli_track_option st))
                       (cli_olds st);
    '(options, olds') ← or_fail (parse_track_option (lsmash_pack_iso_language L)
                                   (cli_input st) raws olds)
                           Failed_to_parse_track_options;
    Ok {| cli_input := cli_input st;
          cli_track_option := options;
          cli_output_root := cli_output_root st;
          cli_file_option := cli_file_option st;
          cli_input_movie_number := cli_input_movie_number st;
          cli_olds := olds' |}.
Proof. done. Qed.

(** A message of [parse_track_option] ends the run before any output is
    written: [main] adds its two messages and returns -1. *)
Lemma track_option_error_aborts L argv turns st raws olds messages :
  (Z.of_nat (length argv) <? 5) || help_requested argv = false ->
  parse_cli_arguments L (tail argv) (cli_start (count_input_flags argv)) = Ok st ->
  split_all_track_options (cli_input st) (cli_file_option st)
    (zip_with default_track_options (cli_input st) (cli_track_option st)) (cli_olds st)
  = Ok (raws, olds) ->
  parse_track_option (lsmash_pack_iso_language L) (cli_input st) raws olds
  = Failed messages ->
  main L turns argv
  = Exited (-1) (messages ++ [Failed_to_parse_track_options;
                              Failed_to_parse_command_line_options]).
Proof.
  intros Hhelp Hst Hraws Hfail. unfold main. rewrite main_setup_unfold, Hhelp.
  destruct (Z.eqb_spec (count_input_flags argv) 0) as [E|E].
  - exfalso. apply (parse_cli_arguments_length L (length (tail argv))) in Hst; [|done].
    rewrite E in Hst. simpl in Hst. destruct (cli_input st); [|done]. done.
  - rewrite parse_cli_option_unfold, Hst. simpl. rewrite Hraws. simpl. rewrite Hfail.
    simpl. unfold REMUXER_ERR. by rewrite <- app_assoc.
Qed.

Section three_tracks.
Variable pack : string -> Z.
Variable movie : movie_t.
Hypothesis three : num_tracks movie = 3.
Variables (g1 l1 g2 l2 : Z) (o3 : track_media_option) (olds : option string).

Lemma parse_track_option_sets_group :
  parse_track_option pack [movie] (one_raw_option g1 l1 g2 l2 o3 "2:alternate-group=1") olds
  = Ok ([[track_option_of (Some "2"%string) g1 l1;
          track_option_of None 1 l2; o3]], Some EmptyString).
Proof.
  unfold parse_track_option, one_raw_option. simpl parse_track_option_movies.
  rewrite three. vm_compute. reflexivity.
Qed.

Lemma parse_track_option_invalid_number :
  parse_track_option pack [movie] (one_raw_option g1 l1 g2 l2 o3 "5:language=jpn") olds
  = Failed [Is_an_invalid_track_number_d 5].
Proof.
  unfold parse_track_option, one_raw_option. simpl parse_track_option_movies.
  rewrite three. vm_compute. reflexivity.
Qed.

Lemma parse_track_option_unknown :
  parse_track_option pack [movie] (one_raw_option g1 l1 g2 l2 o3 "2:foo=1") olds
  = Failed [Unknown_track_option "foo=1"].
Proof.
  unfold parse_track_option, one_raw_option. simpl parse_track_option_movies.
  rewrite three. vm_compute. reflexivity.
Qed.

Lemma parse_track_option_colons :
  parse_track_option pack [movie] (one_raw_option g1 l1 g2 l2 o3 "2::x=1") olds
  = Failed [Multiple_colons_inside_one_track_option_in "2::x=1"].
Proof.
  unfold parse_track_option, one_raw_option. simpl parse_track_option_movies.
  rewrite three. vm_compute. reflexivity.
Qed.
End three_tracks.

(** C8: on a source of three tracks, ["2:alternate-group=1"] sets the
    alternate group of track 2 to 1 and leaves the alternate groups and
    languages of the other two tracks as they were (of the option string
    itself, [strtok] leaves the track number in the slot); ["5:language=jpn"] is an invalid track number, ["2:foo=1"] an
    unknown option, ["2::x=1"] has several colons; and whenever
    [parse_track_option] reports an error, [main] returns -1 with the
    messages of the parser and its own, without starting to mux. *)
Theorem track_option_parser_examples :
  (forall pack movie g1 l1 g2 l2 o3 olds,
     num_tracks movie = 3 ->
     parse_track_option pack [movie] (one_raw_option g1 l1 g2 l2 o3 "2:alternate-group=1") olds
     = Ok ([[track_option_of (Some "2"%string) g1 l1;
             track_option_of None 1 l2; o3]], Some EmptyString)
     /\ parse_track_option pack [movie] (one_raw_option g1 l1 g2 l2 o3 "5:language=jpn") olds
        = Failed [Is_an_invalid_track_number_d 5]
     /\ parse_track_option pack [movie] (one_raw_option g1 l1 g2 l2 o3 "2:foo=1") olds
        = Failed [Unknown_track_option "foo=1"]
     /\ parse_track_option pack [movie] (one_raw_option g1 l1 g2 l2 o3 "2::x=1") olds
        = Failed [Multiple_colons_inside_one_track_option_in "2::x=1"])
  /\ (forall L argv turns st raws olds messages,
        (Z.of_nat (length argv) <? 5) || help_requested argv = false ->
        parse_cli_arguments L (tail argv) (cli_start (count_input_flags argv)) = Ok st ->
        split_all_track_options (cli_input st) (cli_file_option st)
          (zip_with default_track_options (cli_input st) (cli_track_option st)) (cli_olds st)
        = Ok (raws, olds) ->
        parse_track_option (lsmash_pack_iso_language L) (cli_input st) raws olds
        = Failed messages ->
        main L turns argv
        = Exited (-1) (messages ++ [Failed_to_parse_track_options;
                                    Failed_to_parse_command_line_options])).
Proof.
  split.
  - intros pack movie g1 l1 g2 l2 o3 olds Hthree. split; [|split; [|split]].
    + by apply parse_track_option_sets_group.
    + by apply parse_track_option_invalid_number.
    + by apply parse_track_option_unknown.
    + by apply parse_track_option_colons.
  - apply track_option_error_aborts.
Qed.

Lemma track_option_parser_examples_witness :
  main (library_of [("in.mp4"%string, source_of_timelines [[0; 1]; [0]; [0]])]) 0
    ["remuxer"; "-i"; "in.mp4?5:language=jpn"; "-o"; "out.mp4"]%string
  = Exited (-1) ([Is_an_invalid_track_number_d 5]
                 ++ [Failed_to_parse_track_options; Failed_to_parse_command_line_options]).
Proof.
  eapply (proj2 track_option_parser_examples
            (library_of [("in.mp4"%string, source_of_timelines [[0; 1]; [0]; [0]])])
            ["remuxer"; "-i"; "in.mp4?5:language=jpn"; "-o"; "out.mp4"]%string 0%nat).
  - reflexivity.
  - vm_compute. reflexivity.
  - vm_compute. reflexivity.
  - vm_compute. reflexivity.
Defined.






(** The loop as [main] starts it: for files whose sources have tracks, the
    state at "Start muxing" is one that [at_start_muxing] describes, and an
    alternate group given on the command line is the one of the output
    track. *)
Lemma main_setup_example :
  match main_setup
          (library_of [("in.mp4"%string, source_of_timelines [[0; 1]; [0]; []]);
                       ("more.mp4"%string, source_of_timelines [[0; 2]])])
          ["remuxer"; "-i"; "in.mp4?2:alternate-group=1"; "-i"; "more.mp4";
           "-o"; "out.mp4"]%string with
  | Start_muxing s =>
    at_start_muxing s = true
    /\ library_ok s = true
    /\ (fun t => alternate_group (track_param t)) <$> track (output s) = [0; 1; 0; 0]
  | _ => False
  end.
Proof. vm_compute. by repeat split. Qed.

(** * The scheduler: a bound on the turns, every sample, the counters *)

Lemma remaining_le sl :
  1 <= current_sample_number (slot_in sl) -> (remaining sl <= length (slot_timeline sl))%nat.
Proof. intros H. unfold remaining. lia. Qed.

Lemma work_le l :
  Forall (fun sl => 1 <= current_sample_number (slot_in sl)) l ->
  (work l <= queue_samples l + length l)%nat.
Proof.
  unfold queue_samples. induction 1 as [|sl l H _ IH]; simpl; [done|].
  pose proof (remaining_le sl H). destruct (live sl); lia.
Qed.

Lemma queue_samples_app l1 l2 :
  queue_samples (l1 ++ l2) = (queue_samples l1 + queue_samples l2)%nat.
Proof. apply sum_list_with_app. Qed.

Lemma slots_of_tracks_samples outs : forall n mn tn m ts,
  (queue_samples (number_slots n outs (slots_of_tracks mn tn (root m) ts))
   <= sum_list_with (track_samples m) ts)%nat.
Proof.
  induction outs as [|o outs IH]; intros n mn tn m [|t ts]; simpl; try lia.
  unfold queue_samples in *. simpl. specialize (IH (n + 1) mn (tn + 1) m ts).
  unfold slot_timeline at 1. simpl. unfold track_samples at 1. lia.
Qed.

Lemma number_slots_app n outs ins1 ins2 :
  number_slots n outs (ins1 ++ ins2)
  = number_slots n (take (length ins1) outs) ins1
    ++ number_slots (n + Z.of_nat (length ins1)) (drop (length ins1) outs) ins2.
Proof.
  revert n outs. induction ins1 as [|[[[mn tn] r] t] ins1 IH]; intros n outs; simpl.
  - by rewrite drop_0, Z.add_0_r.
  - destruct outs as [|o outs]; simpl; [done|]. rewrite IH. do 3 f_equal. lia.
Qed.

Lemma slots_of_movies_samples ms : forall n mn outs,
  (queue_samples (number_slots n outs (slots_of_movies mn ms))
   <= sum_list_with (fun m => sum_list_with (track_samples m) (track m)) ms)%nat.
Proof.
  induction ms as [|m ms IH]; intros n mn outs; simpl.
  - by destruct outs.
  - rewrite number_slots_app, queue_samples_app.
    pose proof (slots_of_tracks_samples
                  (take (length (slots_of_tracks mn 1 (root m) (track m))) outs)
                  n mn 1 m (track m)).
    specialize (IH (n + Z.of_nat (length (slots_of_tracks mn 1 (root m) (track m))))
                  (mn + 1) (drop (length (slots_of_tracks mn 1 (root m) (track m))) outs)).
    lia.
Qed.

Lemma slots_samples_le s : (queue_samples (slots s) <= total_samples s)%nat.
Proof. apply slots_of_movies_samples. Qed.

(** The measure at the start of the loop is below the bound. *)
Lemma measure_at_start s :
  at_start_muxing s = true ->
  exists pre win, window_ok (view s) pre win
    /\ (measure (view s) pre < turn_bound s)%nat.
Proof.
  intros H0. destruct (at_start_muxing_inv s H0) as ([Hok (pre & win & Hwin) Hlog] & _).
  exists pre, win. split; [done|].
  unfold at_start_muxing in H0. rewrite !andb_true_iff in H0.
  destruct H0 as ((((((((((((_ & _) & H3) & _) & _) & _) & _) & H8) & _) & _) & _) & _) & _).
  apply Z.eqb_eq in H8.
  assert (Hq : queue (view s) = slots s).
  { simpl. unfold cursor. rewrite H8. simpl. by rewrite drop_0, take_0, app_nil_r. }
  assert (Hlen : length (slots s) = length (track (output s))).
  { unfold slots. rewrite number_slots_length; [symmetry|]; apply (ok_total _ Hok). }
  assert (Hcsn : Forall (fun sl => 1 <= current_sample_number (slot_in sl)) (slots s)).
  { destruct Hlog as [_ Hsl _]. rewrite Hq in Hsl. eapply Forall_impl; [exact Hsl|].
    intros sl [_ Hr _ _ _]. lia. }
  pose proof (work_le _ Hcsn) as Hw. pose proof (slots_samples_le s) as Hs.
  assert (Hpre : (length pre <= length (queue (view s)))%nat).
  { rewrite (win_queue _ _ _ Hwin), length_app. lia. }
  pose proof (idle_le (view s) pre Hpre) as Hi.
  unfold measure, turn_bound. rewrite Hq, Hlen in *.
  assert ((work (slots s) * (2 * length (track (output s)) + 1)
           <= (total_samples s + length (track (output s)))
              * (2 * length (track (output s)) + 1))%nat)
    by (apply Nat.mul_le_mono_r; lia).
  lia.
Qed.

Lemma mux_ends_within m : forall s pre win,
  mux_inv s -> window_ok (view s) pre win -> 1 <= num_active_input_tracks s ->
  (measure (view s) pre <= m)%nat ->
  ended (mux_run (S m) s) = true.
Proof.
  induction m as [|m IH]; intros s pre win Hinv Hwin Hact Hm;
    pose proof (mux_turn_progress s pre win Hinv Hwin Hact) as Hp;
    rewrite mux_run_S; destruct (mux_turn s) as [s'|s'|e|] eqn:Hturn; try done.
  - destruct Hp as (_ & _ & pre' & win' & _ & Hlt). lia.
  - destruct Hp as (Hinv' & Hact' & pre' & win' & Hwin' & Hlt).
    apply (IH s' pre' win'); try done. lia.
Qed.

Lemma mux_run_ended_more n : forall s k,
  ended (mux_run n s) = true -> mux_run (n + k) s = mux_run n s.
Proof.
  induction n as [|n IH]; intros s k; simpl; [done|].
  destruct (mux_turn s); try done. apply IH.
Qed.

Lemma mux_run_within_bound s n :
  at_start_muxing s = true -> (turn_bound s <= n)%nat ->
  ended (mux_run n s) = true.
Proof.
  intros H0 Hn. destruct (measure_at_start s H0) as (pre & win & Hwin & Hlt).
  destruct (at_start_muxing_inv s H0) as (Hinv & Hact & _).
  assert (He : ended (mux_run (S (measure (view s) pre)) s) = true)
    by (by apply (mux_ends_within _ s pre win)).
  replace n with (S (measure (view s) pre) + (n - S (measure (view s) pre)))%nat by lia.
  by rewrite mux_run_ended_more.
Qed.

(** X1: a run from the start of the loop is over after [turn_bound]
    turns at the latest, a number computed from the sample counts and the
    number of tracks: with that many turns or more the loop has been left
    through [break] with no active track, or through a failed library call. *)
Theorem scheduler_ends_within_bound s n :
  at_start_muxing s = true -> (turn_bound s <= n)%nat ->
  (exists s', mux_run n s = Finished s' /\ num_active_input_tracks s' = 0)
  \/ (exists e, mux_run n s = Aborted e).
Proof.
  intros H0 Hn. pose proof (mux_run_within_bound s n H0 Hn) as He.
  destruct (mux_run n s) as [s'|e| |s'] eqn:Hrun; try done.
  - left. exists s'. split; [done|].
    apply mux_run_Finished in Hrun as (s1 & _ & Hb). by eapply mux_turn_Break_active.
  - right. by exists e.
Qed.

Lemma scheduler_ends_within_bound_witness :
  turn_bound (two_sources 1 [0; 1; 2] [0; 2]) = 40%nat
  /\ ((exists s', mux_run 40 (two_sources 1 [0; 1; 2] [0; 2]) = Finished s'
                  /\ num_active_input_tracks s' = 0)
      \/ (exists e, mux_run 40 (two_sources 1 [0; 1; 2] [0; 2]) = Aborted e)).
Proof.
  split; [reflexivity|].
  apply (scheduler_ends_within_bound (two_sources 1 [0; 1; 2] [0; 2]) 40).
  - reflexivity.
  - vm_compute. lia.
Defined.

Lemma number_slots_samples outs : forall n ins,
  (length ins <= length outs)%nat ->
  queue_samples (number_slots n outs ins)
  = sum_list_with (fun x => length (media_timeline x.1.2 (track_ID x.2))) ins.
Proof.
  unfold queue_samples.
  induction outs as [|o outs IH]; intros n [|[[[mn tn] r] t] ins] H; simpl in *;
    try done; try lia.
  rewrite IH by lia. done.
Qed.

Lemma slots_of_tracks_sum ts : forall mn tn m,
  sum_list_with (fun x : Z * Z * option lsmash_root_t * track_t =>
                   length (media_timeline x.1.2 (track_ID x.2)))
    (slots_of_tracks mn tn (root m) ts)
  = sum_list_with (track_samples m) ts.
Proof. induction ts as [|t ts IH]; intros mn tn m; simpl; [done|]. by rewrite IH. Qed.

Lemma slots_of_movies_sum ms : forall mn,
  sum_list_with (fun x : Z * Z * option lsmash_root_t * track_t =>
                   length (media_timeline x.1.2 (track_ID x.2)))
    (slots_of_movies mn ms)
  = sum_list_with (fun m => sum_list_with (track_samples m) (track m)) ms.
Proof.
  induction ms as [|m ms IH]; intros mn; simpl; [done|].
  by rewrite sum_list_with_app, slots_of_tracks_sum, IH.
Qed.

Lemma slots_samples s :
  cursor_ok s -> queue_samples (slots s) = total_samples s.
Proof.
  intros Hok. unfold slots. rewrite number_slots_samples, slots_of_movies_sum; [done|].
  rewrite (ok_total _ Hok). done.
Qed.

Lemma view_samples s : queue_samples (queue (view s)) = queue_samples (slots s).
Proof.
  simpl. rewrite queue_samples_app, Nat.add_comm, <- queue_samples_app.
  by rewrite take_drop.
Qed.

Lemma rr_turn_samples q :
  match rr_turn q with
  | RContinue q' | RBreak q' => queue_samples (queue q') = queue_samples (queue q)
  | _ => True
  end.
Proof.
  unfold rr_turn. destruct (queue q) as [|sl rest]; [done|].
  assert (Hrot : forall x, slot_timeline x = slot_timeline sl ->
            queue_samples (rest ++ [x]) = queue_samples (sl :: rest)).
  { intros x Hx. rewrite queue_samples_app. unfold queue_samples. simpl. rewrite Hx. lia. }
  destruct (negb _); [|by apply Hrot].
  destruct (lsmash_get_dts_from_media_timeline _ _ _).
  - destruct (double_le _ _ || _); [|by apply Hrot].
    destruct (lsmash_get_sample_from_media_timeline _ _ _); [|done].
    destruct (negb _); [done|]. by apply Hrot.
  - destruct (lsmash_check_sample_existence_in_media_timeline _ _ _); [done|].
    destruct (_ =? 0); [done|]. by apply Hrot.
Qed.

Lemma mux_turn_samples s s' :
  cursor_ok s -> mux_turn s = Continue s' \/ mux_turn s = Break s' ->
  cursor_ok s' /\ total_samples s' = total_samples s.
Proof.
  intros Hok Hturn. pose proof (mux_turn_view s Hok) as Hv.
  pose proof (rr_turn_samples (view s)) as Hs.
  destruct Hturn as [Hturn|Hturn]; rewrite Hturn in Hv; destruct Hv as [Hok' Hv];
    rewrite Hv in Hs; (split; [done|]);
    by rewrite <- !slots_samples, <- !view_samples.
Qed.

Lemma mux_running_samples s0 s :
  at_start_muxing s0 = true -> mux_running s0 s -> total_samples s = total_samples s0.
Proof.
  intros H0 Hrun. induction Hrun as [|s s' Hrun IH Hturn]; [done|].
  destruct (mux_running_inv _ _ H0 Hrun) as [[Hok _ _] _].
  destruct (mux_turn_samples s s' Hok) as [_ ->]; [by left|done].
Qed.

Lemma sum_indicator (x : Z) ks :
  NoDup ks -> x ∈ ks ->
  sum_list_with (fun k => if decide (x = k) then 1 else 0)%nat ks = 1%nat.
Proof.
  induction 1 as [|k ks Hk _ IH]; [by intros ?%elem_of_nil|].
  intros Hx. simpl. destruct (decide (x = k)) as [->|Hne].
  - assert (sum_list_with (fun k0 => if decide (k = k0) then 1 else 0)%nat ks = 0%nat)
      as ->; [|done].
    clear IH Hx. induction ks as [|k' ks IH]; [done|]. simpl.
    apply not_elem_of_cons in Hk as [Hk Hks].
    rewrite decide_False by done. by apply IH.
  - apply elem_of_cons in Hx as [Hx|Hx]; [done|]. by apply IH.
Qed.

Lemma length_samples_to_cons k a log :
  length (samples_to k (a :: log))
  = ((if decide (to_track_number a = k) then 1 else 0) + length (samples_to k log))%nat.
Proof.
  unfold samples_to. destruct (decide (to_track_number a = k)) as [E|E].
  - by rewrite filter_cons_True by done.
  - by rewrite filter_cons_False by done.
Qed.

Lemma length_by_number ks (log : list appended_sample) :
  NoDup ks -> Forall (fun a => to_track_number a ∈ ks) log ->
  length log = sum_list_with (fun k => length (samples_to k log)) ks.
Proof.
  intros Hks. induction 1 as [|a log Ha _ IH]; simpl.
  - induction ks as [|k ks IHk]; [done|]. simpl. apply NoDup_cons in Hks as [_ Hks].
    by rewrite <- IHk.
  - pose proof (sum_indicator (to_track_number a) ks Hks Ha) as Hone.
    transitivity (sum_list_with (fun k => if decide (to_track_number a = k) then 1 else 0)
                    ks + sum_list_with (fun k => length (samples_to k log)) ks)%nat;
      [lia|].
    clear IH Ha Hks Hone.
    induction ks as [|k ks IHk]; [done|]. simpl.
    rewrite <- IHk, (length_samples_to_cons k a log). lia.
Qed.

Lemma sum_list_with_fmap {A B} (f : B -> nat) (g : A -> B) l :
  sum_list_with f (g <$> l) = sum_list_with (fun x => f (g x)) l.
Proof. induction l as [|x l IH]; csimpl; [done|]. by rewrite IH. Qed.

Lemma sum_list_with_ext_in {A} (f g : A -> nat) l :
  Forall (fun x => f x = g x) l -> sum_list_with f l = sum_list_with g l.
Proof. induction 1 as [|x l H _ IH]; simpl; [done|]. by rewrite H, IH. Qed.

(** When no track is active, the log holds every sample of the queue. *)
Lemma mux_inv_complete s :
  mux_inv s -> num_active_input_tracks s = 0 ->
  length (appended s) = queue_samples (queue (view s)).
Proof.
  intros [_ (pre & win & Hwin) [Hnum Hslots Hknown]] Hact.
  rewrite (length_by_number (slot_number <$> queue (view s))) by done.
  rewrite sum_list_with_fmap. apply sum_list_with_ext_in.
  pose proof (win_active _ _ _ Hwin) as Ha.
  change (rr_active (view s)) with (num_active_input_tracks s) in Ha.
  assert (Hz : count_live (queue (view s)) = 0%nat) by lia.
  apply count_live_none in Hz.
  rewrite Forall_forall in Hz, Hslots. apply Forall_forall. intros sl Hsl.
  destruct (Hslots sl Hsl) as [H1 H2 _ H4 _]. specialize (Hz sl Hsl).
  unfold live in Hz. apply negb_false_iff in Hz. specialize (H4 Hz).
  rewrite H1, length_seqZ, H4. lia.
Qed.

Lemma finished_run_complete s0 n s :
  at_start_muxing s0 = true -> mux_run n s0 = Finished s ->
  length (appended s) = total_samples s0 /\ total_samples s = total_samples s0.
Proof.
  intros H0 Hrun. apply mux_run_Finished in Hrun as (s1 & Hrun & Hb).
  destruct (mux_running_inv _ _ H0 Hrun) as [[Hok1 _ _] _].
  destruct (mux_turn_samples s1 s Hok1) as [Hok Hs]; [by right|].
  assert (Hinv : mux_inv s) by (apply (mux_reach_inv s0); [done|right; by exists s1]).
  assert (Hsame : total_samples s = total_samples s0)
    by (by rewrite Hs, (mux_running_samples s0 s1)).
  split; [|done].
  rewrite (mux_inv_complete s Hinv) by (by eapply mux_turn_Break_active).
  by rewrite view_samples, slots_samples.
Qed.

(** X2: when the loop is left through [break], the output has received as
    many samples as the timelines of all input tracks held at the start,
    and the timelines still hold that many. *)
Theorem every_sample_is_appended s0 n s :
  at_start_muxing s0 = true -> mux_run n s0 = Finished s ->
  length (appended s) = total_samples s0 /\ total_samples s = total_samples s0.
Proof. apply finished_run_complete. Qed.

Lemma every_sample_is_appended_witness :
  length (appended (state_after 40 (two_sources 1 [0; 100] (replicate 10 0)))) = 12%nat
  /\ total_samples (state_after 40 (two_sources 1 [0; 100] (replicate 10 0))) = 12%nat.
Proof.
  apply (every_sample_is_appended (two_sources 1 [0; 100] (replicate 10 0)) 40
           (state_after 40 (two_sources 1 [0; 100] (replicate 10 0)))).
  - reflexivity.
  - vm_compute. reflexivity.
Defined.

Lemma mux_turn_counters s s' :
  mux_turn s = Continue s' \/ mux_turn s = Break s' ->
  (appended s' = appended s /\ total_media_size s' = total_media_size s
   /\ sample_count s' = sample_count s)
  \/ exists a, appended s' = appended s ++ [a]
       /\ total_media_size s' = uint64 (total_media_size s + appended_length a)
       /\ sample_count s' = uint8 (sample_count s + 1).
Proof.
  unfold mux_turn, store_turn, move_the_next_track.
  destruct (array_get (input s) _) as [movie|]; [|by intros [|]].
  destruct (array_get (track movie) _) as [in_track|]; [|by intros [|]].
  destruct (negb _); [|intros [[= <-]|]; [by left|done]].
  destruct (array_get (track (output s)) _) as [out_track|]; [|by intros [|]].
  destruct (lsmash_get_dts_from_media_timeline _ _ _) as [dts|].
  - destruct (double_le _ _ || _).
    + destruct (lsmash_get_sample_from_media_timeline _ _ _); [|by intros [|]].
      destruct (negb _); [by intros [|]|].
      intros [[= <-]|]; [|done]. right. eexists. simpl. done.
    + intros [[= <-]|]; [by left|done].
  - destruct (lsmash_check_sample_existence_in_media_timeline _ _ _); [by intros [|]|].
    destruct (_ =? 0); intros [H|H]; try done; injection H as <-; by left.
Qed.

Lemma appended_bytes_snoc log a :
  appended_bytes (log ++ [a]) = appended_bytes log + appended_length a.
Proof. unfold appended_bytes. induction log as [|b log IH]; simpl; lia. Qed.

Lemma uint64_add_l x y : uint64 (uint64 x + y) = uint64 (x + y).
Proof. unfold uint64. by rewrite Zplus_mod_idemp_l. Qed.

Lemma uint8_add_l x y : uint8 (uint8 x + y) = uint8 (x + y).
Proof. unfold uint8. by rewrite Zplus_mod_idemp_l. Qed.

Lemma mux_counters_step s s' :
  mux_turn s = Continue s' \/ mux_turn s = Break s' ->
  total_media_size s = uint64 (appended_bytes (appended s)) ->
  sample_count s = uint8 (Z.of_nat (length (appended s))) ->
  total_media_size s' = uint64 (appended_bytes (appended s'))
  /\ sample_count s' = uint8 (Z.of_nat (length (appended s'))).
Proof.
  intros Hturn Hsize Hcount.
  destruct (mux_turn_counters s s' Hturn) as [(-> & -> & ->)|(a & -> & -> & ->)]; [done|].
  rewrite Hsize, Hcount, uint64_add_l, uint8_add_l, appended_bytes_snoc, length_app.
  split; [done|]. f_equal. simpl. lia.
Qed.

(** X3: the two progress counters of the loop follow the log of appended
    samples: [total_media_size] is the sum of the sizes of the samples
    appended so far, as a [uint64_t], and [sample_count], the [uint8_t] that
    triggers the progress message, is their number modulo 256. *)
Theorem progress_counters_follow_log inputs out n s :
  mux_reach (start_muxing inputs out n) s ->
  total_media_size s = uint64 (appended_bytes (appended s))
  /\ sample_count s = uint8 (Z.of_nat (length (appended s))).
Proof.
  assert (Hrun : forall x, mux_running (start_muxing inputs out n) x ->
            total_media_size x = uint64 (appended_bytes (appended x))
            /\ sample_count x = uint8 (Z.of_nat (length (appended x)))).
  { induction 1 as [|x x' _ [IH1 IH2] Hturn]; [done|].
    apply (mux_counters_step x x'); [by left|done|done]. }
  intros [H|(s1 & H & Hb)]; [by apply Hrun|].
  destruct (Hrun s1 H) as [H1 H2]. apply (mux_counters_step s1 s); [by right|done|done].
Qed.

Lemma progress_counters_follow_log_witness :
  total_media_size (state_after 40 (two_sources 1 [0; 100] (replicate 10 0))) = 12
  /\ sample_count (state_after 40 (two_sources 1 [0; 100] (replicate 10 0))) = 12.
Proof.
  apply (progress_counters_follow_log
           [one_track_movie 1 [0; 100]; one_track_movie 1 (replicate 10 0)]
           {| root := Some ∅; itunes_meta_list := None;
              track := [one_track 1 1; one_track 2 1];
              movie_param := zero_movie_parameters; num_tracks := 2;
              current_track_number := 3 |} 2
           (state_after 40 (two_sources 1 [0; 100] (replicate 10 0)))).
  apply state_after_reach. vm_compute. reflexivity.
Defined.

(** * [main]: from the command line to the exit status *)

Lemma get_track_IDs_Ok src turns : forall i ids,
  get_track_IDs src i turns = Ok ids ->
  length ids = turns
  /\ forall k id, ids !! k = Some id ->
       id = lsmash_get_track_ID src (i + Z.of_nat k + 1) /\ id <> 0.
Proof.
  induction turns as [|turns IH]; intros i ids; simpl.
  - intros [= <-]. split; [done|]. by intros k id ?.
  - destruct (Z.eqb_spec (lsmash_get_track_ID src (i + 1)) 0) as [|Hne]; [done|].
    destruct (get_track_IDs src (i + 1) turns) as [ids'| |] eqn:E; simpl; try done.
    intros [= <-]. destruct (IH _ _ E) as [Hlen Hids]. split; [simpl; lia|].
    intros [|k] id Hk; simpl in Hk.
    + injection Hk as <-. split; [f_equal; lia|done].
    + destruct (Hids k id Hk) as [-> ?]. split; [f_equal; lia|done].
Qed.

Lemma get_track_Ok src id t :
  get_track src id = Ok t ->
  track_ID t = id /\ current_sample_number t = 1 /\ reach_end_of_media_timeline t = false
  /\ source_track_of src id ≫= src_track_param = Some (track_param t)
  /\ source_track_of src id ≫= src_media_param = Some (media_param t)
  /\ source_track_of src id ≫= src_last_sample_delta = Some (last_sample_delta t).
Proof.
  unfold get_track. destruct (src_itunes_metadata src); [|done].
  destruct (source_track_of src id ≫= src_track_param); [|done].
  destruct (source_track_of src id ≫= src_media_param); [|done].
  destruct (source_track_of src id ≫= src_timeline); [|done].
  destruct (source_track_of src id ≫= src_last_sample_delta); [|done].
  by intros [= <-].
Qed.

Lemma get_tracks_Ok src ids : forall ts,
  get_tracks src ids = Ok ts ->
  length ts = length ids
  /\ forall k t, ts !! k = Some t -> exists id, ids !! k = Some id /\ get_track src id = Ok t.
Proof.
  induction ids as [|id ids IH]; intros ts; simpl.
  - intros [= <-]. split; [done|]. by intros k t ?.
  - destruct (get_track src id) as [t0| |] eqn:Et; simpl; try done.
    destruct (get_tracks src ids) as [ts0| |] eqn:Ets; simpl; try done.
    intros [= <-]. destruct (IH _ eq_refl) as [Hlen Hts]. split; [simpl; lia|].
    intros [|k] t Hk; simpl in Hk.
    + injection Hk as <-. by exists id.
    + by apply Hts.
Qed.

Lemma get_movie_Ok L name m :
  get_movie L name = Ok m ->
  exists file src, name = Some file /\ got_movie L file src m.
Proof.
  unfold get_movie. destruct name as [file|]; [|done].
  destruct (String.eqb_spec file "-") as [|Hname]; [done|].
  destruct (lsmash_open_movie_read L file) as [src|] eqn:Hopen; [|done].
  destruct (negb _); [done|].
  destruct (get_track_IDs src 0 _) as [ids| |] eqn:Hids; simpl; try done.
  destruct (get_tracks src ids) as [ts| |] eqn:Hts; simpl; try done.
  intros [= <-]. exists file, src. split; [done|].
  destruct (get_track_IDs_Ok _ _ _ _ Hids) as [Hlen Hid].
  destruct (get_tracks_Ok _ _ _ Hts) as [Hlen' Ht].
  split; simpl; try done; [lia|].
  intros i t Hi. destruct (Ht i t Hi) as (id & Hidk & Hget).
  destruct (Hid i id Hidk) as [Hlib Hne].
  destruct (get_track_Ok _ _ _ Hget) as (-> & ? & ? & ? & ? & ?).
  rewrite Z.add_0_l in Hlib. done.
Qed.

(** X4: a movie that [get_movie] returns was opened from a file other than
    ["-"]; it has the tracks that the library counts, in the library's
    order and with the library's non-zero track_IDs, parameters and last
    sample deltas; every track cursor and the movie's track cursor are at
    1, and no track is marked as ended. *)
Theorem get_movie_result L name m :
  get_movie L name = Ok m ->
  exists file src, name = Some file /\ got_movie L file src m.
Proof. apply get_movie_Ok. Qed.

Lemma get_movie_result_witness :
  exists file src,
    Some "in.mp4"%string = Some file
    /\ got_movie (library_of [("in.mp4"%string, source_of_timelines [[0; 1]; [0]; []])])
         file src
         (match get_movie (library_of [("in.mp4"%string,
                                        source_of_timelines [[0; 1]; [0]; []])])
                  (Some "in.mp4"%string) with
          | Ok m => m
          | _ => zero_movie
          end).
Proof.
  apply (get_movie_result
           (library_of [("in.mp4"%string, source_of_timelines [[0; 1]; [0]; []])])
           (Some "in.mp4"%string)).
  vm_compute. reflexivity.
Defined.

Lemma parse_cli_arguments_inputs L (n : nat) : forall args st st',
  (length args <= n)%nat ->
  parse_cli_arguments L args st = Ok st' ->
  Forall (fun m => m = zero_movie \/ exists name, get_movie L name = Ok m) (cli_input st) ->
  Forall (fun m => m = zero_movie \/ exists name, get_movie L name = Ok m) (cli_input st').
Proof.
  induction n as [|n IH]; intros args st st' Hlen.
  - destruct args; [|simpl in Hlen; lia]. by intros [= <-].
  - destruct args as [|arg rest]; [by intros [= <-]|]. simpl.
    destruct (is_input_flag arg).
    + destruct rest as [|name rest']; [done|].
      destruct (strtok (Some name) "?" (cli_olds st)) as [token olds1].
      destruct (get_movie L token) as [movie| |] eqn:Hget; simpl; try done.
      destruct (negb (malloc_succeeds L (num_tracks movie))); [done|].
      destruct (strtok None EmptyString olds1) as [whole olds2].
      intros H Hinv. apply IH in H; [done|simpl in *; lia|]. simpl.
      unfold array_set. destruct (_ <? 0); [done|].
      apply Forall_insert; [done|]. right. by exists token.
    + destruct (is_output_flag arg); [|done].
      destruct rest as [|name rest']; [done|].
      intros H Hinv. apply IH in H; [done|simpl in *; lia|done].
Qed.

Lemma parse_cli_option_inputs L argv num_input io :
  parse_cli_option L argv num_input = Ok io ->
  length (cli_input io) = Z.to_nat num_input
  /\ Forall (fun m => m = zero_movie \/ exists name, get_movie L name = Ok m) (cli_input io).
Proof.
  rewrite parse_cli_option_unfold.
  destruct (parse_cli_arguments L (tail argv) (cli_start num_input)) as [st| |] eqn:Hst;
    simpl; try done.
  destruct (split_all_track_options _ _ _ _) as [[raws olds]| |]; simpl; try done.
  destruct (parse_track_option _ _ _ _) as [[options olds']| |]; simpl; try done.
  intros [= <-]. simpl. split.
  - apply (parse_cli_arguments_length L (length (tail argv))) in Hst; [|done].
    rewrite Hst. simpl. apply length_replicate.
  - apply (parse_cli_arguments_inputs L (length (tail argv)) _ _ _ ltac:(done) Hst).
    simpl. apply Forall_replicate. by left.
Qed.

Lemma create_output_track_Ok L n in_track option t :
  create_output_track L n in_track option = Ok t ->
  current_sample_number t = 1
  /\ track_ID t = n
  /\ last_sample_delta t = last_sample_delta in_track
  /\ timescale (media_param t) = timescale (media_param in_track)
  /\ handler_type (media_param t) = handler_type (media_param in_track)
  /\ alternate_group (track_param t) = opt_alternate_group option
  /\ ISO_language (media_param t) = opt_ISO_language option.
Proof.
  unfold create_output_track. destruct (lsmash_succeeds L (Create_track n)).
  - destruct (n =? 0); [done|]. repeat (destruct (negb _); [done|]). by intros [= <-].
  - done.
Qed.

Lemma create_output_tracks_of_Ok L in_tracks : forall options outs outs',
  create_output_tracks_of L in_tracks options outs = Ok outs' ->
  length outs' = (length outs + length in_tracks)%nat
  /\ (Forall (fun o => current_sample_number o = 1) outs ->
      Forall (fun o => current_sample_number o = 1) outs').
Proof.
  induction in_tracks as [|t in_tracks IH]; intros options outs outs'; simpl.
  - intros [= <-]. split; [lia|done].
  - destruct options as [|option options]; [done|].
    destruct (create_output_track L _ t option) as [o| |] eqn:Ho; simpl; try done.
    intros H. destruct (IH _ _ _ H) as [Hlen Hall]. rewrite length_app in Hlen.
    split; [simpl in *; lia|]. intros Houts. apply Hall, Forall_app. split; [done|].
    constructor; [|done]. by destruct (create_output_track_Ok _ _ _ _ _ Ho).
Qed.

Lemma create_output_tracks_Ok L input : forall track_option outs outs',
  create_output_tracks L input track_option outs = Ok outs' ->
  length outs' = (length outs + sum_list_with (fun m => length (track m)) input)%nat
  /\ (Forall (fun o => current_sample_number o = 1) outs ->
      Forall (fun o => current_sample_number o = 1) outs').
Proof.
  induction input as [|m input IH]; intros track_option outs outs'; simpl.
  - intros [= <-]. split; [lia|done].
  - destruct (create_output_tracks_of L (track m) _ outs) as [outs1| |] eqn:H1; simpl;
      try done.
    intros H. destruct (create_output_tracks_of_Ok _ _ _ _ _ H1) as [Hlen1 Hall1].
    destruct (IH _ _ _ H) as [Hlen Hall]. split; [lia|]. intros Houts. by apply Hall, Hall1.
Qed.

Lemma foldl_num_tracks input : forall n,
  Forall (fun m => 0 <= num_tracks m) input ->
  0 <= n -> n + total_tracks input < 2 ^ 32 ->
  foldl (fun n m => uint32 (n + num_tracks m)) n input = n + total_tracks input.
Proof.
  induction input as [|m input IH]; intros n Hall Hn Hlt; simpl in *; [lia|].
  apply Forall_cons in Hall as [Hm Hall].
  assert (0 <= total_tracks input).
  { clear -Hall. induction Hall as [|x l Hx _ IHl]; simpl; [done|]. lia. }
  rewrite uint32_small by lia. rewrite IH by (done || lia). lia.
Qed.

Lemma total_tracks_sum input :
  Forall (fun m => num_tracks m = Z.of_nat (length (track m))) input ->
  total_tracks input = Z.of_nat (sum_list_with (fun m => length (track m)) input).
Proof. induction 1 as [|m input Hm _ IH]; simpl; [done|]. rewrite IH. lia. Qed.

Lemma main_setup_Start L argv s :
  main_setup L argv = Start_muxing s ->
  exists io r outs,
    count_input_flags argv <> 0
    /\ parse_cli_option L argv (count_input_flags argv) = Ok io
    /\ cli_output_root io = Some r
    /\ create_output_tracks L (cli_input io) (cli_track_option io) [] = Ok outs
    /\ s = start_muxing (cli_input io)
             {| root := Some r; itunes_meta_list := None; track := outs;
                movie_param :=
                  output_movie_parameters (lsmash_initial_movie_parameters L) (cli_input io);
                num_tracks := foldl (fun n m => uint32 (n + num_tracks m)) 0 (cli_input io);
                current_track_number := Z.of_nat (length outs) + 1 |}
             (count_input_flags argv).
Proof.
  rewrite main_setup_unfold.
  destruct ((_ <? 5) || help_requested argv); [done|].
  destruct (Z.eqb_spec (count_input_flags argv) 0) as [|Hcount]; [done|].
  destruct (parse_cli_option L argv (count_input_flags argv)) as [io| |] eqn:Hio; try done.
  destruct (cli_output_root io) as [r|] eqn:Hr; [|done].
  destruct (negb (lsmash_succeeds L Set_movie_parameters)); [done|].
  destruct (negb (import_itunes_metadata _ _ _)); [done|]. cbv zeta.
  destruct (negb (malloc_succeeds _ _)); [done|].
  destruct (create_output_tracks _ _ _ _) as [outs| |] eqn:Houts; try done.
  intros [= <-]. by exists io, r, outs.
Qed.

Lemma got_movie_fresh L file src m :
  got_movie L file src m ->
  1 <= num_tracks m ->
  forallb (fun t => Z.of_nat (track_samples m t) + 1 <? 2 ^ 32) (track m) = true ->
  fresh_movie m = true.
Proof.
  intros [_ _ _ _ _ Hlen Hcur Htracks] Hnum Hsamples.
  unfold fresh_movie. rewrite !andb_true_iff. repeat split.
  - apply Z.eqb_eq. lia.
  - by apply Z.leb_le.
  - by apply Z.eqb_eq.
  - apply forallb_forall. intros t Ht. rewrite forallb_forall in Hsamples.
    specialize (Hsamples t Ht). apply list_elem_of_In, list_elem_of_lookup in Ht as [i Hi].
    destruct (Htracks i t Hi) as (_ & _ & Hc & Hr & _).
    unfold fresh_track. rewrite Hc, Hr. simpl. done.
Qed.

Lemma main_setup_at_start L argv s :
  main_setup L argv = Start_muxing s -> sources_fit s = true -> at_start_muxing s = true.
Proof.
  intros Hsetup Hfit.
  destruct (main_setup_Start L argv s Hsetup) as (io & r & outs & Hcount & Hio & _ & Houts & ->).
  destruct (parse_cli_option_inputs _ _ _ _ Hio) as [Hlen Hgot].
  destruct (create_output_tracks_Ok _ _ _ _ _ Houts) as [Hlouts Hcsn].
  specialize (Hcsn (Forall_nil_2 _)).
  unfold sources_fit in Hfit. simpl in Hfit. apply andb_true_iff in Hfit as [Hfit Htotal].
  apply Z.ltb_lt in Htotal. rewrite forallb_forall in Hfit.
  assert (Hfresh : Forall (fun m => fresh_movie m = true) (cli_input io)).
  { rewrite Forall_forall in Hgot. apply Forall_forall. intros m Hm.
    specialize (Hfit m (proj1 (list_elem_of_In _ _) Hm)).
    apply andb_true_iff in Hfit as [Hnum Hsamples]. apply Z.leb_le in Hnum.
    destruct (Hgot m Hm) as [->|[name Hget]]; [done|].
    apply get_movie_Ok in Hget as (file & src & _ & Hg).
    by apply (got_movie_fresh L file src). }
  assert (Hnum : Forall (fun m => num_tracks m = Z.of_nat (length (track m))) (cli_input io)).
  { eapply Forall_impl; [exact Hfresh|]. intros m Hm. unfold fresh_movie in Hm.
    rewrite !andb_true_iff in Hm. destruct Hm as (((Hm & _) & _) & _). lia. }
  assert (Hpos : Forall (fun m => 0 <= num_tracks m) (cli_input io)).
  { eapply Forall_impl; [exact Hnum|]. intros m Hm. simpl in Hm. lia. }
  assert (Hsum : foldl (fun n m => uint32 (n + num_tracks m)) 0 (cli_input io)
                 = total_tracks (cli_input io)).
  { rewrite foldl_num_tracks; [lia|done|lia|]. rewrite total_tracks_sum by done. 
    rewrite total_tracks_sum in Htotal by done. lia. }
  assert (Hcnt : 0 <= count_input_flags argv) by (unfold count_input_flags; lia).
  unfold at_start_muxing, start_muxing. simpl. rewrite Hsum.
  rewrite !andb_true_iff. repeat split.
  - apply Z.eqb_eq. lia.
  - apply Z.leb_le. lia.
  - apply forallb_forall. intros m Hm. rewrite Forall_forall in Hfresh.
    by apply Hfresh, list_elem_of_In.
  - apply Z.eqb_eq. rewrite total_tracks_sum by done. simpl in Hlouts. lia.
  - by apply Z.eqb_eq.
  - by apply Z.ltb_lt.
  - apply forallb_forall. intros o Ho. rewrite Forall_forall in Hcsn.
    apply Z.eqb_eq. by apply Hcsn, list_elem_of_In.
  - by apply Z.eqb_eq.
Qed.

(** X5: when [main] gets to "Start muxing" with input movies that have
    tracks and fit the counters, the loop starts in a state that
    [at_start_muxing] describes: as many output tracks as the input movies
    have tracks in all, every cursor at 1, no track ended, and the counters
    of lines 422-429. *)
Theorem main_starts_the_loop_well L argv s :
  main_setup L argv = Start_muxing s -> sources_fit s = true -> at_start_muxing s = true.
Proof. apply main_setup_at_start. Qed.

Lemma main_starts_the_loop_well_witness :
  at_start_muxing
    (started (main_setup
                (library_of [("in.mp4"%string, source_of_timelines [[0; 1]; [0]; []]);
                             ("more.mp4"%string, source_of_timelines [[0; 2]])])
                ["remuxer"; "-i"; "in.mp4?2:alternate-group=1"; "-i"; "more.mp4";
                 "-o"; "out.mp4"]%string)) = true.
Proof.
  apply (main_starts_the_loop_well
           (library_of [("in.mp4"%string, source_of_timelines [[0; 1]; [0]; []]);
                        ("more.mp4"%string, source_of_timelines [[0; 2]])])
           ["remuxer"; "-i"; "in.mp4?2:alternate-group=1"; "-i"; "more.mp4";
            "-o"; "out.mp4"]%string).
  - vm_compute. reflexivity.
  - vm_compute. reflexivity.
Defined.

Lemma all_succeed_true L call : forall turns n,
  (forall c, lsmash_succeeds L c = true) -> all_succeed L call n turns = true.
Proof. induction turns as [|turns IH]; intros n H; simpl; [done|]. by rewrite H, IH. Qed.

Lemma main_run_succeeds L argv s turns :
  main_setup L argv = Start_muxing s ->
  sources_fit s = true -> library_ok s = true ->
  (forall c, lsmash_succeeds L c = true) ->
  (turn_bound s <= turns)%nat ->
  main L turns argv = Exited 0 []
  /\ exists s', mux_run turns s = Finished s'
       /\ length (appended s') = total_samples s.
Proof.
  intros Hsetup Hfit Hlib Hcalls Hturns.
  pose proof (main_setup_at_start L argv s Hsetup Hfit) as H0.
  pose proof (mux_run_within_bound s turns H0 Hturns) as He.
  destruct (at_start_muxing_inv s H0) as ([Hok _ _] & _).
  unfold main. rewrite Hsetup.
  destruct (mux_run turns s) as [s'|e| |s'] eqn:Hrun; try done.
  - split.
    + unfold finish_muxing. by rewrite !all_succeed_true, Hcalls by done.
    + exists s'. split; [done|]. by destruct (finished_run_complete s turns s' H0 Hrun).
  - exfalso. eapply mux_run_no_abort; [exact Hok| |exact Hrun].
    by apply library_ok_slots_ok.
Qed.

(** X6: a run of [main] that gets to "Start muxing" with input movies
    that have tracks and fit the counters, and in which no library call
    fails, returns 0 without an error message once the loop has had
    [turn_bound] turns; by then the loop was left through [break] and as
    many samples were appended as the input tracks hold. *)
Theorem main_succeeds L argv s turns :
  main_setup L argv = Start_muxing s ->
  sources_fit s = true -> library_ok s = true ->
  (forall c, lsmash_succeeds L c = true) ->
  (turn_bound s <= turns)%nat ->
  main L turns argv = Exited 0 []
  /\ exists s', mux_run turns s = Finished s'
       /\ length (appended s') = total_samples s.
Proof. apply main_run_succeeds. Qed.

Lemma main_succeeds_witness :
  main (library_of [("in.mp4"%string, source_of_timelines [[0; 1]; [0]; []]);
                    ("more.mp4"%string, source_of_timelines [[0; 2]])]) 100
    ["remuxer"; "-i"; "in.mp4?2:alternate-group=1"; "-i"; "more.mp4"; "-o"; "out.mp4"]%string
  = Exited 0 []
  /\ exists s',
       mux_run 100
         (started (main_setup
                     (library_of [("in.mp4"%string, source_of_timelines [[0; 1]; [0]; []]);
                                  ("more.mp4"%string, source_of_timelines [[0; 2]])])
                     ["remuxer"; "-i"; "in.mp4?2:alternate-group=1"; "-i"; "more.mp4";
                      "-o"; "out.mp4"]%string)) = Finished s'
       /\ length (appended s')
          = total_samples
              (started (main_setup
                     (library_of [("in.mp4"%string, source_of_timelines [[0; 1]; [0]; []]);
                                  ("more.mp4"%string, source_of_timelines [[0; 2]])])
                     ["remuxer"; "-i"; "in.mp4?2:alternate-group=1"; "-i"; "more.mp4";
                      "-o"; "out.mp4"]%string)).
Proof.
  apply (main_succeeds
           (library_of [("in.mp4"%string, source_of_timelines [[0; 1]; [0]; []]);
                        ("more.mp4"%string, source_of_timelines [[0; 2]])])
           ["remuxer"; "-i"; "in.mp4?2:alternate-group=1"; "-i"; "more.mp4";
            "-o"; "out.mp4"]%string).
  - vm_compute. reflexivity.
  - vm_compute. reflexivity.
  - vm_compute. reflexivity.
  - reflexivity.
  - vm_compute. lia.
Defined.

Lemma main_setup_Exit L argv status messages :
  main_setup L argv = Exit status messages ->
  status = -1
  \/ (status = 0 /\ messages = [] /\ help_requested argv = true
      /\ 5 <= Z.of_nat (length argv)).
Proof.
  rewrite main_setup_unfold.
  destruct (Z.ltb_spec (Z.of_nat (length argv)) 5) as [Hlt|Hge]; simpl.
  { intros [= <- <-]. by left. }
  destruct (help_requested argv). { intros [= <- <-]. by right. }
  unfold REMUXER_ERR.
  destruct (count_input_flags argv =? 0). { intros [= <- <-]. by left. }
  destruct (parse_cli_option L argv _) as [io| |]; [| intros [= <- <-]; by left |done].
  destruct (cli_output_root io); [|intros [= <- <-]; by left].
  destruct (negb (lsmash_succeeds L Set_movie_parameters)); [intros [= <- <-]; by left|].
  destruct (negb (import_itunes_metadata _ _ _)); [intros [= <- <-]; by left|].
  destruct (negb (malloc_succeeds _ _)); [intros [= <- <-]; by left|].
  destruct (create_output_tracks _ _ _ _); [done|intros [= <- <-]; by left|done].
Qed.

Lemma finish_muxing_status L s status messages :
  finish_muxing L s = (status, messages) ->
  status = -1
  \/ (status = 0 /\ messages = []
      /\ all_succeed L Flush_pooled_samples 1 (Z.to_nat (num_tracks (output s))) = true
      /\ all_succeed L Copy_timeline_map 1 (Z.to_nat (num_tracks (output s))) = true
      /\ lsmash_succeeds L Finish_movie = true).
Proof.
  unfold finish_muxing.
  destruct (all_succeed L Flush_pooled_samples _ _); simpl; [|intros [= <- <-]; by left].
  destruct (all_succeed L Copy_timeline_map _ _); simpl; [|intros [= <- <-]; by left].
  destruct (lsmash_succeeds L Finish_movie); simpl; intros [= <- <-]; [by right|by left].
Qed.

(** X7: [main] returns 0 or -1, and 0 never comes with an error message.  It
    returns 0 in two cases only: help was asked for with at least five
    arguments, or the loop was left through [break] with no active track
    and every flush, every copy of a timeline map and the finishing of the
    output movie succeeded. *)
Theorem main_exit_status L turns argv status messages :
  main L turns argv = Exited status messages ->
  status = -1
  \/ (status = 0 /\ messages = []
      /\ ((help_requested argv = true /\ 5 <= Z.of_nat (length argv))
          \/ exists s0 s,
               main_setup L argv = Start_muxing s0
               /\ mux_run turns s0 = Finished s
               /\ num_active_input_tracks s = 0
               /\ all_succeed L Flush_pooled_samples 1 (Z.to_nat (num_tracks (output s)))
                  = true
               /\ all_succeed L Copy_timeline_map 1 (Z.to_nat (num_tracks (output s))) = true
               /\ lsmash_succeeds L Finish_movie = true)).
Proof.
  unfold main. destruct (main_setup L argv) as [st msgs|s0|] eqn:Hsetup; [| |done].
  - intros [= <- <-]. destruct (main_setup_Exit _ _ _ _ Hsetup) as [?|(? & ? & ? & ?)];
      [by left|]. right. split; [done|]. split; [done|]. by left.
  - destruct (mux_run turns s0) as [s|e| |s] eqn:Hrun; try done.
    + destruct (finish_muxing L s) as [st msgs] eqn:Hfin. intros [= <- <-].
      destruct (finish_muxing_status _ _ _ _ Hfin) as [?|(? & ? & ? & ? & ?)]; [by left|].
      right. split; [done|]. split; [done|]. right. exists s0, s.
      repeat split; try done.
      apply mux_run_Finished in Hrun as (s1 & _ & Hb). by eapply mux_turn_Break_active.
    + intros [= <- <-]. by left.
Qed.

Lemma main_exit_status_witness :
  (0 : Z) = -1
  \/ ((0 : Z) = 0 /\ @nil remuxer_error = []
      /\ ((help_requested ["remuxer"; "-i"; "in.mp4"; "-o"; "out.mp4"]%string = true
           /\ 5 <= Z.of_nat (length ["remuxer"; "-i"; "in.mp4"; "-o"; "out.mp4"]%string))
          \/ exists s0 s,
               main_setup (library_of [("in.mp4"%string, source_of_timelines [[0; 1]])])
                 ["remuxer"; "-i"; "in.mp4"; "-o"; "out.mp4"]%string = Start_muxing s0
               /\ mux_run 10 s0 = Finished s
               /\ num_active_input_tracks s = 0
               /\ all_succeed (library_of [("in.mp4"%string, source_of_timelines [[0; 1]])])
                    Flush_pooled_samples 1 (Z.to_nat (num_tracks (output s))) = true
               /\ all_succeed (library_of [("in.mp4"%string, source_of_timelines [[0; 1]])])
                    Copy_timeline_map 1 (Z.to_nat (num_tracks (output s))) = true
               /\ lsmash_succeeds (library_of [("in.mp4"%string, source_of_timelines [[0; 1]])])
                    Finish_movie = true)).
Proof.
  apply (main_exit_status (library_of [("in.mp4"%string, source_of_timelines [[0; 1]])]) 10
           ["remuxer"; "-i"; "in.mp4"; "-o"; "out.mp4"]%string 0 []).
  vm_compute. reflexivity.
Defined.

Lemma got_movie_no_tracks L file src m :
  got_movie L file src m -> num_tracks m = 0 -> track m = [].
Proof.
  intros Hg Hn. pose proof (got_length _ _ _ _ Hg) as Hlen. rewrite Hn in Hlen.
  by destruct (track m).
Qed.

Lemma start_without_tracks_faults L argv s m :
  main_setup L argv = Start_muxing s ->
  head (input s) = Some m -> num_tracks m = 0 ->
  mux_turn s = Fault.
Proof.
  intros Hsetup Hhead Hnum.
  destruct (main_setup_Start L argv s Hsetup) as (io & r & outs & _ & Hio & _ & _ & ->).
  destruct (parse_cli_option_inputs _ _ _ _ Hio) as [_ Hgot]. simpl in Hhead.
  destruct (cli_input io) as [|m0 input] eqn:Hin; [done|]. injection Hhead as ->.
  apply Forall_cons in Hgot as [Hm _].
  assert (Ht : track m = []).
  { destruct Hm as [->|[name Hget]]; [done|].
    apply get_movie_Ok in Hget as (file & src & _ & Hg). by eapply got_movie_no_tracks. }
  unfold mux_turn, start_muxing. simpl. rewrite Ht.
  unfold array_get at 1. by destruct (_ <? 0).
Qed.

(** X8: when [main] gets to "Start muxing" with a first input movie that
    has no tracks (nothing before the loop tests for it, and the loop does
    not either), the first turn reads [movie->track[0]] of an array without
    elements: [main] goes outside its memory instead of returning. *)
Theorem first_source_without_tracks L argv s m turns :
  main_setup L argv = Start_muxing s ->
  head (input s) = Some m -> num_tracks m = 0 ->
  main L (S turns) argv = Main_crashed.
Proof.
  intros Hsetup Hhead Hnum. unfold main. rewrite Hsetup, mux_run_S.
  by rewrite (start_without_tracks_faults L argv s m).
Qed.

Lemma first_source_without_tracks_witness :
  main (library_of [("empty.mp4"%string, source_of_timelines []);
                    ("in.mp4"%string, source_of_timelines [[0; 1]])]) 1
    ["remuxer"; "-i"; "empty.mp4"; "-i"; "in.mp4"; "-o"; "out.mp4"]%string
  = Main_crashed.
Proof.
  apply (first_source_without_tracks
           (library_of [("empty.mp4"%string, source_of_timelines []);
                        ("in.mp4"%string, source_of_timelines [[0; 1]])])
           ["remuxer"; "-i"; "empty.mp4"; "-i"; "in.mp4"; "-o"; "out.mp4"]%string
           (started (main_setup
                       (library_of [("empty.mp4"%string, source_of_timelines []);
                                    ("in.mp4"%string, source_of_timelines [[0; 1]])])
                       ["remuxer"; "-i"; "empty.mp4"; "-i"; "in.mp4"; "-o";
                        "out.mp4"]%string))
           {| root := Some (root_of (source_of_timelines []));
              itunes_meta_list := None; track := [];
              movie_param := src_movie_param (source_of_timelines []);
              num_tracks := 0; current_track_number := 1 |} 0).
  - vm_compute. reflexivity.
  - vm_compute. reflexivity.
  - reflexivity.
Defined.

(** * Track options: what one option string changes *)

Lemma same_but_refl idx l : same_but idx l l.
Proof. by split. Qed.

Lemma same_but_trans idx l1 l2 l3 :
  same_but idx l1 l2 -> same_but idx l2 l3 -> same_but idx l1 l3.
Proof.
  intros [H1 H2] [H3 H4]. split; [congruence|]. intros k Hk. by rewrite H4, H2.
Qed.

Lemma array_update_Ok {A} (a : list A) i f a' :
  array_update a i f = Ok a' ->
  0 <= i /\ exists x, a !! Z.to_nat i = Some x /\ a' = <[Z.to_nat i := f x]> a.
Proof.
  unfold array_update, array_get, array_set. destruct (Z.ltb_spec i 0); [done|].
  destruct (a !! Z.to_nat i) as [x|] eqn:E; [|done]. intros [= <-].
  split; [done|]. by exists x.
Qed.

Lemma array_update_same_but a i f a' :
  array_update a i f = Ok a' -> same_but (Z.to_nat i) a a'.
Proof.
  intros H. apply array_update_Ok in H as (_ & x & _ & ->). split.
  - apply length_insert.
  - intros k Hk. by apply list_lookup_insert_ne.
Qed.

Lemma apply_track_option_same_but pack track_i n option track_i' :
  apply_track_option pack track_i n option = Ok track_i' ->
  same_but (Z.to_nat (uint32 (n - 1))) track_i track_i'.
Proof.
  unfold apply_track_option. destruct (negb _); [done|].
  destruct (strstr option "alternate-group=").
  - destruct (strchr option "="); [|done]. apply array_update_same_but.
  - destruct (strstr option "language="); [|done].
    destruct (strchr option "="); [|done]. apply array_update_same_but.
Qed.

Lemma apply_track_options_same_but pack turns : forall olds track_i n track_i' olds',
  apply_track_options pack turns olds track_i n = Ok (track_i', olds') ->
  same_but (Z.to_nat (uint32 (n - 1))) track_i track_i'.
Proof.
  induction turns as [|turns IH]; intros olds track_i n track_i' olds'; simpl;
    destruct (strtok None "," olds) as [[option|] olds1].
  - done.
  - intros [= <- <-]. apply same_but_refl.
  - destruct (apply_track_option pack track_i n option) as [track_i1| |] eqn:H1; simpl;
      try done.
    intros H. eapply same_but_trans; [by eapply apply_track_option_same_but|by eapply IH].
  - intros [= <- <-]. apply same_but_refl.
Qed.

Lemma is_delimiter_single c a : is_delimiter (String c EmptyString) a = Ascii.eqb a c.
Proof.
  unfold is_delimiter. simpl. rewrite (Ascii.eqb_sym c a). by destruct (Ascii.eqb a c).
Qed.

Lemma split_token_strchr c s : forall n,
  strchr s c = Some n ->
  split_token (String c EmptyString) s = (substring 0 n s, string_from (S n) s).
Proof.
  induction s as [|a s IH]; intros n; simpl; [done|].
  rewrite is_delimiter_single. destruct (Ascii.eqb a c).
  - intros [= <-]. done.
  - destruct (strchr s c) as [n'|]; [|done]. intros [= <-].
    by rewrite (IH n' eq_refl).
Qed.

Lemma strtok_first c s n olds :
  strchr s c = Some (S n) ->
  strtok (Some s) (String c EmptyString) olds
  = (Some (substring 0 (S n) s), Some (string_from (S (S n)) s)).
Proof.
  intros H. unfold strtok. destruct s as [|a s]; [done|].
  simpl skip_delimiters. rewrite is_delimiter_single.
  simpl in H. destruct (Ascii.eqb a c) eqn:Ea; [done|].
  destruct (strchr s c) as [n'|] eqn:E; [|done]. injection H as <-.
  rewrite (split_token_strchr c (String a s) (S n')) by (simpl; by rewrite Ea, E).
  done.
Qed.

Lemma parse_raw_track_option_Ok pack num_tracks j raw track_i olds track_i' olds' :
  parse_raw_track_option pack num_tracks j raw track_i olds = Ok (track_i', olds') ->
  exists colon,
    strchr raw ":" = Some (S colon) /\ strrchr raw ":" = Some (S colon)
    /\ let n := uint32 (atoi (substring 0 (S colon) raw)) in
       1 <= n <= num_tracks
       /\ length track_i' = length track_i
       /\ forall k o, track_i !! k = Some o -> k <> Z.to_nat (n - 1) ->
            exists o', track_i' !! k = Some o'
              /\ opt_alternate_group o' = opt_alternate_group o
              /\ opt_ISO_language o' = opt_ISO_language o
              /\ (Z.of_nat k <> j -> o' = o).
Proof.
  unfold parse_raw_track_option.
  destruct (strchr raw ":") as [[|colon]|] eqn:Hc; try done.
  destruct (bool_decide (Some (S colon) = strrchr raw ":")) eqn:Hr; simpl; [|done].
  apply bool_decide_eq_true in Hr.
  rewrite (strtok_first ":" raw colon olds Hc).
  set (n := uint32 (atoi (substring 0 (S colon) raw))).
  destruct (Z.eqb_spec n 0) as [|Hn0]; [done|].
  destruct (Z.ltb_spec num_tracks n) as [|Hle]; [done|].
  destruct (array_update track_i j _) as [track_i1| |] eqn:H1; simpl; try done.
  intros H2. exists colon. split; [done|]. split; [done|].
  assert (Hn : 0 <= n < 2 ^ 32) by (apply Z.mod_pos_bound; done).
  apply apply_track_options_same_but in H2 as [Hlen2 Hsame2].
  rewrite uint32_small in Hsame2 by lia.
  apply array_update_Ok in H1 as (Hj & x & Hx & ->).
  rewrite length_insert in Hlen2.
  split; [lia|]. split; [done|]. intros k o Hk Hne. rewrite (Hsame2 k Hne).
  destruct (decide (k = Z.to_nat j)) as [->|Hkj].
  - rewrite list_lookup_insert_eq by (by apply lookup_lt_Some in Hk).
    rewrite Hk in Hx. injection Hx as <-. eexists. split; [done|].
    split; [done|]. split; [done|]. intros Hj'. lia.
  - rewrite list_lookup_insert_ne by done. by exists o.
Qed.

(** X9: when the option string of a slot is accepted, it has exactly one
    colon, not in the first place; the text before the colon is a track
    number [n] between 1 and the number of tracks; the options change
    nothing but track [n]: every other track keeps its alternate group and
    its language, and, except for the slot that held the string (whose
    string [strtok] cut at the colon), is left as it was. *)
Theorem track_option_changes_one_track pack num_tracks j raw track_i olds track_i' olds' :
  parse_raw_track_option pack num_tracks j raw track_i olds = Ok (track_i', olds') ->
  exists colon,
    strchr raw ":" = Some (S colon) /\ strrchr raw ":" = Some (S colon)
    /\ let n := uint32 (atoi (substring 0 (S colon) raw)) in
       1 <= n <= num_tracks
       /\ length track_i' = length track_i
       /\ forall k o, track_i !! k = Some o -> k <> Z.to_nat (n - 1) ->
            exists o', track_i' !! k = Some o'
              /\ opt_alternate_group o' = opt_alternate_group o
              /\ opt_ISO_language o' = opt_ISO_language o
              /\ (Z.of_nat k <> j -> o' = o).
Proof. apply parse_raw_track_option_Ok. Qed.

Lemma track_option_changes_one_track_witness :
  exists colon,
    strchr "3:language=jpn,alternate-group=4" ":" = Some (S colon)
    /\ strrchr "3:language=jpn,alternate-group=4" ":" = Some (S colon)
    /\ let n := uint32 (atoi (substring 0 (S colon) "3:language=jpn,alternate-group=4")) in
       1 <= n <= 3
       /\ length [track_option_of (Some "3"%string) 1 2; track_option_of None 3 4;
                  track_option_of None 4 7]
          = length [track_option_of (Some "3:language=jpn,alternate-group=4"%string) 1 2;
                    track_option_of None 3 4; track_option_of None 5 6]
       /\ forall k o,
            [track_option_of (Some "3:language=jpn,alternate-group=4"%string) 1 2;
             track_option_of None 3 4; track_option_of None 5 6] !! k = Some o ->
            k <> Z.to_nat (n - 1) ->
            exists o',
              [track_option_of (Some "3"%string) 1 2; track_option_of None 3 4;
               track_option_of None 4 7] !! k = Some o'
              /\ opt_alternate_group o' = opt_alternate_group o
              /\ opt_ISO_language o' = opt_ISO_language o
              /\ (Z.of_nat k <> 0 -> o' = o).
Proof.
  apply (track_option_changes_one_track (fun _ => 7) 3 0 "3:language=jpn,alternate-group=4"
           [track_option_of (Some "3:language=jpn,alternate-group=4"%string) 1 2;
            track_option_of None 3 4; track_option_of None 5 6] None
           [track_option_of (Some "3"%string) 1 2; track_option_of None 3 4;
            track_option_of None 4 7] (Some EmptyString)).
  vm_compute. reflexivity.
Defined.





Lemma with_raws_cons p ps o track_i :
  with_raws (p :: ps) (o :: track_i) = set_raw_track_option o (Some p) :: with_raws ps track_i.
Proof. done. Qed.




(** * Brands: order of the sources, a single source *)

Lemma key_count_Permutation l l' k : l ≡ₚ l' -> key_count l k = key_count l' k.
Proof. intros H. unfold key_count. by rewrite H. Qed.

Lemma key_count_elem l k : (0 < key_count l k)%nat -> exists m, m ∈ l /\ brand_key m = k.
Proof.
  unfold key_count. intros H.
  destruct (filter (fun m => brand_key m = k) l) as [|m f] eqn:E; [simpl in H; lia|].
  assert (Hm : m ∈ filter (fun m => brand_key m = k) l) by (rewrite E; by left).
  apply list_elem_of_filter in Hm as [? ?]. by exists m.
Qed.

Lemma largest_group_spec initial input input' k :
  Z.of_nat (length input) < 2 ^ 31 ->
  (0 < key_count input k)%nat ->
  (forall m, m ∈ input -> brand_key m <> k ->
             (key_count input (brand_key m) < key_count input k)%nat) ->
  input' ≡ₚ input ->
  let out := output_movie_parameters initial input' in
  (major_brand out, minor_version out) = k.
Proof.
  intros Hlt Hpos Hmax Hperm.
  assert (Hne : input' <> []).
  { intros ->. apply Permutation_nil_l in Hperm. subst. unfold key_count in Hpos. simpl in Hpos. lia. }
  pose proof (output_major_brand_spec initial input' Hne) as Hspec.
  rewrite (Permutation_length Hperm) in Hspec. specialize (Hspec Hlt).
  cbv zeta in *. set (k' := (major_brand _, minor_version _)) in *. clearbody k'.
  destruct Hspec as (i & m & Hi & Hm & Hall & _).
  destruct (decide (k' = k)) as [|Hk]; [done|exfalso].
  apply list_elem_of_lookup_2 in Hi.
  destruct (key_count_elem input k Hpos) as (m' & Hm' & Hk').
  specialize (Hall m' ltac:(by rewrite Hperm)).
  specialize (Hmax m ltac:(by rewrite <- Hperm) ltac:(congruence)).
  rewrite !(key_count_Permutation _ _ _ Hperm), Hk' in Hall. rewrite Hm in Hmax. lia.
Qed.

Lemma elem_of_compatible_brands input b :
  b ∈ compatible_brands input <-> exists m, m ∈ input /\ b ∈ brands (movie_param m).
Proof.
  unfold compatible_brands. induction input as [|m0 input IH]; csimpl.
  - split; [by intros ?%elem_of_nil|]. by intros (m & ?%elem_of_nil & _).
  - rewrite elem_of_app, IH. split.
    + intros [H|(m & Hm & H)]; [exists m0; split; [by left|done]|].
      exists m. split; [by right|done].
    + intros (m & Hm & H). apply elem_of_cons in Hm as [->|Hm]; [by left|].
      right. by exists m.
Qed.

Lemma output_brands_set initial input :
  brands_ok input ->
  Z.of_nat (length (compatible_brands input)) < 2 ^ 32 ->
  let out := output_movie_parameters initial input in
  NoDup (brands out)
  /\ forall b, b ∈ brands out
               <-> b <> 0 /\ exists m, m ∈ input /\ b ∈ brands (movie_param m).
Proof.
  intros Hok Hlt. destruct (output_brands_spec initial input Hok Hlt) as [H _].
  cbv zeta in *. rewrite H. split; [apply NoDup_first_seen|].
  intros b. rewrite elem_of_first_seen, list_elem_of_filter, elem_of_compatible_brands.
  tauto.
Qed.

Lemma foldl_see_NoDup `{EqDecision A} (l : list A) : forall acc,
  NoDup (acc ++ l) -> foldl see acc l = acc ++ l.
Proof.
  induction l as [|x l IH]; intros acc H; simpl; [by rewrite app_nil_r|].
  assert (Hx : x ∉ acc).
  { apply NoDup_app in H as (_ & H & _). intros Hin. apply (H x Hin). by left. }
  rewrite see_new by done. rewrite IH; rewrite <- app_assoc; done.
Qed.

Lemma first_seen_NoDup `{EqDecision A} (l : list A) : NoDup l -> first_seen l = l.
Proof. intros H. by apply (foldl_see_NoDup l []). Qed.

Lemma single_source_spec initial m :
  number_of_brands (movie_param m) = Z.of_nat (length (brands (movie_param m))) ->
  number_of_brands (movie_param m) < 2 ^ 32 ->
  NoDup (brands (movie_param m)) ->
  0 ∉ brands (movie_param m) ->
  let out := output_movie_parameters initial [m] in
  major_brand out = major_brand (movie_param m)
  /\ minor_version out = minor_version (movie_param m)
  /\ brands out = brands (movie_param m)
  /\ number_of_brands out = number_of_brands (movie_param m).
Proof.
  intros Hn Hlt Hnd H0.
  assert (Hc : compatible_brands [m] = brands (movie_param m)).
  { unfold compatible_brands. simpl. by rewrite app_nil_r. }
  destruct (output_brands_spec initial [m]) as [Hb Hnb].
  { by repeat constructor. }
  { rewrite Hc. lia. }
  pose proof (largest_group_spec initial [m] [m] (brand_key m)) as Hk.
  cbv zeta in *. rewrite Hc in Hb, Hnb.
  assert (Hf : filter (fun b => b <> 0) (brands (movie_param m)) = brands (movie_param m)).
  { clear -H0. induction (brands (movie_param m)) as [|b l IH]; [done|].
    apply not_elem_of_cons in H0 as [Hb Hl].
    rewrite filter_cons_True by done. by rewrite IH. }
  rewrite Hf, first_seen_NoDup in Hb, Hnb by done.
  assert (Hcount : key_count [m] (brand_key m) = 1%nat).
  { unfold key_count. by rewrite filter_cons_True. }
  assert (Hk' : (major_brand (output_movie_parameters initial [m]),
                 minor_version (output_movie_parameters initial [m])) = brand_key m).
  { apply Hk; [done|rewrite Hcount; lia| |done].
    intros m' Hm' Hne. apply list_elem_of_singleton in Hm'. by subst. }
  injection Hk' as Hk1 Hk2.
  rewrite Hk1, Hk2, Hb, Hnb. by rewrite Hn.
Qed.

(** X11: a largest group of sources that is the only largest one gives the
    output its major brand and minor version in whatever order the sources
    are given.  When some source has the pair [k] and every source with
    another pair belongs to a strictly smaller group, the output of every
    reordering of the sources has the pair [k]. *)
Theorem largest_group_wins_in_any_order initial input input' k :
  Z.of_nat (length input) < 2 ^ 31 ->
  (0 < key_count input k)%nat ->
  (forall m, m ∈ input -> brand_key m <> k ->
             (key_count input (brand_key m) < key_count input k)%nat) ->
  input' ≡ₚ input ->
  let out := output_movie_parameters initial input' in
  (major_brand out, minor_version out) = k.
Proof. apply largest_group_spec. Qed.

Lemma largest_group_wins_in_any_order_witness :
  let out := output_movie_parameters zero_movie_parameters
               [source_of_brands 9 1 []; source_of_brands 7 0 []; source_of_brands 9 1 []] in
  (major_brand out, minor_version out) = (9, 1).
Proof.
  apply (largest_group_wins_in_any_order zero_movie_parameters
           [source_of_brands 7 0 []; source_of_brands 9 1 []; source_of_brands 9 1 []]
           [source_of_brands 9 1 []; source_of_brands 7 0 []; source_of_brands 9 1 []]
           (9, 1)).
  - simpl. lia.
  - vm_compute. lia.
  - intros m Hm Hne.
    apply elem_of_cons in Hm as [->|Hm]; [vm_compute; lia|].
    apply elem_of_cons in Hm as [->|Hm]; [done|].
    apply list_elem_of_singleton in Hm as ->. done.
  - apply perm_swap.
Defined.

(** X12: the compatible brands of the output have no repetition, and a
    brand is among them exactly when it is not the zero tag and is a
    compatible brand of some source. *)
Theorem output_brands_are_the_source_brands initial input :
  brands_ok input ->
  Z.of_nat (length (compatible_brands input)) < 2 ^ 32 ->
  let out := output_movie_parameters initial input in
  NoDup (brands out)
  /\ forall b, b ∈ brands out
               <-> b <> 0 /\ exists m, m ∈ input /\ b ∈ brands (movie_param m).
Proof. apply output_brands_set. Qed.

Lemma output_brands_are_the_source_brands_witness :
  let input := [source_of_brands 1 0 [10; 0; 20]; source_of_brands 1 0 [20; 30]] in
  let out := output_movie_parameters zero_movie_parameters input in
  NoDup (brands out)
  /\ forall b, b ∈ brands out
               <-> b <> 0 /\ exists m, m ∈ input /\ b ∈ brands (movie_param m).
Proof.
  apply (output_brands_are_the_source_brands zero_movie_parameters
           [source_of_brands 1 0 [10; 0; 20]; source_of_brands 1 0 [20; 30]]).
  - repeat constructor.
  - vm_compute. reflexivity.
Defined.

(** X13: with one source, the output keeps the source's major brand and
    minor version, and, when the source's compatible brands have no zero
    tag and no repetition, its list of compatible brands as it is. *)
Theorem single_source_keeps_brands initial m :
  number_of_brands (movie_param m) = Z.of_nat (length (brands (movie_param m))) ->
  number_of_brands (movie_param m) < 2 ^ 32 ->
  NoDup (brands (movie_param m)) ->
  0 ∉ brands (movie_param m) ->
  let out := output_movie_parameters initial [m] in
  major_brand out = major_brand (movie_param m)
  /\ minor_version out = minor_version (movie_param m)
  /\ brands out = brands (movie_param m)
  /\ number_of_brands out = number_of_brands (movie_param m).
Proof. apply single_source_spec. Qed.

Lemma single_source_keeps_brands_witness :
  let out := output_movie_parameters zero_movie_parameters [source_of_brands 5 1 [10; 20]] in
  major_brand out = 5 /\ minor_version out = 1 /\ brands out = [10; 20]
  /\ number_of_brands out = 2.
Proof.
  apply (single_source_keeps_brands zero_movie_parameters (source_of_brands 5 1 [10; 20])).
  - reflexivity.
  - vm_compute. reflexivity.
  - apply (bool_decide_unpack _). vm_compute. exact I.
  - apply (bool_decide_unpack _). vm_compute. exact I.
Defined.

(** * The whole run: every track in order, the watermark *)

Lemma array_get_set_eq {A} (a : list A) i x y :
  array_get (array_set a i x) i = Some y -> y = x.
Proof.
  unfold array_get, array_set. destruct (i <? 0); [done|]. intros H.
  pose proof (lookup_lt_Some _ _ _ H) as Hlt. rewrite length_insert in Hlt.
  rewrite list_lookup_insert_eq in H by done. by injection H.
Qed.

Lemma fmap_array_set_same {A B} (f : A -> B) (a : list A) i x :
  (forall y, array_get a i = Some y -> f x = f y) ->
  f <$> array_set a i x = f <$> a.
Proof.
  unfold array_get, array_set. destruct (i <? 0); [done|]. intros H.
  destruct (a !! Z.to_nat i) as [y|] eqn:E.
  - rewrite list_fmap_insert, (H y eq_refl). apply list_insert_id.
    by rewrite list_lookup_fmap, E.
  - apply lookup_ge_None in E. by rewrite list_insert_ge.
Qed.

Lemma source_of_move s movie :
  array_get (input s) (uint32 (input_movie_number s - 1)) = Some movie ->
  sources (move_the_next_track s movie) = sources s.
Proof.
  intros Hm. unfold sources, move_the_next_track. cbn [input].
  apply fmap_array_set_same. intros y Hy. rewrite Hm in Hy. injection Hy as <-.
  by destruct (_ <? _).
Qed.

Lemma source_of_store s movie in_track in_track' out_track largest skip active size count log :
  array_get (input s) (uint32 (input_movie_number s - 1)) = Some movie ->
  array_get (track movie) (uint32 (current_track_number movie - 1)) = Some in_track ->
  track_ID in_track' = track_ID in_track ->
  let r := store_turn s movie in_track' out_track largest skip active size count log in
  sources r.1 = sources s
  /\ source_of r.2 = source_of movie
  /\ input_movie_number r.1 = input_movie_number s
  /\ array_get (input r.1) (uint32 (input_movie_number s - 1)) = Some r.2.
Proof.
  intros Hm Ht Hid. unfold store_turn. cbn [fst snd input input_movie_number].
  assert (Hs : source_of (set_track movie
                 (array_set (track movie) (uint32 (current_track_number movie - 1)) in_track'))
               = source_of movie).
  { unfold source_of. cbn [root track set_track]. f_equal.
    apply fmap_array_set_same. intros y Hy. rewrite Ht in Hy. by injection Hy as <-. }
  split; [|split; [done|split; [done|]]].
  - unfold sources. cbn [input]. apply fmap_array_set_same.
    intros y Hy. rewrite Hm in Hy. by injection Hy as <-.
  - unfold array_get, array_set in *. destruct (_ <? 0); [done|].
    apply list_lookup_insert_eq. by apply lookup_lt_Some in Hm.
Qed.

Lemma mux_turn_sources s s' :
  mux_turn s = Continue s' \/ mux_turn s = Break s' -> sources s' = sources s.
Proof.
  unfold mux_turn.
  destruct (array_get (input s) _) as [movie|] eqn:Hm; [|by intros [|]].
  destruct (array_get (track movie) _) as [in_track|] eqn:Ht; [|by intros [|]].
  destruct (reach_end_of_media_timeline in_track); simpl.
  { intros [[= <-]|]; [|done]. by apply source_of_move. }
  destruct (array_get (track (output s)) _) as [out_track|]; [|by intros [|]].
  assert (Hgo : forall in_track' out_track' largest skip active size count log,
            track_ID in_track' = track_ID in_track ->
            let r := store_turn s movie in_track' out_track' largest skip active size count log in
            sources r.1 = sources s
            /\ sources (move_the_next_track r.1 r.2) = sources s).
  { intros in_track' out_track' largest skip active size count log Hid r.
    destruct (source_of_store s movie in_track in_track' out_track' largest skip active size
                count log Hm Ht Hid) as (H1 & H2 & H3 & H4).
    fold r in H1, H2, H3, H4. split; [done|].
    rewrite source_of_move; [done|]. by rewrite H3. }
  destruct (lsmash_get_dts_from_media_timeline _ _ _) as [dts|].
  - destruct (double_le _ _ || _).
    + destruct (lsmash_get_sample_from_media_timeline _ _ _); [|by intros [|]].
      destruct (appendable _); simpl; [|by intros [|]].
      intros [[= <-]|]; [|done]. by apply Hgo.
    + intros [[= <-]|]; [|done]. by apply Hgo.
  - destruct (lsmash_check_sample_existence_in_media_timeline _ _ _); [by intros [|]|].
    destruct (_ =? 0); intros [H|H]; try done; injection H as <-; by apply Hgo.
Qed.

Lemma mux_running_sources s0 s : mux_running s0 s -> sources s = sources s0.
Proof.
  induction 1 as [|s s' _ IH Hturn]; [done|].
  rewrite <- IH. apply mux_turn_sources. by left.
Qed.

Lemma mux_reach_sources s0 s : mux_reach s0 s -> sources s = sources s0.
Proof.
  intros [H|(s1 & H & Hb)]; [by apply mux_running_sources|].
  rewrite <- (mux_running_sources s0 s1 H). apply mux_turn_sources. by right.
Qed.

Lemma tracks_before_sources ms ms' k :
  source_of <$> ms = source_of <$> ms' -> tracks_before ms k = tracks_before ms' k.
Proof.
  revert ms' k. induction ms as [|m ms IH]; intros [|m' ms'] k H; try done.
  destruct k as [|k]; [done|]. unfold tracks_before in *. csimpl in *.
  injection H as Hr Hids Hrest. rewrite (IH ms' k Hrest).
  apply (f_equal length) in Hids. rewrite !length_fmap in Hids. lia.
Qed.

(** A track of the start state is, in a later state, the same track of the
    same source at the same place. *)
Lemma sources_lookup s0 s k j m t :
  sources s = sources s0 ->
  input s0 !! k = Some m -> track m !! j = Some t ->
  exists m' t',
    input s !! k = Some m' /\ track m' !! j = Some t'
    /\ root m' = root m /\ track_ID t' = track_ID t
    /\ tracks_before (input s) k = tracks_before (input s0) k.
Proof.
  unfold sources. intros Hs Hm Ht.
  pose proof (f_equal (fun l => l !! k) Hs) as Hk. simpl in Hk.
  rewrite !list_lookup_fmap, Hm in Hk.
  destruct (input s !! k) as [m'|] eqn:Hm'; [|done]. injection Hk as Hr Hids.
  pose proof (f_equal (fun l => l !! j) Hids) as Hj. simpl in Hj.
  rewrite !list_lookup_fmap, Ht in Hj.
  destruct (track m' !! j) as [t'|] eqn:Ht'; [|done]. injection Hj as Hid.
  exists m', t'. repeat split; try done. by apply tracks_before_sources.
Qed.

(** Every output track number belongs to one track of one input movie. *)
Lemma track_of_number ms (n : nat) :
  (n < sum_list_with (fun m => length (track m)) ms)%nat ->
  exists k j m t, ms !! k = Some m /\ track m !! j = Some t
                  /\ n = (tracks_before ms k + j)%nat.
Proof.
  revert n. induction ms as [|m0 ms IH]; intros n Hn; simpl in Hn; [lia|].
  destruct (Nat.lt_ge_cases n (length (track m0))) as [Hlt|Hge].
  - destruct (lookup_lt_is_Some_2 (track m0) n Hlt) as [t Ht].
    exists 0%nat, n, m0, t. by repeat split.
  - destruct (IH (n - length (track m0))%nat ltac:(lia)) as (k & j & m & t & Hm & Ht & Heq).
    exists (S k), j, m, t. repeat split; try done.
    unfold tracks_before in *. simpl. lia.
Qed.

Lemma output_tracks_at_start s :
  at_start_muxing s = true ->
  num_tracks (output s)
  = Z.of_nat (sum_list_with (fun m => length (track m)) (input s)).
Proof.
  intros H0. destruct (at_start_muxing_inv s H0) as ([Hok _ _] & _).
  rewrite (ok_out_tracks _ Hok), (ok_total _ Hok).
  by rewrite (slots_of_movies_length_sum 1).
Qed.

(** At the end of a run every output track has received the samples 1,
    ..., count of its input track, in this order. *)
Lemma finished_in_order s0 turns s :
  at_start_muxing s0 = true -> mux_run turns s0 = Finished s ->
  forall number, 1 <= number <= num_tracks (output s0) ->
    exists k j m t,
      input s0 !! k = Some m /\ track m !! j = Some t
      /\ number = Z.of_nat (tracks_before (input s0) k + j) + 1
      /\ samples_to number (appended s)
         = seqZ 1 (Z.of_nat (length (media_timeline (root m) (track_ID t)))).
Proof.
  intros H0 Hrun number Hnumber.
  rewrite (output_tracks_at_start s0 H0) in Hnumber.
  destruct (track_of_number (input s0) (Z.to_nat (number - 1)) ltac:(lia))
    as (k & j & m & t & Hm & Ht & Heq).
  exists k, j, m, t. split; [done|]. split; [done|]. split; [lia|].
  assert (Hreach : mux_reach s0 s).
  { apply mux_run_Finished in Hrun as (s1 & H1 & Hb). right. by exists s1. }
  assert (Hact : num_active_input_tracks s = 0).
  { apply mux_run_Finished in Hrun as (s1 & _ & Hb). by eapply mux_turn_Break_active. }
  destruct (sources_lookup s0 s k j m t (mux_reach_sources _ _ Hreach) Hm Ht)
    as (m' & t' & Hm' & Ht' & Hr & Hid & Hbefore).
  pose proof (appended_in_order_inv s0 s k j m' t' H0 Hreach Hm' Ht') as Hinv.
  cbv zeta in Hinv. destruct Hinv as (_ & _ & _ & _ & Hend).
  destruct (Hend Hact) as [_ Hlog]. rewrite Hbefore, Hr, Hid in Hlog.
  replace number with (Z.of_nat (tracks_before (input s0) k + j) + 1) by lia. done.
Qed.

Lemma run_finishes s0 turns :
  at_start_muxing s0 = true -> library_ok s0 = true -> (turn_bound s0 <= turns)%nat ->
  exists s, mux_run turns s0 = Finished s.
Proof.
  intros H0 Hlib Hn. pose proof (mux_run_within_bound s0 turns H0 Hn) as He.
  destruct (at_start_muxing_inv s0 H0) as ([Hok _ _] & _).
  destruct (mux_run turns s0) as [s|e| |s] eqn:Hrun; try done.
  - by exists s.
  - exfalso. by apply (mux_run_no_abort turns s0 e Hok (library_ok_slots_ok s0 Hlib)).
Qed.

(** C4: every output track receives the samples 1, 2, ..., count of its
    input track, each once and in this order.  From the start of the loop,
    when no library call on a sample fails, the loop is left through
    [break] within [turn_bound] turns, and then, for every output track,
    the sample numbers appended to it over the run are exactly 1, ...,
    count of the track that it was made for (the track in position [j] of
    the input movie in position [k], counted from 0, goes to the output
    track number [tracks_before + j + 1]); the same holds at the end of
    every run that is left through [break].  On the way, in every state of
    the run, the sample numbers appended to an output track so far are 1,
    ..., [current_sample_number] - 1 of its input track, the output track's
    cursor is the same number, and each appended sample is the one that the
    timeline holds under its number: a cursor is only ever one past the
    samples that were appended. *)
Theorem appended_samples_in_order (s0 : mux_state) :
  at_start_muxing s0 = true ->
  (library_ok s0 = true ->
   forall turns, (turn_bound s0 <= turns)%nat ->
     exists s, mux_run turns s0 = Finished s
       /\ forall number, 1 <= number <= num_tracks (output s0) ->
            exists k j m t,
              input s0 !! k = Some m /\ track m !! j = Some t
              /\ number = Z.of_nat (tracks_before (input s0) k + j) + 1
              /\ samples_to number (appended s)
                 = seqZ 1 (Z.of_nat (length (media_timeline (root m) (track_ID t)))))
  /\ (forall turns s, mux_run turns s0 = Finished s ->
        forall number, 1 <= number <= num_tracks (output s0) ->
          exists k j m t,
            input s0 !! k = Some m /\ track m !! j = Some t
            /\ number = Z.of_nat (tracks_before (input s0) k + j) + 1
            /\ samples_to number (appended s)
               = seqZ 1 (Z.of_nat (length (media_timeline (root m) (track_ID t)))))
  /\ (forall s k j m t,
        mux_reach s0 s -> input s !! k = Some m -> track m !! j = Some t ->
        let number := Z.of_nat (tracks_before (input s) k + j) + 1 in
        let count := Z.of_nat (length (media_timeline (root m) (track_ID t))) in
        samples_to number (appended s) = seqZ 1 (current_sample_number t - 1)
        /\ 1 <= current_sample_number t <= count + 1
        /\ (exists o, track (output s) !! (tracks_before (input s) k + j)%nat = Some o
                      /\ current_sample_number o = current_sample_number t
                      /\ Forall (fun a => to_track_number a = number ->
                                          to_track_ID a = track_ID o)
                           (appended s))
        /\ Forall (fun a => to_track_number a = number ->
                     from_movie_number a = Z.of_nat k + 1
                     /\ from_track_number a = Z.of_nat j + 1
                     /\ exists e, media_timeline (root m) (track_ID t)
                                    !! Z.to_nat (from_sample_number a - 1) = Some e
                                  /\ appended_dts a = uint64 (sample_dts e)
                                  /\ appended_length a = uint64 (sample_length e))
             (appended s)
        /\ (num_active_input_tracks s = 0 ->
            current_sample_number t = count + 1
            /\ samples_to number (appended s) = seqZ 1 count)).
Proof.
  intros H0. split; [|split].
  - intros Hlib turns Hn. destruct (run_finishes s0 turns H0 Hlib Hn) as [s Hrun].
    exists s. split; [done|]. by apply (finished_in_order s0 turns).
  - intros turns s. by apply finished_in_order.
  - intros s k j m t. by apply appended_in_order_inv.
Qed.

Lemma appended_samples_in_order_witness :
  exists s, mux_run 40 (two_sources 1 [0; 1; 2] [0; 2]) = Finished s
    /\ forall number, 1 <= number <= num_tracks (output (two_sources 1 [0; 1; 2] [0; 2])) ->
         exists k j m t,
           input (two_sources 1 [0; 1; 2] [0; 2]) !! k = Some m /\ track m !! j = Some t
           /\ number = Z.of_nat (tracks_before (input (two_sources 1 [0; 1; 2] [0; 2])) k + j) + 1
           /\ samples_to number (appended s)
              = seqZ 1 (Z.of_nat (length (media_timeline (root m) (track_ID t)))).
Proof.
  refine (proj1 (appended_samples_in_order (two_sources 1 [0; 1; 2] [0; 2]) _) _ 40%nat _).
  - reflexivity.
  - reflexivity.
  - vm_compute. lia.
Defined.

(** ** The watermark *)

Lemma double_le_lt a b : SFltb a b = true -> double_le a b = true.
Proof.
  unfold double_le, SFleb, SFltb. by destruct (SFcompare a b) as [[]|].
Qed.

(** [LSMASH_MAX] is one of its arguments, and neither is above it. *)
Lemma LSMASH_MAX_spec a b :
  double_is_nan a = false -> double_is_nan b = false ->
  double_le a (LSMASH_MAX a b) = true
  /\ double_le b (LSMASH_MAX a b) = true
  /\ (LSMASH_MAX a b = a \/ LSMASH_MAX a b = b).
Proof.
  intros Ha Hb. split; [by apply LSMASH_MAX_ge|].
  unfold LSMASH_MAX, double_gt. destruct (SFltb b a) eqn:E.
  - split; [by apply double_le_lt|by left].
  - split; [by apply double_le_refl|by right].
Qed.

Lemma main_setup_largest_dts L argv s :
  main_setup L argv = Start_muxing s -> largest_dts s = double_zero.
Proof.
  intros H. by destruct (main_setup_Start L argv s H) as (io & r & outs & _ & _ & _ & _ & ->).
Qed.

Lemma current_in_track_timescale s0 s t :
  at_start_muxing s0 = true -> positive_timescales s0 = true -> mux_running s0 s ->
  current_in_track s = Some t ->
  0 < timescale (media_param t) < 2 ^ 32.
Proof.
  intros H0 Hts Hrun Ht.
  destruct (mux_running_largest _ _ H0 Hts Hrun) as (Hq & _ & _).
  destruct (mux_running_inv _ _ H0 Hrun) as [[Hok _ _] _].
  destruct (cursor_ok_at_cursor s Hok) as (movie & in_track & out_track & Hat).
  unfold timescales_ok in Hq. rewrite (view_queue_head s movie in_track out_track Hok Hat) in Hq.
  apply Forall_cons in Hq as [Hq _]. simpl in Hq.
  destruct (at_cursor_indices s movie in_track out_track Hok Hat) as (E1 & E2 & _).
  unfold current_in_track in Ht. rewrite E1, array_get_nat, Nat2Z.id in Ht by lia.
  rewrite (cur_movie _ _ _ _ Hat) in Ht. simpl in Ht.
  rewrite E2, array_get_nat, Nat2Z.id in Ht by lia.
  rewrite (cur_in _ _ _ _ Hat) in Ht. by injection Ht as <-.
Qed.

Lemma watermark_step s0 s s' :
  at_start_muxing s0 = true -> positive_timescales s0 = true ->
  mux_running s0 s ->
  mux_turn s = Continue s' \/ mux_turn s = Break s' ->
  (appended s' = appended s /\ largest_dts s' = largest_dts s)
  \/ exists a t,
       current_in_track s = Some t
       /\ appended s' = appended s ++ [a]
       /\ from_sample_number a = current_sample_number t
       /\ let seconds := double_div (double_of_Z (appended_dts a))
                           (double_of_Z (timescale (media_param t))) in
          largest_dts s' = LSMASH_MAX (largest_dts s) seconds
          /\ double_le (largest_dts s) (largest_dts s') = true
          /\ double_le seconds (largest_dts s') = true
          /\ (largest_dts s' = largest_dts s \/ largest_dts s' = seconds).
Proof.
  intros H0 Hts Hrun Hturn.
  destruct (mux_turn_largest s s' Hturn) as [?|(a & t & Ht & Hlog & Hn & Hl)]; [by left|].
  right. exists a, t. do 3 (split; [done|]). cbv zeta. split; [done|]. rewrite Hl.
  apply LSMASH_MAX_spec.
  - by destruct (mux_running_largest _ _ H0 Hts Hrun) as (_ & ? & _).
  - apply double_div_not_nan. by apply (current_in_track_timescale s0 s).
Qed.

(** C5: the watermark [largest_dts] is 0 when [main] gets to the loop.  A
    turn that appends no sample leaves it as it is; a turn that appends a
    sample sets it to [LSMASH_MAX] of its old value and the sample's
    timestamp divided by the timescale of the sample's track, which, with
    timescales that are positive, is the larger of the two: it is one of
    them, and neither the old value nor the sample's seconds is above it.
    So the watermark never decreases, from one turn to the next and from
    any state of the run to any later one. *)
Theorem watermark_never_decreases :
  (forall L argv s0, main_setup L argv = Start_muxing s0 -> largest_dts s0 = double_zero)
  /\ (forall s0,
        at_start_muxing s0 = true -> positive_timescales s0 = true ->
        (forall s s', mux_running s0 s ->
           mux_turn s = Continue s' \/ mux_turn s = Break s' ->
           (appended s' = appended s /\ largest_dts s' = largest_dts s)
           \/ exists a t,
                current_in_track s = Some t
                /\ appended s' = appended s ++ [a]
                /\ from_sample_number a = current_sample_number t
                /\ let seconds := double_div (double_of_Z (appended_dts a))
                                    (double_of_Z (timescale (media_param t))) in
                   largest_dts s' = LSMASH_MAX (largest_dts s) seconds
                   /\ double_le (largest_dts s) (largest_dts s') = true
                   /\ double_le seconds (largest_dts s') = true
                   /\ (largest_dts s' = largest_dts s \/ largest_dts s' = seconds))
        /\ (forall s s', mux_running s0 s ->
              mux_turn s = Continue s' \/ mux_turn s = Break s' ->
              double_le (largest_dts s) (largest_dts s') = true)
        /\ (forall s s', mux_running s0 s -> mux_reach s s' ->
              double_le (largest_dts s) (largest_dts s') = true)).
Proof.
  split; [exact main_setup_largest_dts|].
  intros s0 H0 Hts. split; [|split].
  - intros s s'. by apply watermark_step.
  - intros s s'. by apply watermark_step_le.
  - intros s s'. by apply watermark_later_le.
Qed.

Lemma watermark_never_decreases_witness :
  largest_dts
    (started (main_setup
                (library_of [("in.mp4"%string, source_of_timelines [[0; 1]; [0]; []]);
                             ("more.mp4"%string, source_of_timelines [[0; 2]])])
                ["remuxer"; "-i"; "in.mp4"; "-i"; "more.mp4"; "-o"; "out.mp4"]%string))
  = double_zero
  /\ double_le (largest_dts (two_sources 1 [0; 1; 2] [0; 2]))
       (largest_dts (state_after 11 (two_sources 1 [0; 1; 2] [0; 2]))) = true.
Proof.
  split.
  - apply (proj1 watermark_never_decreases
             (library_of [("in.mp4"%string, source_of_timelines [[0; 1]; [0]; []]);
                          ("more.mp4"%string, source_of_timelines [[0; 2]])])
             ["remuxer"; "-i"; "in.mp4"; "-i"; "more.mp4"; "-o"; "out.mp4"]%string).
    vm_compute. reflexivity.
  - apply (proj2 (proj2 (proj2 watermark_never_decreases (two_sources 1 [0; 1; 2] [0; 2])
                           eq_refl eq_refl))).
    + apply running_start.
    + apply state_after_reach. vm_compute. reflexivity.
Defined.
